(** * Lispy: a Scheme interpreter in Python (lis.py), embedded in Rocq

    The development follows the layout of [lis.py]:
    - host text primitives used by the reader ([str.replace], [str.split],
      [int], [float], [str]);
    - parsing: [tokenize], [read_from_tokens], [atom], [parse];
    - environments: [Env], [Env.find], [standard_env];
    - procedures and [eval];
    - [lispstr].

    Python objects are modelled by the type [value]; environments are
    objects with identity, so they live in a store and are named by their
    address. *)

From Stdlib Require Import ZArith String Ascii List Lia Bool SpecFloat.
From stdpp Require Import base option list strings.

Local Open Scope string_scope.

(** ** Host text primitives *)

Module Host.

(** Text is a sequence of characters; a character is modelled by [ascii]
    and stands for the code point of the same number (0..255). *)

Definition code (c : ascii) : nat := nat_of_ascii c.

(** [str.isspace] on the code points below 256. *)
Definition is_space (c : ascii) : bool :=
  let n := code c in
  (Nat.leb 9 n && Nat.leb n 13) || (Nat.leb 28 n && Nat.leb n 32)
  || Nat.eqb n 133 || Nat.eqb n 160.

Definition is_digit (c : ascii) : bool :=
  let n := code c in Nat.leb 48 n && Nat.leb n 57.

Definition digit_val (c : ascii) : Z := (Z.of_nat (code c) - 48)%Z.

Definition digit_char (d : Z) : ascii := ascii_of_nat (Z.to_nat d + 48).

(** [s.replace(c, by)] for a one-character pattern [c]. *)
Fixpoint replace (c : ascii) (by_ : string) (s : string) : string :=
  match s with
  | EmptyString => EmptyString
  | String a s' =>
      if Ascii.eqb a c then by_ ++ replace c by_ s'
      else String a (replace c by_ s')
  end.

(** [s.split()]: the maximal runs of non-space characters, in order. *)
Definition flush (w : string) : list string :=
  match w with EmptyString => [] | _ => [w] end.

Fixpoint split_from (w : string) (s : string) : list string :=
  match s with
  | EmptyString => flush w
  | String c s' =>
      if is_space c then flush w ++ split_from EmptyString s'
      else split_from (w ++ String c EmptyString) s'
  end.

Definition split (s : string) : list string := split_from EmptyString s.

(** The white space that [int] and [float] skip around a numeral: tab,
    line feed, vertical tab, form feed, carriage return and space, and the
    two spaces above 127, which the conversion turns into a space first.
    The separators 28..31 are white space for [str.split] only: a numeral
    next to one of them is refused. *)
Definition is_blank (c : ascii) : bool :=
  let n := code c in
  (Nat.leb 9 n && Nat.leb n 13) || Nat.eqb n 32
  || Nat.eqb n 133 || Nat.eqb n 160.

(** The text without that white space at its two ends. *)
Fixpoint lstrip (s : string) : string :=
  match s with
  | String c s' => if is_blank c then lstrip s' else s
  | EmptyString => EmptyString
  end.

Fixpoint rstrip (s : string) : string :=
  match s with
  | EmptyString => EmptyString
  | String c s' =>
      match rstrip s' with
      | EmptyString => if is_blank c then EmptyString else String c EmptyString
      | r => String c r
      end
  end.

Definition strip (s : string) : string := rstrip (lstrip s).

(** *** [int(text)]

    Base 10: optional surrounding white space, an optional sign, then
    digits in which a single underscore may separate two digits.

    The host converts between integers and decimal text up to a number of
    digits that is configurable, [max_str_digits] by default, and raises
    ValueError beyond.  [py_int] and [str_int] are the conversions without
    that limit: they are the host's [int] and [str] on the integers of
    [max_str_digits] digits at most. *)

Definition max_str_digits : nat := 4300.

Fixpoint int_body (prev_digit : bool) (acc : Z) (s : string) : option Z :=
  match s with
  | EmptyString => if prev_digit then Some acc else None
  | String c r =>
      if is_digit c then int_body true (10 * acc + digit_val c)%Z r
      else if Ascii.eqb c "_"
           then (if prev_digit then int_body false acc r else None)
           else None
  end.

(** Splits an optional sign off the front: [true] for a minus. *)
Definition read_sign (s : string) : bool * string :=
  match s with
  | String c r =>
      if Ascii.eqb c "-" then (true, r)
      else if Ascii.eqb c "+" then (false, r)
      else (false, s)
  | EmptyString => (false, s)
  end.

Definition py_int (s : string) : option Z :=
  let '(neg, body) := read_sign (strip s) in
  n ← int_body false 0%Z body;
  Some (if neg then (- n)%Z else n).

(** *** [str(n)] for an integer *)

Fixpoint digits_of (fuel : nat) (n : Z) (acc : string) : string :=
  match fuel with
  | O => acc
  | S f =>
      let acc' := String (digit_char (n mod 10)) acc in
      if (n <? 10)%Z then acc' else digits_of f (n / 10)%Z acc'
  end.

Definition str_nat (n : Z) : string :=
  digits_of (S (Z.to_nat (Z.log2 n))) n EmptyString.

Definition str_int (z : Z) : string :=
  if (z <? 0)%Z then String "-" (str_nat (- z)) else str_nat z.

(** *** Floating-point numbers

    A Python [float] is an IEEE 754 binary64 number: [spec_float] with
    precision 53 and maximal exponent 1024. *)

Definition prec : Z := 53.
Definition emax : Z := 1024.

Definition fadd := SFadd prec emax.
Definition fsub := SFsub prec emax.
Definition fmul := SFmul prec emax.
Definition fdiv := SFdiv prec emax.

(** The binary64 number nearest to the integer [z] (ties to even). *)
Definition float_of_Z (z : Z) : spec_float :=
  binary_normalize prec emax z 0 false.

(** The binary64 number nearest to [n / d], for [0 <= n] and [0 < d]. *)
Definition float_of_ratio (neg : bool) (n d : Z) : spec_float :=
  match n, d with
  | Zpos pn, Zpos pd =>
      fdiv (S754_finite neg pn 0) (S754_finite false pd 0)
  | _, _ => S754_zero neg
  end.

(** The binary64 number nearest to [n * 10^e], for [0 <= n]. *)
Definition float_of_decimal (neg : bool) (n e : Z) : spec_float :=
  if (0 <=? e)%Z then
    match (n * 10 ^ e)%Z with
    | Zpos p => binary_round prec emax neg p 0
    | _ => S754_zero neg
    end
  else float_of_ratio neg n (10 ^ (- e))%Z.

(** *** [float(text)] *)

(** Underscores are accepted only between two digits and are dropped. *)
Fixpoint drop_underscores (prev : ascii) (s : string) : option string :=
  match s with
  | EmptyString => if Ascii.eqb prev "_" then None else Some EmptyString
  | String c r =>
      if Ascii.eqb c "_" then
        if is_digit prev then drop_underscores c r else None
      else if Ascii.eqb prev "_" && negb (is_digit c) then None
      else String c <$> drop_underscores c r
  end.

Definition lower (c : ascii) : ascii :=
  let n := code c in
  if Nat.leb 65 n && Nat.leb n 90 then ascii_of_nat (n + 32) else c.

Fixpoint lower_string (s : string) : string :=
  match s with
  | EmptyString => EmptyString
  | String c r => String (lower c) (lower_string r)
  end.

(** Reads a maximal run of digits: its value appended to [acc], the number
    of digits read, and the rest of the text. *)
Fixpoint read_digits (acc : Z) (count : Z) (s : string) : Z * Z * string :=
  match s with
  | String c r =>
      if is_digit c then read_digits (10 * acc + digit_val c)%Z (count + 1)%Z r
      else (acc, count, s)
  | EmptyString => (acc, count, s)
  end.

(** The exponent part: empty, or [e], an optional sign and one digit or
    more, up to the end of the text. *)
Definition read_exponent (s : string) : option Z :=
  match s with
  | EmptyString => Some 0%Z
  | String c r =>
      if Ascii.eqb (lower c) "e" then
        let '(neg, r') := read_sign r in
        match read_digits 0 0 r' with
        | (x, cnt, EmptyString) =>
            if (0 <? cnt)%Z then Some (if neg then (- x)%Z else x) else None
        | _ => None
        end
      else None
  end.

(** An unsigned decimal numeral: digits, an optional point with digits,
    an optional exponent; one digit at least before the exponent. *)
Definition read_decimal (neg : bool) (s : string) : option spec_float :=
  let '(ip, ni, r1) := read_digits 0 0 s in
  let '(m, nf, r2) :=
    match r1 with
    | String c r => if Ascii.eqb c "." then read_digits ip 0 r else (ip, 0%Z, r1)
    | EmptyString => (ip, 0%Z, r1)
    end in
  if (0 <? ni + nf)%Z then
    x ← read_exponent r2; Some (float_of_decimal neg m (x - nf))
  else None.

Definition py_float (s : string) : option spec_float :=
  t ← drop_underscores " " (strip s);
  let '(neg, body) := read_sign t in
  match read_decimal neg body with
  | Some f => Some f
  | None =>
      let w := lower_string body in
      if String.eqb w "inf" || String.eqb w "infinity" then Some (S754_infinity neg)
      else if String.eqb w "nan" then Some S754_nan
      else None
  end.

End Host.

(** ** Python objects *)

(** The callables registered by [standard_env].  A constructor stands for
    one host object: ["="] and ["equal?"] are both [operator.eq]. *)
Inductive builtin : Set :=
  | variadic_add | op_sub | variadic_mul | op_truediv
  | op_gt | op_lt | op_ge | op_le | op_eq
  | py_abs | op_add | scheme_apply | begin_ | car | cdr | cons_
  | op_is | py_len | list_ | is_list | py_map | py_max | py_min
  | op_not | is_null | is_number | py_callable | py_round | is_symbol.

(** The objects the interpreter handles.  An expression is an object built
    from numbers, symbols and lists; [quote] hands such an object over as
    it is.  [HostFn] is a callable of the host's [math] module: a call of
    it is not modelled, and neither are the host objects of other kinds
    that such a call may return (the tuple of [math.frexp] or
    [math.modf]). *)
#[warnings="-register-all"] Inductive value : Type :=
  | Int (z : Z)
  | Float (f : spec_float)
  | Symbol (s : string)
  | List (l : list value)
  | Bool (b : bool)
  | NoneV
  | Procedure (parms body : value) (env : nat)
  | Builtin (b : builtin)
  | HostFn (name : string).

Inductive error : Set :=
  | SyntaxError | NameError | TypeError | ValueError | IndexError
  | KeyError | ZeroDivisionError | OverflowError.

(** The result of running a piece of the program: a value, a raised
    exception, the recursion budget used up, or a host behaviour that this
    embedding does not describe. *)
Inductive outcome (A : Type) : Type :=
  | Ok (a : A)
  | Raise (e : error)
  | OutOfFuel
  | Unmodelled.
Arguments Ok {A} a.
Arguments Raise {A} e.
Arguments OutOfFuel {A}.
Arguments Unmodelled {A}.

Definition obind {A B} (m : outcome A) (k : A -> outcome B) : outcome B :=
  match m with
  | Ok a => k a
  | Raise e => Raise e
  | OutOfFuel => OutOfFuel
  | Unmodelled => Unmodelled
  end.

Notation "'do' x <- m ; k" := (obind m (fun x => k))
  (at level 10, x name, m at level 100, k at level 200).

(** ** Parsing: parse, tokenize, and read_from_tokens *)

Definition tokenize (s : string) : list string :=
  Host.split (Host.replace ")" " ) " (Host.replace "(" " ( " s)).

(** Numbers become numbers; every other token is a symbol. *)
Definition atom (token : string) : value :=
  match Host.py_int token with
  | Some z => Int z
  | None =>
      match Host.py_float token with
      | Some f => Float f
      | None => Symbol token
      end
  end.

(** [read_from_tokens] pops tokens off the front of a list it mutates: the
    model returns the tokens left.  [read_list] is its [while] loop, with
    the list [L] built so far. *)
Fixpoint read_from_tokens (fuel : nat) (tokens : list string)
  : outcome value * list string :=
  match fuel with
  | O => (OutOfFuel, tokens)
  | S fuel' =>
      match tokens with
      | [] => (Raise SyntaxError, tokens)
      | token :: tokens' =>
          if String.eqb "(" token then read_list fuel' tokens' []
          else if String.eqb ")" token then (Raise SyntaxError, tokens')
          else (Ok (atom token), tokens')
      end
  end
with read_list (fuel : nat) (tokens : list string) (L : list value)
  : outcome value * list string :=
  match fuel with
  | O => (OutOfFuel, tokens)
  | S fuel' =>
      match tokens with
      | [] => (Raise SyntaxError, tokens)
      | t :: tokens' =>
          if String.eqb t ")" then (Ok (List L), tokens')
          else
            match read_from_tokens fuel' tokens with
            | (Ok x, rest) => read_list fuel' rest (L ++ [x])
            | (r, rest) => (r, rest)
            end
      end
  end.

(** Two calls per token at most: this budget never runs out
    (see [read_from_tokens_fuel]). *)
Definition parse_fuel (tokens : list string) : nat := S (2 * length tokens).

Definition parse (program : string) : outcome value :=
  let tokens := tokenize program in
  fst (read_from_tokens (parse_fuel tokens) tokens).

(** ** Environments *)

(** An environment: a dict of {'var': val} pairs, with an outer Env.  The
    dict is an association list read from the front: [env[var] = val] puts
    the pair in front, where it hides an older pair of the same key. *)
Record Env : Type := { vars : list (string * value); outer : option nat }.

(** Environments are objects shared by reference (a closure keeps the one
    it was made in): the store holds them, an address names one, and a new
    environment takes the next free address. *)
Abbreviation store := (list Env).

Fixpoint assoc (var : string) (d : list (string * value)) : option value :=
  match d with
  | [] => None
  | (k, v) :: d' => if String.eqb k var then Some v else assoc var d'
  end.

(** [var in env] *)
Definition contains (env : Env) (var : string) : bool :=
  match assoc var (vars env) with Some _ => true | None => false end.

(** [env[var] = val] on the environment itself *)
Definition setitem (var : string) (val : value) (env : Env) : Env :=
  {| vars := (var, val) :: vars env; outer := outer env |}.

(** [env[var]] for the environment at address [a]; a missing key is the
    dict's KeyError. *)
Definition getitem (a : nat) (var : string) (s : store) : outcome value :=
  match s !! a with
  | Some env =>
      match assoc var (vars env) with
      | Some v => Ok v
      | None => Raise KeyError
      end
  | None => Raise KeyError
  end.

(** Find the innermost Env where var appears.  An environment is created
    with an outer one that exists already, so a chain never comes back to
    an address and has [length s] links at most: that is the bound [k]. *)
Fixpoint find_from (k : nat) (var : string) (a : nat) (s : store) : option nat :=
  match k with
  | O => None
  | S k' =>
      match s !! a with
      | None => None
      | Some env =>
          if contains env var then Some a
          else match outer env with
               | Some o => find_from k' var o s
               | None => None
               end
      end
  end.

Definition Env_find (var : string) (a : nat) (s : store) : option nat :=
  find_from (length s) var a s.

(** What iterating over an object yields ([zip(parms, args)], [proc( *args)]):
    the elements of a list, the characters of a string. *)
Fixpoint chars (s : string) : list value :=
  match s with
  | EmptyString => []
  | String c r => Symbol (String c EmptyString) :: chars r
  end.

Definition iterate (v : value) : outcome (list value) :=
  match v with
  | List l => Ok l
  | Symbol s => Ok (chars s)
  | HostFn _ => Unmodelled
  | _ => Raise TypeError
  end.

(** [dict.update(pairs)], one pair after the other.  A list is not hashable;
    keys that are not strings are not modelled. *)
Fixpoint update (d : list (string * value)) (pairs : list (value * value))
  : outcome (list (string * value)) :=
  match pairs with
  | [] => Ok d
  | (Symbol k, v) :: pairs' => update ((k, v) :: d) pairs'
  | (List _, _) :: _ => Raise TypeError
  | _ :: _ => Unmodelled
  end.

(** [Env(parms, args, outer)]: [zip] stops at the shorter of the two. *)
Definition Env_init (parms : value) (args : list value) (outer : option nat)
  : outcome Env :=
  do ps <- iterate parms;
  do d <- update [] (zip ps args);
  Ok {| vars := d; outer := outer |}.

(** ** The built-in procedures of [standard_env] *)

(** Python's truth value, as [if] and [not] take it, of the objects of
    [value]. *)
Definition truthy (v : value) : bool :=
  match v with
  | Bool b => b
  | NoneV => false
  | Int z => negb (z =? 0)%Z
  | Float (S754_zero _) => false
  | Float _ => true
  | Symbol s => negb (String.eqb s "")
  | List l => match l with [] => false | _ => true end
  | Procedure _ _ _ | Builtin _ | HostFn _ => true
  end.

Definition callable (v : value) : bool :=
  match v with
  | Procedure _ _ _ | Builtin _ | HostFn _ => true
  | _ => false
  end.

(** Numbers: [int] (with [bool], its subclass) and [float]. *)
Inductive num : Type := NInt (z : Z) | NFloat (f : spec_float).

Definition as_num (v : value) : option num :=
  match v with
  | Int z => Some (NInt z)
  | Bool b => Some (NInt (if b then 1 else 0)%Z)
  | Float f => Some (NFloat f)
  | _ => None
  end.

(** [float(n)] for an integer: too large an integer is an OverflowError. *)
Definition to_float (z : Z) : outcome spec_float :=
  match Host.float_of_Z z with
  | S754_infinity _ => Raise OverflowError
  | f => Ok f
  end.

Definition as_float (n : num) : outcome spec_float :=
  match n with NInt z => to_float z | NFloat f => Ok f end.

Definition arith (iop : Z -> Z -> Z) (fop : spec_float -> spec_float -> spec_float)
    (a b : num) : outcome value :=
  match a, b with
  | NInt x, NInt y => Ok (Int (iop x y))
  | _, _ => do x <- as_float a; do y <- as_float b; Ok (Float (fop x y))
  end.

Definition is_zero (f : spec_float) : bool :=
  match f with S754_zero _ => true | _ => false end.

(** [a / b]: the quotient of two integers is rounded once. *)
Definition truediv (a b : num) : outcome value :=
  match a, b with
  | NInt x, NInt y =>
      if (y =? 0)%Z then Raise ZeroDivisionError
      else
        match Host.float_of_ratio (xorb (x <? 0)%Z (y <? 0)%Z) (Z.abs x) (Z.abs y) with
        | S754_infinity _ => Raise OverflowError
        | f => Ok (Float f)
        end
  | _, _ =>
      do x <- as_float a; do y <- as_float b;
      if is_zero y then Raise ZeroDivisionError else Ok (Float (Host.fdiv x y))
  end.

Fixpoint repeat_list {A} (n : nat) (l : list A) : list A :=
  match n with O => [] | S n' => l ++ repeat_list n' l end.

Fixpoint repeat_string (n : nat) (s : string) : string :=
  match n with O => EmptyString | S n' => s ++ repeat_string n' s end.

(** [a + b] *)
Definition py_add (a b : value) : outcome value :=
  match as_num a, as_num b with
  | Some x, Some y => arith Z.add Host.fadd x y
  | _, _ =>
      match a, b with
      | List x, List y => Ok (List (x ++ y))
      | Symbol x, Symbol y => Ok (Symbol (x ++ y))
      | HostFn _, _ | _, HostFn _ => Unmodelled
      | _, _ => Raise TypeError
      end
  end.

(** [a - b] *)
Definition py_sub (a b : value) : outcome value :=
  match as_num a, as_num b with
  | Some x, Some y => arith Z.sub Host.fsub x y
  | _, _ =>
      match a, b with
      | HostFn _, _ | _, HostFn _ => Unmodelled
      | _, _ => Raise TypeError
      end
  end.

(** The count of a repetition [n * seq], for a sequence of [len] items.
    The host converts [n] to an index-sized integer and raises
    OverflowError when it does not fit (64 bits at most); a count that is
    not positive gives the empty sequence.  For counts and results of
    2^31 items or more the outcome depends on the width of the host's
    index (OverflowError, MemoryError or a sequence): they are not
    modelled.  Below, the sequence is repeated; the memory of the host,
    like the depth of its stack, is not part of the model. *)
Definition repeat_count (n : Z) (len : nat) : outcome nat :=
  if (n <? - 2 ^ 63)%Z || (2 ^ 63 <=? n)%Z then Raise OverflowError
  else if (n <? - 2 ^ 31)%Z || (2 ^ 31 <=? n)%Z then Unmodelled
  else if (2 ^ 31 <=? n * Z.of_nat len)%Z then Unmodelled
  else Ok (Z.to_nat n).

(** [a * b]: an integer repeats a list or a string. *)
Definition py_mul (a b : value) : outcome value :=
  match as_num a, as_num b with
  | Some x, Some y => arith Z.mul Host.fmul x y
  | Some (NInt n), None =>
      match b with
      | List l => do k <- repeat_count n (length l); Ok (List (repeat_list k l))
      | Symbol s =>
          do k <- repeat_count n (String.length s); Ok (Symbol (repeat_string k s))
      | HostFn _ => Unmodelled
      | _ => Raise TypeError
      end
  | None, Some (NInt n) =>
      match a with
      | List l => do k <- repeat_count n (length l); Ok (List (repeat_list k l))
      | Symbol s =>
          do k <- repeat_count n (String.length s); Ok (Symbol (repeat_string k s))
      | HostFn _ => Unmodelled
      | _ => Raise TypeError
      end
  | _, _ =>
      match a, b with
      | HostFn _, _ | _, HostFn _ => Unmodelled
      | _, _ => Raise TypeError
      end
  end.

(** [a / b] *)
Definition py_truediv (a b : value) : outcome value :=
  match as_num a, as_num b with
  | Some x, Some y => truediv x y
  | _, _ =>
      match a, b with
      | HostFn _, _ | _, HostFn _ => Unmodelled
      | _, _ => Raise TypeError
      end
  end.

(** Exact order between an integer and a float; [None] when unordered. *)
Definition Zfloat_compare (z : Z) (f : spec_float) : option comparison :=
  match f with
  | S754_nan => None
  | S754_infinity sg => Some (if sg then Gt else Lt)
  | S754_zero _ => Some (z ?= 0)%Z
  | S754_finite sg m e =>
      let v := if sg then Zneg m else Zpos m in
      Some (if (0 <=? e)%Z then (z ?= v * 2 ^ e)%Z else (z * 2 ^ (- e) ?= v)%Z)
  end.

Definition num_compare (a b : num) : option comparison :=
  match a, b with
  | NInt x, NInt y => Some (x ?= y)%Z
  | NInt x, NFloat g => Zfloat_compare x g
  | NFloat f, NInt y => CompOpp <$> Zfloat_compare y f
  | NFloat f, NFloat g => SFcompare f g
  end.

(** The order behind [<], [>], [<=], [>=]: numbers and strings; the order
    of two lists is not modelled. *)
Definition py_order (a b : value) : outcome (option comparison) :=
  match as_num a, as_num b with
  | Some x, Some y => Ok (num_compare x y)
  | _, _ =>
      match a, b with
      | Symbol x, Symbol y => Ok (Some (String.compare x y))
      | List _, List _ => Unmodelled
      | HostFn _, _ | _, HostFn _ => Unmodelled
      | _, _ => Raise TypeError
      end
  end.

Definition builtin_eqb (a b : builtin) : bool :=
  match a, b with
  | variadic_add, variadic_add | op_sub, op_sub | variadic_mul, variadic_mul
  | op_truediv, op_truediv | op_gt, op_gt | op_lt, op_lt | op_ge, op_ge
  | op_le, op_le | op_eq, op_eq | py_abs, py_abs | op_add, op_add
  | scheme_apply, scheme_apply | begin_, begin_ | car, car | cdr, cdr
  | cons_, cons_ | op_is, op_is | py_len, py_len | list_, list_
  | is_list, is_list | py_map, py_map | py_max, py_max | py_min, py_min
  | op_not, op_not | is_null, is_null | is_number, is_number
  | py_callable, py_callable | py_round, py_round | is_symbol, is_symbol => true
  | _, _ => false
  end.

(** [a == b]; [None] where the answer hangs on object identity, which the
    model does not track (two procedure objects, a NaN inside a list). *)
Fixpoint py_eq (a b : value) : option bool :=
  match as_num a, as_num b with
  | Some x, Some y =>
      Some (match num_compare x y with Some Eq => true | _ => false end)
  | _, _ =>
      match a, b with
      | Symbol x, Symbol y => Some (String.eqb x y)
      | NoneV, NoneV => Some true
      | Builtin x, Builtin y => Some (builtin_eqb x y)
      | Procedure _ _ _, Procedure _ _ _ => None
      | HostFn _, _ | _, HostFn _ => None
      | List la, List lb =>
          if Nat.eqb (length la) (length lb) then
            (fix go (la lb : list value) : option bool :=
               match la, lb with
               | x :: ra, y :: rb =>
                   match x, y with
                   | Float S754_nan, Float S754_nan => None
                   | _, _ =>
                       r ← py_eq x y;
                       if (r : bool) then go ra rb else Some false
                   end
               | _, _ => Some true
               end) la lb
          else Some false
      | _, _ => Some false
      end
  end.

Definition of_option {A} (o : option A) : outcome A :=
  match o with Some a => Ok a | None => Unmodelled end.

Definition compare_with (test : option comparison -> bool) (args : list value)
  : outcome value :=
  match args with
  | [a; b] => do c <- py_order a b; Ok (Bool (test c))
  | _ => Raise TypeError
  end.

(** [sum(args)] starts from the integer 0.  With a float among three
    numbers or more the host's summation is version dependent. *)
Definition py_sum (args : list value) : outcome value :=
  do r <- foldl (fun acc x => do a <- acc; py_add a x) (Ok (Int 0%Z)) args;
  match r with
  | Float _ => if Nat.leb (length args) 2 then Ok r else Unmodelled
  | _ => Ok r
  end.

(** A call of a built-in other than [apply]; a wrong number of arguments is
    a TypeError. *)
Definition builtin_call (b : builtin) (args : list value) : outcome value :=
  match b with
  | variadic_add => py_sum args
  | variadic_mul => foldl (fun acc x => do a <- acc; py_mul a x) (Ok (Int 1%Z)) args
  | op_sub => match args with [a; b] => py_sub a b | _ => Raise TypeError end
  | op_truediv => match args with [a; b] => py_truediv a b | _ => Raise TypeError end
  | op_add => match args with [a; b] => py_add a b | _ => Raise TypeError end
  | op_gt => compare_with (fun c => match c with Some Gt => true | _ => false end) args
  | op_lt => compare_with (fun c => match c with Some Lt => true | _ => false end) args
  | op_ge => compare_with (fun c => match c with Some (Gt | Eq) => true | _ => false end) args
  | op_le => compare_with (fun c => match c with Some (Lt | Eq) => true | _ => false end) args
  | op_eq => match args with [a; b] => do r <- of_option (py_eq a b); Ok (Bool r) | _ => Raise TypeError end
  | py_abs =>
      match args with
      | [a] =>
          match as_num a with
          | Some (NInt z) => Ok (Int (Z.abs z))
          | Some (NFloat f) => Ok (Float (SFabs f))
          | None => match a with HostFn _ => Unmodelled | _ => Raise TypeError end
          end
      | _ => Raise TypeError
      end
  | begin_ => match last args with Some v => Ok v | None => Raise IndexError end
  | car =>
      match args with
      | [List (v :: _)] => Ok v
      | [List []] => Raise IndexError
      | [Symbol (String c _)] => Ok (Symbol (String c EmptyString))
      | [Symbol EmptyString] => Raise IndexError
      | [HostFn _] => Unmodelled
      | _ => Raise TypeError
      end
  | cdr =>
      match args with
      | [List l] => Ok (List (tail l))
      | [Symbol (String _ r)] => Ok (Symbol r)
      | [Symbol EmptyString] => Ok (Symbol EmptyString)
      | [HostFn _] => Unmodelled
      | _ => Raise TypeError
      end
  | cons_ =>
      match args with
      | [x; List l] => Ok (List (x :: l))
      | [_; HostFn _] => Unmodelled
      | _ => Raise TypeError
      end
  | op_is => match args with [_; _] => Unmodelled | _ => Raise TypeError end
  | py_len =>
      match args with
      | [List l] => Ok (Int (Z.of_nat (length l)))
      | [Symbol s] => Ok (Int (Z.of_nat (String.length s)))
      | [HostFn _] => Unmodelled
      | _ => Raise TypeError
      end
  | list_ => Ok (List args)
  | is_list =>
      match args with
      | [List _] => Ok (Bool true)
      | [_] => Ok (Bool false)
      | _ => Raise TypeError
      end
  | op_not => match args with [a] => Ok (Bool (negb (truthy a))) | _ => Raise TypeError end
  | is_null =>
      match args with
      | [a] => do r <- of_option (py_eq a (List [])); Ok (Bool r)
      | _ => Raise TypeError
      end
  | is_number =>
      match args with
      | [a] => Ok (Bool (match as_num a with Some _ => true | None => false end))
      | _ => Raise TypeError
      end
  | py_callable => match args with [a] => Ok (Bool (callable a)) | _ => Raise TypeError end
  | is_symbol =>
      match args with
      | [Symbol _] => Ok (Bool true)
      | [_] => Ok (Bool false)
      | _ => Raise TypeError
      end
  | py_map | py_max | py_min | py_round | scheme_apply => Unmodelled
  end.

(** ** Procedures and eval *)

(** The interpreter threads the store through every step and stops at the
    first exception, with the store as it is at that point. *)
Definition res (A : Type) : Type := outcome A * store.

Definition sbind {A B} (m : res A) (k : A -> store -> res B) : res B :=
  match m with
  | (Ok a, s) => k a s
  | (Raise e, s) => (Raise e, s)
  | (OutOfFuel, s) => (OutOfFuel, s)
  | (Unmodelled, s) => (Unmodelled, s)
  end.

Notation "'run' x , s <- m ; k" := (sbind m (fun x s => k))
  (at level 10, x name, s name, m at level 100, k at level 200).

(** [case "name":] against the head of the list *)
Definition head_is (name : string) (h : value) : bool :=
  match h with Symbol s => String.eqb s name | _ => false end.

(** [[eval(exp, env) for exp in exps]], left to right *)
Fixpoint eval_each (ev : value -> store -> res value) (exps : list value)
    (s : store) : res (list value) :=
  match exps with
  | [] => (Ok [], s)
  | exp :: exps' =>
      run v, s1 <- ev exp s;
      run vs, s2 <- eval_each ev exps' s1;
      (Ok (v :: vs), s2)
  end.

(** [env[var] = val] for the environment at address [a], as [define] does
    it: a list is no dict key, a key other than a string is not modelled. *)
Definition define_var (a : nat) (var : value) (val : value) (s : store)
  : res value :=
  match var with
  | Symbol name => (Ok NoneV, alter (setitem name val) a s)
  | List _ => (Raise TypeError, s)
  | _ => (Unmodelled, s)
  end.

(** [env.find(var)[var] = val], as [set!] does it.  Only strings are ever
    keys of an environment, so another hashable key is found nowhere. *)
Definition set_var (a : nat) (var : value) (val : value) (s : store)
  : res value :=
  match var with
  | Symbol name =>
      match Env_find name a s with
      | Some b => (Ok NoneV, alter (setitem name val) b s)
      | None => (Raise NameError, s)
      end
  | List _ => (Raise TypeError, s)
  | _ => (Raise NameError, s)
  end.

(** Evaluate an expression in an environment.  [fuel] bounds the depth of
    the recursion; [call] is the call [proc( *args)]: a user-defined
    procedure runs its body in a new environment, [apply] calls again. *)
Fixpoint eval (fuel : nat) (x : value) (env : nat) (s : store) {struct fuel}
  : res value :=
  match fuel with
  | O => (OutOfFuel, s)
  | S fuel' =>
      match x with
      | Symbol var =>
          match Env_find var env s with
          | Some a => (getitem a var s, s)
          | None => (Raise NameError, s)
          end
      | List [] => (Raise IndexError, s)
      | List (h :: rest) =>
          if head_is "quote" h then
            match rest with
            | [exp] => (Ok exp, s)
            | _ => (Raise ValueError, s)
            end
          else if head_is "if" h then
            match rest with
            | [test; conseq; alt] =>
                run t, s1 <- eval fuel' test env s;
                eval fuel' (if truthy t then conseq else alt) env s1
            | _ => (Raise ValueError, s)
            end
          else if head_is "define" h then
            match rest with
            | [var; exp] =>
                run v, s1 <- eval fuel' exp env s;
                define_var env var v s1
            | _ => (Raise ValueError, s)
            end
          else if head_is "set!" h then
            match rest with
            | [var; exp] =>
                run v, s1 <- eval fuel' exp env s;
                set_var env var v s1
            | _ => (Raise ValueError, s)
            end
          else if head_is "lambda" h then
            match rest with
            | [parms; body] => (Ok (Procedure parms body env), s)
            | _ => (Raise ValueError, s)
            end
          else
            run proc, s1 <- eval fuel' h env s;
            run args, s2 <- eval_each (fun exp => eval fuel' exp env) rest s1;
            call fuel' proc args s2
      | _ => (Ok x, s)
      end
  end
with call (fuel : nat) (proc : value) (args : list value) (s : store)
    {struct fuel} : res value :=
  match fuel with
  | O => (OutOfFuel, s)
  | S fuel' =>
      match proc with
      | Procedure parms body penv =>
          match Env_init parms args (Some penv) with
          | Ok e => eval fuel' body (length s) (s ++ [e])%list
          | Raise err => (Raise err, s)
          | OutOfFuel => (OutOfFuel, s)
          | Unmodelled => (Unmodelled, s)
          end
      | Builtin scheme_apply =>
          match args with
          | [f; xs] =>
              if callable f then
                match iterate xs with
                | Ok l => call fuel' f l s
                | Raise err => (Raise err, s)
                | OutOfFuel => (OutOfFuel, s)
                | Unmodelled => (Unmodelled, s)
                end
              else (Raise TypeError, s)
          | _ => (Raise TypeError, s)
          end
      | Builtin b => (builtin_call b args, s)
      | HostFn _ => (Unmodelled, s)
      | _ => (Raise TypeError, s)
      end
  end.

(** An environment with some Scheme standard procedures.  [math_vars]
    stands for [vars(math)], the names of the host's math module; the second
    [update] wins over it. *)
Definition standard_env (math_vars : list (string * value)) : Env :=
  {| vars :=
       [ ("+", Builtin variadic_add); ("-", Builtin op_sub);
         ("*", Builtin variadic_mul); ("/", Builtin op_truediv);
         (">", Builtin op_gt); ("<", Builtin op_lt);
         (">=", Builtin op_ge); ("<=", Builtin op_le); ("=", Builtin op_eq);
         ("abs", Builtin py_abs); ("append", Builtin op_add);
         ("apply", Builtin scheme_apply); ("begin", Builtin begin_);
         ("car", Builtin car); ("cdr", Builtin cdr); ("cons", Builtin cons_);
         ("eq?", Builtin op_is); ("equal?", Builtin op_eq);
         ("length", Builtin py_len); ("list", Builtin list_);
         ("list?", Builtin is_list); ("map", Builtin py_map);
         ("max", Builtin py_max); ("min", Builtin py_min);
         ("not", Builtin op_not); ("null?", Builtin is_null);
         ("number?", Builtin is_number); ("procedure?", Builtin py_callable);
         ("round", Builtin py_round); ("symbol?", Builtin is_symbol) ]
       ++ math_vars;
     outer := None |}.

(** [global_env]: the store of a fresh interpreter holds it at address 0. *)
Definition global_env : nat := 0.
Definition initial_store (math_vars : list (string * value)) : store :=
  [standard_env math_vars].

(** ** Rendering: [str] of a float and [lispstr] *)

Module Repr.
Import Host.

Definition float_eqb (f g : spec_float) : bool :=
  match f, g with
  | S754_zero a, S754_zero b => Bool.eqb a b
  | S754_infinity a, S754_infinity b => Bool.eqb a b
  | S754_nan, S754_nan => true
  | S754_finite a m e, S754_finite b n k =>
      Bool.eqb a b && Pos.eqb m n && Z.eqb e k
  | _, _ => false
  end.

(** The exact value of the finite float [m * 2^e] as a decimal [n * 10^x]. *)
Definition exact_decimal (m : positive) (e : Z) : Z * Z :=
  if (0 <=? e)%Z then (Zpos m * 2 ^ e, 0)%Z else (Zpos m * 5 ^ (- e), e)%Z.

(** Drops the zeros at the end of a decimal. *)
Fixpoint strip_zeros (fuel : nat) (d x : Z) : Z * Z :=
  match fuel with
  | O => (d, x)
  | S fuel' =>
      if ((d mod 10 =? 0) && negb (d =? 0))%Z
      then strip_zeros fuel' (d / 10)%Z (x + 1)%Z
      else (d, x)
  end.

Fixpoint zeros (n : nat) : string :=
  match n with O => EmptyString | S n' => String "0" (zeros n') end.

Fixpoint take (n : nat) (s : string) : string :=
  match n, s with
  | S n', String c r => String c (take n' r)
  | _, _ => EmptyString
  end.

Fixpoint drop (n : nat) (s : string) : string :=
  match n, s with
  | S n', String _ r => drop n' r
  | _, _ => s
  end.

(** The host's layout of the digits [ds] with the decimal point after
    [decpt] of them: an exponent when [decpt] is below -3 or above 16. *)
Definition layout (ds : string) (decpt : Z) : string :=
  let n := Z.of_nat (String.length ds) in
  if ((decpt <=? -4) || (16 <? decpt))%Z then
    let ex := (decpt - 1)%Z in
    let mant :=
      match ds with
      | String c EmptyString => ds
      | String c r => String c (String "." r)
      | EmptyString => ds
      end in
    let exd := str_nat (Z.abs ex) in
    mant ++ "e" ++ (if (ex <? 0)%Z then "-" else "+")
         ++ (if Nat.ltb (String.length exd) 2 then "0" else "") ++ exd
  else if (decpt <=? 0)%Z then "0." ++ zeros (Z.to_nat (- decpt)) ++ ds
  else if (decpt <? n)%Z then
    take (Z.to_nat decpt) ds ++ "." ++ drop (Z.to_nat decpt) ds
  else ds ++ zeros (Z.to_nat (decpt - n)) ++ ".0".

(** The text of the decimal [d * 10^x], [0 < d], with its sign. *)
Definition decimal_text (neg : bool) (d x : Z) : string :=
  let '(d1, x1) := strip_zeros (String.length (str_nat d)) d x in
  let ds := str_nat d1 in
  (if neg then "-" else "") ++ layout ds (x1 + Z.of_nat (String.length ds)).

(** [float(t)] is [f]. *)
Definition reads_as (t : string) (f : spec_float) : bool :=
  match py_float t with
  | Some g => float_eqb g f
  | None => false
  end.

(** [str(x)] gives the shortest decimal that [float] reads back as [x]:
    with [k] digits of the exact value [n * 10^x] dropped, the decimal just
    below or the one just above (the nearer one when both do, the even one
    on a tie); failing that, one digit more, down to the exact value. *)
Fixpoint shortest_text (k : nat) (neg : bool) (n x : Z) (target : spec_float)
  : string :=
  let scale := (10 ^ Z.of_nat k)%Z in
  let lo := (n / scale)%Z in
  let r := (n mod scale)%Z in
  let x' := (x + Z.of_nat k)%Z in
  let below := decimal_text neg lo x' in
  let above := decimal_text neg (lo + 1) x' in
  let up_nearer := ((scale <? 2 * r) || ((scale =? 2 * r) && Z.odd lo))%Z in
  if (0 <? lo)%Z && reads_as below target then
    if negb (r =? 0)%Z && up_nearer && reads_as above target then above
    else below
  else if reads_as above target then above
  else
    match k with
    | O => decimal_text neg n x
    | S k' => shortest_text k' neg n x target
    end.

Definition float_str (f : spec_float) : string :=
  match f with
  | S754_nan => "nan"
  | S754_infinity sg => if sg then "-inf" else "inf"
  | S754_zero sg => if sg then "-0.0" else "0.0"
  | S754_finite sg m e =>
      let '(n, x) := exact_decimal m e in
      shortest_text (String.length (str_nat n) - 1) sg n x f
  end.

End Repr.

(** Convert a Python object back into a Lisp-readable string.  The text of
    a procedure object holds its memory address: such an object has no
    rendering in the model.  An integer is rendered by [Host.str_int]
    whatever its size (see the note on [Host.max_str_digits]). *)
Fixpoint lispstr (exp : value) : option string :=
  match exp with
  | List l =>
      parts ← (fix each (l : list value) : option (list string) :=
                 match l with
                 | [] => Some []
                 | x :: l' => t ← lispstr x; ts ← each l'; Some (t :: ts)
                 end) l;
      Some ("(" ++ String.concat " " parts ++ ")")
  | Int z => Some (Host.str_int z)
  | Float f => Some (Repr.float_str f)
  | Symbol s => Some s
  | Bool b => Some (if b then "True" else "False")
  | NoneV => Some "None"
  | Procedure _ _ _ | Builtin _ | HostFn _ => None
  end.

(** Parse a program text and evaluate it, as the test suite's [lisp_eval]
    does: [lis.eval(lis.parse(expression), env)]. *)
Definition lisp_eval (fuel : nat) (expression : string) (env : nat) (s : store)
  : res value :=
  match parse expression with
  | Ok x => eval fuel x env s
  | Raise e => (Raise e, s)
  | OutOfFuel => (OutOfFuel, s)
  | Unmodelled => (Unmodelled, s)
  end.

(** ** Notions used by the statements *)

(** [nearest s var a b]: walking outward from the environment [a], the
    first environment that binds [var] is [b]. *)
Inductive nearest (s : store) (var : string) : nat -> nat -> Prop :=
  | nearest_here a e :
      s !! a = Some e -> contains e var = true -> nearest s var a a
  | nearest_outer a e o b :
      s !! a = Some e -> contains e var = false -> outer e = Some o ->
      nearest s var o b -> nearest s var a b.

(** No environment of the chain from [a] binds [var]. *)
Definition unbound (s : store) (var : string) (a : nat) : Prop :=
  forall b, ~ nearest s var a b.

(** The outer link of an environment points to an older environment. *)
Definition wf_store (s : store) : Prop :=
  forall a e o, s !! a = Some e -> outer e = Some o -> o < a.

(** The tokens start with one complete expression: an atom, or a
    parenthesis closed later at the same depth.  [depth] counts the
    parentheses open so far. *)
Fixpoint closes (depth : nat) (tokens : list string) : bool :=
  match tokens with
  | [] => false
  | t :: r =>
      if String.eqb t "(" then closes (S depth) r
      else if String.eqb t ")" then
        match depth with
        | O => false
        | S O => true
        | S d => closes d r
        end
      else match depth with O => true | _ => closes depth r end
  end.

Definition well_parenthesized (program : string) : bool :=
  closes 0 (tokenize program).

(** A word is what [tokenize] yields besides the two parentheses: a
    text without white space and without parentheses, not empty. *)
Definition is_paren (c : ascii) : bool := Ascii.eqb c "(" || Ascii.eqb c ")".

Definition word_char (c : ascii) : bool :=
  negb (Host.is_space c) && negb (is_paren c).

Fixpoint all_chars (P : ascii -> bool) (s : string) : bool :=
  match s with
  | EmptyString => true
  | String c r => P c && all_chars P r
  end.

Definition is_word (t : string) : bool :=
  negb (String.eqb t "") && all_chars word_char t.

(** [tokenize] in one pass over the text: [w] is the word being read. *)
Fixpoint scan (w : string) (s : string) : list string :=
  match s with
  | EmptyString => Host.flush w
  | String c r =>
      if is_paren c then (Host.flush w ++ String c EmptyString :: scan EmptyString r)%list
      else if Host.is_space c then (Host.flush w ++ scan EmptyString r)%list
      else scan (w ++ String c EmptyString) r
  end.


(** The tokens of the rendering of an expression. *)
Fixpoint tokens_of (x : value) : list string :=
  match x with
  | List l =>
      ("(" :: (fix each (l : list value) : list string :=
                 match l with
                 | [] => []
                 | y :: l' => tokens_of y ++ each l'
                 end) l ++ [")"])%list
  | Int z => [Host.str_int z]
  | Float f => [Repr.float_str f]
  | Symbol t => [t]
  | _ => []
  end.

(** The float [f] is rendered as a word that [atom] reads back as [f]. *)
Definition float_reads_back (f : spec_float) : bool :=
  is_word (Repr.float_str f)
  && match atom (Repr.float_str f) with
     | Float g => Repr.float_eqb g f
     | _ => false
     end.

(** An expression as [parse] builds them: integers, floats (with the
    property [F]), symbols that are words which [atom] keeps as symbols,
    and lists of such. *)
#[warnings="-register-all"] Inductive parsed_with (F : spec_float -> Prop) : value -> Prop :=
  | parsed_int z : parsed_with F (Int z)
  | parsed_float f : F f -> parsed_with F (Float f)
  | parsed_symbol t :
      is_word t = true -> atom t = Symbol t -> parsed_with F (Symbol t)
  | parsed_list l : Forall (parsed_with F) l -> parsed_with F (List l).

(** ... whose floats are read by [float] from some word, *)
Definition float_of_word (f : spec_float) : Prop :=
  exists t, is_word t = true /\ Host.py_float t = Some f.

(** ... whose floats are rendered as words that read back as the same. *)
Definition parsed : value -> Prop :=
  parsed_with (fun f => float_reads_back f = true).

(** The integer [z] is written with [Host.max_str_digits] digits at most:
    these are the integers that the host's [str] and [int] convert. *)
Definition within_digit_limit (z : Z) : bool :=
  Nat.leb (String.length (Host.str_nat (Z.abs z))) Host.max_str_digits.

(** Every integer inside the expression [x] is within that limit. *)
Fixpoint small_integers (x : value) : bool :=
  match x with
  | Int z => within_digit_limit z
  | List l =>
      (fix each (l : list value) : bool :=
         match l with
         | [] => true
         | y :: r => small_integers y && each r
         end) l
  | _ => true
  end.

(** The rendering of the outcome of [parse]. *)
Definition render (o : outcome value) : option string :=
  match o with Ok x => lispstr x | _ => None end.

(** The text after a rendered expression: nothing, white space or a
    parenthesis. *)
Definition boundary (r : string) : bool :=
  match r with
  | EmptyString => true
  | String c _ => Host.is_space c || is_paren c
  end.

Definition tokenlike (t : string) : Prop :=
  t = "(" \/ t = ")" \/ is_word t = true.

(** The exponent of the last place of a binary64 number of [z] binary
    digits (before the point): [fexp] at precision 53. *)
Definition fexp64 (z : Z) : Z := Z.max (z - 53) (-1074).

(** The number that a run of digits denotes, after the digits of [a]. *)
Fixpoint val_from (a : Z) (s : string) : Z :=
  match s with
  | EmptyString => a
  | String c r => val_from (10 * a + Host.digit_val c)%Z r
  end.

Fixpoint any_char (P : ascii -> bool) (s : string) : bool :=
  match s with
  | EmptyString => false
  | String c r => P c || any_char P r
  end.

(** The characters of the text of a float: digits, point, exponent mark
    and signs; and the ones among them that no integer text has. *)
Definition float_char (c : ascii) : bool :=
  Host.is_digit c || Ascii.eqb c "." || Ascii.eqb c "e"
  || Ascii.eqb c "+" || Ascii.eqb c "-".

Definition not_int_char (c : ascii) : bool :=
  negb (Host.is_digit c) && negb (Ascii.eqb c "_").

(** Text that does not start with a digit. *)
Definition no_digit_ahead (r : string) : bool :=
  match r with
  | EmptyString => true
  | String c _ => negb (Host.is_digit c)
  end.

(** The decimal [M * 10^X] and the binary [m * 2^e] are the same number. *)
Definition same_number (M X m e : Z) : Prop :=
  (M * 10 ^ Z.max X 0 * 2 ^ Z.max (- e) 0
   = m * 2 ^ Z.max e 0 * 10 ^ Z.max (- X) 0)%Z.

(** A boolean check of [wf_store]. *)
Definition wf_check (s : store) : bool :=
  forallb (fun '(a, e) =>
             match outer e with Some o => Nat.ltb o a | None => true end)
          (imap (fun a e => (a, e)) s).

(** Every procedure object inside [v] closes over an environment that the
    store holds already: its address is below [n]. *)
Fixpoint closed (n : nat) (v : value) : Prop :=
  match v with
  | List l =>
      (fix each (l : list value) : Prop :=
         match l with
         | [] => True
         | x :: r => closed n x /\ each r
         end) l
  | Procedure parms body env => env < n /\ closed n parms /\ closed n body
  | _ => True
  end.

Definition closed_env (n : nat) (e : Env) : Prop :=
  Forall (fun kv => closed n (snd kv)) (vars e).

(** The stores the interpreter works on: outer links point to older
    environments, and so do the procedures bound in them. *)
Definition store_ok (s : store) : Prop :=
  wf_store s /\ Forall (closed_env (length s)) s.

(** A step from the store [s] to the store [s'] with the outcome [r] keeps
    the store in order: no environment is dropped, and a value that comes
    out refers to environments of [s'] only. *)
Definition keeps {A} (ok : nat -> A -> Prop) (s : store) (r : outcome A)
    (s' : store) : Prop :=
  store_ok s' /\ length s <= length s' /\
  forall v, r = Ok v -> ok (length s') v.

(** The special forms, and the number of parts each expects after its
    name. *)
Definition form_arity (name : string) : option nat :=
  if String.eqb name "quote" then Some 1
  else if String.eqb name "if" then Some 3
  else if String.eqb name "define" then Some 2
  else if String.eqb name "set!" then Some 2
  else if String.eqb name "lambda" then Some 2
  else None.

(** The empty environment and the values of the numeric examples. *)
Definition empty_env : Env := {| vars := []; outer := None |}.
Definition five : spec_float := S754_finite false 5629499534213120 (-50).

(** A global environment binding [x] to [val], and the environment of a
    call made from it, which binds nothing. *)
Definition two_scopes (val : value) : store :=
  [ {| vars := [("x", val)]; outer := None |};
    {| vars := []; outer := Some 0 |} ].

(** The store [s'] holds every environment of [s], with the same outer
    link and with every name that it bound in [s] still bound. *)
Definition grows (s s' : store) : Prop :=
  forall a e, s !! a = Some e ->
    exists e', s' !! a = Some e' /\ outer e' = outer e /\
      forall var, contains e var = true -> contains e' var = true.

(** The environments below the address [n] are the same in [s'] as in
    [s], up to the values that they hold: each has the same outer link
    and binds exactly the same names. *)
Definition same_names (n : nat) (s s' : store) : Prop :=
  forall a e, a < n -> s !! a = Some e ->
    exists e', s' !! a = Some e' /\ outer e' = outer e /\
      forall var, contains e' var = contains e var.

(** The procedure of the scoping example, [(lambda (x) ( * x 2))] made in
    the global environment; the global environment that binds it to [f]
    and binds [x] to [val]; and the environment of the call [(f a)]. *)
Definition double_proc : value :=
  Procedure (List [Symbol "x"]) (List [Symbol "*"; Symbol "x"; Int 2]) global_env.

Definition double_global (math_vars : list (string * value)) (val : value) : Env :=
  setitem "f" double_proc (setitem "x" val (standard_env math_vars)).

Definition double_frame (a : Z) : Env :=
  {| vars := [("x", Int a)]; outer := Some global_env |}.

(** The built-in procedures that take exactly two arguments, and those
    that take exactly one. *)
Definition binary_builtins : list builtin :=
  [op_sub; op_truediv; op_gt; op_lt; op_ge; op_le; op_eq; op_add; cons_; op_is].

Definition unary_builtins : list builtin :=
  [py_abs; car; cdr; py_len; is_list; op_not; is_null; is_number;
   py_callable; is_symbol].

(** The factorial program of the demonstration script, the procedure
    that it defines, and the factorial itself. *)
Definition factorial_program : string :=
  "(define factorial (lambda (n) (if (<= n 1) 1 (* n (factorial (- n 1))))))".

Definition factorial_body : value :=
  List [Symbol "if"; List [Symbol "<="; Symbol "n"; Int 1]; Int 1;
        List [Symbol "*"; Symbol "n";
              List [Symbol "factorial"; List [Symbol "-"; Symbol "n"; Int 1]]]].

Definition factorial_proc : value :=
  Procedure (List [Symbol "n"]) factorial_body global_env.

Fixpoint factorial (n : nat) : Z :=
  match n with
  | O => 1%Z
  | S m => (Z.of_nat n * factorial m)%Z
  end.

(** The environment of the call [(factorial k)], and the environments
    that the call [(factorial n)] and the calls inside it add to the
    store, in the order of their creation. *)
Definition factorial_frame (k : nat) : Env :=
  {| vars := [("n", Int (Z.of_nat k))]; outer := Some global_env |}.

Fixpoint factorial_frames (n : nat) : list Env :=
  match n with
  | O => [factorial_frame 0]
  | S m =>
      factorial_frame n ::
      match m with O => [] | S _ => factorial_frames m end
  end.

(** The store during a call of [factorial]: the global environment [g] at
    address 0, and the environment of the call at the address [a]. *)
Definition in_call (g : Env) (k : nat) (a : nat) (s : store) : Prop :=
  s !! 0 = Some g /\ s !! a = Some (factorial_frame k) /\ a <> 0.

(** * Properties *)

Arguments String.eqb : simpl never.
Local Open Scope list_scope.

(** ** Truth values *)

(** C1 (as stated, refuted): [(if 0 1 2)] evaluates to 2, not to 1, and so
    does [(if (quote ()) 1 2)]: zero and the empty list are false for the
    host. *)
Lemma if_zero_takes_alternate :
  lisp_eval 2 "(if 0 1 2)" 0 [empty_env] = (Ok (Int 2), [empty_env]) /\
  lisp_eval 2 "(if (quote ()) 1 2)" 0 [empty_env] = (Ok (Int 2), [empty_env]) /\
  fst (lisp_eval 2 "(if 0 1 2)" 0 [empty_env]) <> Ok (Int 1).
Proof. repeat split; vm_compute; congruence. Qed.

(** C1 (amended): an if-expression takes the host's truth value of the
    value of its test; it does not compare it with the boolean false.
    For the values that programs are made of and compute with, the
    alternate branch is taken when the test gives the boolean false,
    None, a numeric zero (integer or float), the empty string or the
    empty list, and the consequent when it gives the boolean true, a
    number other than zero, a string or a list that is not empty, or a
    procedure.  Hence, in every environment, [(if 0 1 2)] and [(if (quote
    ()) 1 2)] evaluate to 2, and so does an explicit false test.  (A host
    object of another kind, such as the tuple that a function of the math
    module returns, is tested by the host in the same way; nothing is
    stated about it here.) *)
Theorem if_follows_host_truth :
  (forall fuel test conseq alt env s,
      eval (S fuel) (List [Symbol "if"; test; conseq; alt]) env s =
      run t, s1 <- eval fuel test env s;
      eval fuel (if truthy t then conseq else alt) env s1) /\
  (forall fuel test conseq alt env s t s1,
      eval fuel test env s = (Ok t, s1) ->
      eval (S fuel) (List [Symbol "if"; test; conseq; alt]) env s
      = eval fuel (if truthy t then conseq else alt) env s1) /\
  (truthy (Bool false) = false /\ truthy NoneV = false /\
   truthy (Int 0) = false /\
   (forall sg, truthy (Float (S754_zero sg)) = false) /\
   truthy (Symbol "") = false /\ truthy (List []) = false) /\
  (truthy (Bool true) = true /\
   (forall z, z <> 0%Z -> truthy (Int z) = true) /\
   (forall f, is_zero f = false -> truthy (Float f) = true) /\
   (forall t, t <> "" -> truthy (Symbol t) = true) /\
   (forall x l, truthy (List (x :: l)) = true) /\
   (forall v, callable v = true -> truthy v = true)) /\
  (forall fuel env s,
      lisp_eval (2 + fuel) "(if 0 1 2)" env s = (Ok (Int 2), s) /\
      lisp_eval (2 + fuel) "(if (quote ()) 1 2)" env s = (Ok (Int 2), s) /\
      eval (2 + fuel) (List [Symbol "if"; Bool false; Int 1; Int 2]) env s
        = (Ok (Int 2), s) /\
      eval (2 + fuel) (List [Symbol "if"; Bool true; Int 1; Int 2]) env s
        = (Ok (Int 1), s)).
Proof.
  split; [reflexivity |].
  split; [intros fuel test conseq alt env s t s1 E; cbn [eval];
          change (head_is "quote" (Symbol "if")) with false;
          change (head_is "if" (Symbol "if")) with true; cbv iota;
          rewrite E; reflexivity |].
  split; [repeat split; reflexivity |].
  split.
  - split; [reflexivity |]. split; [| split; [| split; [| split]]].
    + intros z Hz. cbn [truthy]. apply negb_true_iff, Z.eqb_neq, Hz.
    + intros f Hf. destruct f; try reflexivity. discriminate Hf.
    + intros t Ht. cbn [truthy]. apply negb_true_iff, String.eqb_neq, Ht.
    + reflexivity.
    + intros v Hv. destruct v; try discriminate Hv; reflexivity.
  - intros fuel env s. repeat split; reflexivity.
Qed.

Lemma if_follows_host_truth_witness :
  eval 1 (Int 7) 0 [empty_env] = (Ok (Int 7), [empty_env]) /\
  eval 2 (List [Symbol "if"; Int 7; Int 1; Int 2]) 0 [empty_env]
    = (Ok (Int 1), [empty_env]) /\
  truthy (Int 7) = true /\
  truthy (Builtin car) = true.
Proof.
  destruct if_follows_host_truth as (_ & H2 & _ & (_ & H41 & _ & _ & _ & H45) & _).
  split; [reflexivity |].
  split; [exact (H2 1 (Int 7) (Int 1) (Int 2) 0 [empty_env] (Int 7) [empty_env]
                    eq_refl) |].
  split; [apply H41; lia | apply H45; reflexivity].
Defined.

(** ** Procedure calls *)

(** C2 (as stated, refuted): a one-parameter procedure called with two
    arguments returns normally. *)
Lemma extra_argument_is_dropped :
  fst (lisp_eval 3 "((lambda (x) x) 1 2)" 0 [empty_env]) = Ok (Int 1).
Proof. vm_compute. reflexivity. Qed.

(** C2 (amended): calling a procedure of one formal parameter with two
    arguments raises no arity error: [zip] pairs the parameter with the
    first argument and drops the second, and the body is evaluated in the
    new environment made of that one binding. *)
Theorem one_parameter_two_arguments :
  forall fuel p body penv a1 a2 s,
    call (S fuel) (Procedure (List [Symbol p]) body penv) [a1; a2] s =
    eval fuel body (length s)
         (s ++ [{| vars := [(p, a1)]; outer := Some penv |}]).
Proof. reflexivity. Qed.

(** ** Errors in the right-hand side of define and set! *)

(** C3 (as stated, refuted): [(define x (if (define x 7) y y))] fails with
    NameError in an environment that binds neither name, yet it leaves [x]
    bound: what the right-hand side did before it failed stays. *)
Lemma failed_define_leaves_binding :
  Env_find "x" 0 [empty_env] = None /\
  lisp_eval 4 "(define x (if (define x 7) y y))" 0 [empty_env]
    = (Raise NameError, [{| vars := [("x", Int 7)]; outer := None |}]) /\
  lisp_eval 1 "x" 0 [{| vars := [("x", Int 7)]; outer := None |}]
    = (Ok (Int 7), [{| vars := [("x", Int 7)]; outer := None |}]).
Proof. repeat split; vm_compute; reflexivity. Qed.

(** C3 (amended): when the evaluation of EXPR raises an error, [(define
    NAME EXPR)] and [(set! NAME EXPR)] raise that error and bind nothing
    themselves: the store is left exactly as the evaluation of EXPR left
    it. *)
Theorem failed_rhs_binds_nothing :
  forall fuel var exp env s err s1,
    eval fuel exp env s = (Raise err, s1) ->
    eval (S fuel) (List [Symbol "define"; var; exp]) env s = (Raise err, s1) /\
    eval (S fuel) (List [Symbol "set!"; var; exp]) env s = (Raise err, s1).
Proof.
  intros fuel var exp env s err s1 H. simpl. rewrite H. split; reflexivity.
Qed.

Lemma failed_rhs_binds_nothing_witness :
  eval 1 (Symbol "y") 0 [empty_env] = (Raise NameError, [empty_env]) /\
  eval 2 (List [Symbol "define"; Symbol "x"; Symbol "y"]) 0 [empty_env]
    = (Raise NameError, [empty_env]) /\
  eval 2 (List [Symbol "set!"; Symbol "x"; Symbol "y"]) 0 [empty_env]
    = (Raise NameError, [empty_env]).
Proof.
  split; [reflexivity |].
  apply (failed_rhs_binds_nothing 1 (Symbol "x") (Symbol "y") 0 [empty_env]
           NameError [empty_env]).
  reflexivity.
Defined.

(** ** The atom classifier *)

(** C8: [atom] tries the integer reading first, then the floating-point
    reading, and otherwise keeps the token verbatim as a symbol.  The token
    ["5"] can be read both ways and is classified as the integer 5, not as
    the float 5.0, which is what ["5.0"] gives. *)
Theorem atom_integer_first :
  (forall token,
      atom token =
      match Host.py_int token with
      | Some z => Int z
      | None =>
          match Host.py_float token with
          | Some f => Float f
          | None => Symbol token
          end
      end) /\
  (forall token z, Host.py_int token = Some z -> atom token = Int z) /\
  (forall token f,
      Host.py_int token = None -> Host.py_float token = Some f ->
      atom token = Float f) /\
  (forall token,
      Host.py_int token = None -> Host.py_float token = None ->
      atom token = Symbol token) /\
  atom "5" = Int 5 /\ Host.py_float "5" = Some five /\
  atom "5" <> Float five /\ atom "5.0" = Float five /\
  atom "hello" = Symbol "hello".
Proof.
  split; [reflexivity |].
  split; [intros token z H; unfold atom; rewrite H; reflexivity |].
  split; [intros token f H1 H2; unfold atom; rewrite H1, H2; reflexivity |].
  split; [intros token H1 H2; unfold atom; rewrite H1, H2; reflexivity |].
  repeat split; vm_compute; congruence.
Qed.

Lemma atom_integer_first_witness :
  Host.py_int "5" = Some 5%Z /\ atom "5" = Int 5 /\
  Host.py_int "2.5" = None /\ Host.py_int "abc" = None /\
  Host.py_float "abc" = None /\ atom "abc" = Symbol "abc".
Proof.
  destruct atom_integer_first as (_ & Hint & _ & Hsym & _).
  assert (H5 : Host.py_int "5" = Some 5%Z) by reflexivity.
  assert (Hi : Host.py_int "abc" = None) by reflexivity.
  assert (Hf : Host.py_float "abc" = None) by reflexivity.
  split; [exact H5 |].
  split; [exact (Hint "5" 5%Z H5) |].
  split; [reflexivity |].
  split; [exact Hi |].
  split; [exact Hf |].
  exact (Hsym "abc" Hi Hf).
Defined.

(** The white space around a numeral: [atom] reads a numeral between
    spaces, but not one next to a separator of the range 28..31. *)
Example atom_white_space :
  atom " 5 " = Int 5 /\
  atom (String (ascii_of_nat 160) "5") = Int 5 /\
  atom (String (ascii_of_nat 28) "5") = Symbol (String (ascii_of_nat 28) "5").
Proof. repeat split; reflexivity. Qed.

(** ** Arithmetic in the standard environment *)

Lemma sum_of_integers (zs : list Z) (a : Z) :
  foldl (fun acc x => do v <- acc; py_add v x) (Ok (Int a)) (map Int zs)
  = Ok (Int (a + foldr Z.add 0%Z zs)).
Proof.
  revert a. induction zs as [|z zs IH]; intros a; cbn [foldl map foldr].
  - f_equal. f_equal. lia.
  - change (do v <- Ok (Int a); py_add v (Int z)) with (Ok (Int (a + z))).
    rewrite IH. f_equal. f_equal. lia.
Qed.

(** Variadic addition: any number of integers are summed exactly. *)
Lemma variadic_add_integers (zs : list Z) :
  builtin_call variadic_add (map Int zs) = Ok (Int (foldr Z.add 0%Z zs)).
Proof.
  unfold builtin_call, py_sum. rewrite sum_of_integers. reflexivity.
Qed.

(** C9: in the standard environment [(+ 2 3 4)] evaluates to the integer
    9, [( * 5 6)] to the integer 30 and [(/ 15 3)] to the float 5.0 (the
    number that ["5.0"] denotes and that prints as ["5.0"]).  Addition sums
    any number of integers exactly; the quotient of two integers is never
    an integer. *)
Theorem standard_arithmetic :
  forall math_vars fuel,
    let s := initial_store math_vars in
    lisp_eval (3 + fuel) "(+ 2 3 4)" global_env s = (Ok (Int 9), s) /\
    lisp_eval (3 + fuel) "(* 5 6)" global_env s = (Ok (Int 30), s) /\
    lisp_eval (3 + fuel) "(/ 15 3)" global_env s = (Ok (Float five), s) /\
    Host.py_float "5.0" = Some five /\ Repr.float_str five = "5.0" /\
    (forall zs,
        builtin_call variadic_add (map Int zs) = Ok (Int (foldr Z.add 0%Z zs))) /\
    (forall x y,
        match py_truediv (Int x) (Int y) with
        | Ok (Float _) | Raise ZeroDivisionError | Raise OverflowError => True
        | _ => False
        end).
Proof.
  intros math_vars fuel s. subst s.
  split; [vm_compute; reflexivity |].
  split; [vm_compute; reflexivity |].
  split; [vm_compute; reflexivity |].
  split; [vm_compute; reflexivity |].
  split; [vm_compute; reflexivity |].
  split; [exact variadic_add_integers |].
  intros x y. unfold py_truediv, as_num, truediv.
  destruct (y =? 0)%Z; [exact I |].
  destruct (Host.float_of_ratio _ _ _); exact I.
Qed.

(** ** Special forms *)

(** C10: a list whose first element is one of the symbols quote, if,
    define, set!, lambda is evaluated by the rule of that special form in
    every store, whatever the store binds the symbol to: the rule never
    looks the symbol up and never calls anything.  With the wrong number
    of parts the form fails in its unpacking (ValueError) and is still not
    an application.  Binding the five names to procedures, by hand or by
    [define], changes nothing. *)
Theorem special_forms_take_precedence :
  (forall fuel env s,
      (forall exp,
          eval (S fuel) (List [Symbol "quote"; exp]) env s = (Ok exp, s)) /\
      (forall test conseq alt,
          eval (S fuel) (List [Symbol "if"; test; conseq; alt]) env s =
          run t, s1 <- eval fuel test env s;
          eval fuel (if truthy t then conseq else alt) env s1) /\
      (forall var exp,
          eval (S fuel) (List [Symbol "define"; var; exp]) env s =
          run v, s1 <- eval fuel exp env s; define_var env var v s1) /\
      (forall var exp,
          eval (S fuel) (List [Symbol "set!"; var; exp]) env s =
          run v, s1 <- eval fuel exp env s; set_var env var v s1) /\
      (forall parms body,
          eval (S fuel) (List [Symbol "lambda"; parms; body]) env s =
          (Ok (Procedure parms body env), s)) /\
      (forall name n rest,
          form_arity name = Some n -> length rest <> n ->
          eval (S fuel) (List (Symbol name :: rest)) env s
          = (Raise ValueError, s))) /\
  (let shadowed :=
     [{| vars := [("quote", Builtin car); ("if", Builtin list_);
                  ("define", Builtin list_); ("set!", Builtin list_);
                  ("lambda", Builtin list_)];
         outer := None |}] in
   fst (lisp_eval 3 "(quote (1 2))" 0 shadowed) = Ok (List [Int 1; Int 2]) /\
   fst (lisp_eval 3 "(if 1 2 3)" 0 shadowed) = Ok (Int 2) /\
   fst (lisp_eval 3 "(define x 1)" 0 shadowed) = Ok NoneV /\
   fst (lisp_eval 3 "(set! if 1)" 0 shadowed) = Ok NoneV /\
   fst (lisp_eval 3 "(lambda (x) x)" 0 shadowed)
     = Ok (Procedure (List [Symbol "x"]) (Symbol "x") 0) /\
   fst (lisp_eval 3 "(list 1 2 3)" 0
          [{| vars := [("list", Builtin list_)]; outer := None |}])
     = Ok (List [Int 1; Int 2; Int 3])) /\
  (forall s1,
      lisp_eval 2 "(define if 5)" 0 [empty_env] = (Ok NoneV, s1) ->
      lisp_eval 2 "(if 1 2 3)" 0 s1 = (Ok (Int 2), s1) /\
      lisp_eval 2 "if" 0 s1 = (Ok (Int 5), s1)).
Proof.
  split; [| split].
  - intros fuel env s. repeat split; try reflexivity.
    intros name n rest Hn Hlen. unfold form_arity in Hn.
    destruct (String.eqb_spec name "quote") as [-> | _].
    { injection Hn as <-. destruct rest as [|? [|? ?]]; simpl in *;
        try reflexivity; lia. }
    destruct (String.eqb_spec name "if") as [-> | _].
    { injection Hn as <-. destruct rest as [|? [|? [|? [|? ?]]]]; simpl in *;
        try reflexivity; lia. }
    destruct (String.eqb_spec name "define") as [-> | _].
    { injection Hn as <-. destruct rest as [|? [|? [|? ?]]]; simpl in *;
        try reflexivity; lia. }
    destruct (String.eqb_spec name "set!") as [-> | _].
    { injection Hn as <-. destruct rest as [|? [|? [|? ?]]]; simpl in *;
        try reflexivity; lia. }
    destruct (String.eqb_spec name "lambda") as [-> | _].
    { injection Hn as <-. destruct rest as [|? [|? [|? ?]]]; simpl in *;
        try reflexivity; lia. }
    discriminate.
  - repeat split; vm_compute; reflexivity.
  - intros s1 H. vm_compute in H. injection H as <-.
    split; vm_compute; reflexivity.
Qed.

Lemma special_forms_take_precedence_witness :
  form_arity "quote" = Some 1 /\ length [Int 1; Int 2] <> 1 /\
  eval 1 (List [Symbol "quote"; Int 1; Int 2]) 0 [empty_env]
    = (Raise ValueError, [empty_env]) /\
  lisp_eval 2 "(if 1 2 3)" 0 [{| vars := [("if", Int 5)]; outer := None |}]
    = (Ok (Int 2), [{| vars := [("if", Int 5)]; outer := None |}]).
Proof.
  destruct special_forms_take_precedence as (Hrules & _ & Hdef).
  destruct (Hrules 0 0 [empty_env]) as (_ & _ & _ & _ & _ & Harity).
  assert (Hq : form_arity "quote" = Some 1) by reflexivity.
  assert (Hl : length [Int 1; Int 2] <> 1) by (simpl; lia).
  split; [exact Hq |]. split; [exact Hl |].
  split; [exact (Harity "quote" 1 [Int 1; Int 2] Hq Hl) |].
  exact (proj1 (Hdef _ eq_refl)).
Defined.

(** ** Environment chains and set! *)

Lemma wf_check_sound (s : store) : wf_check s = true -> wf_store s.
Proof.
  unfold wf_check, wf_store. intros H a e o Ha Ho.
  rewrite forallb_forall in H.
  specialize (H (a, e)). simpl in H. rewrite Ho in H.
  apply Nat.ltb_lt, H. apply list_elem_of_In.
  apply list_elem_of_lookup. exists a.
  rewrite list_lookup_imap, Ha. reflexivity.
Qed.

Lemma find_from_sound (k : nat) (var : string) (a b : nat) (s : store) :
  find_from k var a s = Some b -> nearest s var a b.
Proof.
  revert a. induction k as [|k IH]; intros a; simpl; [discriminate |].
  destruct (s !! a) as [e|] eqn:Ha; [| discriminate].
  destruct (contains e var) eqn:Hc.
  - intros [= <-]. eapply nearest_here; eauto.
  - destruct (outer e) as [o|] eqn:Ho; [| discriminate].
    intros H. eapply nearest_outer; eauto.
Qed.

Lemma find_from_complete (s : store) (var : string) (a b : nat) :
  wf_store s -> nearest s var a b ->
  forall k, a < k -> find_from k var a s = Some b.
Proof.
  intros Hwf H. induction H as [a e Ha Hc | a e o b Ha Hc Ho Hn IH];
    intros k Hk; (destruct k as [|k]; [lia |]); simpl; rewrite Ha, Hc.
  - reflexivity.
  - rewrite Ho. apply IH. specialize (Hwf a e o Ha Ho). lia.
Qed.

Lemma nearest_Env_find (s : store) (var : string) (a b : nat) :
  wf_store s -> nearest s var a b -> Env_find var a s = Some b.
Proof.
  intros Hwf H. apply find_from_complete; auto.
  inversion H; subst; eapply lookup_lt_Some; eauto.
Qed.

Lemma unbound_Env_find (s : store) (var : string) (a : nat) :
  unbound s var a -> Env_find var a s = None.
Proof.
  intros H. destruct (Env_find var a s) as [b|] eqn:E; [| reflexivity].
  exfalso. exact (H b (find_from_sound _ _ _ _ _ E)).
Qed.

Lemma nearest_binds (s : store) (var : string) (a b : nat) :
  nearest s var a b -> exists e, s !! b = Some e /\ contains e var = true.
Proof. induction 1; eauto. Qed.

Lemma contains_setitem (e : Env) (var : string) (v : value) :
  contains (setitem var v e) var = true.
Proof. unfold contains, setitem. simpl. rewrite String.eqb_refl. reflexivity. Qed.

Lemma wf_store_alter (s : store) (f : Env -> Env) (b : nat) :
  (forall e, outer (f e) = outer e) -> wf_store s -> wf_store (alter f b s).
Proof.
  intros Hf Hwf a e o Ha Ho.
  destruct (decide (a = b)) as [-> | Hne].
  - rewrite list_lookup_alter_eq in Ha.
    destruct (s !! b) as [e0|] eqn:Hb; simpl in Ha; [| discriminate].
    injection Ha as <-. rewrite Hf in Ho. eauto.
  - rewrite list_lookup_alter_ne in Ha by congruence. eauto.
Qed.

Lemma nearest_after_set (s : store) (var : string) (v : value) (a b : nat) :
  nearest s var a b -> nearest (alter (setitem var v) b s) var a b.
Proof.
  intros H. pose proof (nearest_binds _ _ _ _ H) as (eb & Hb & _).
  induction H as [a e Ha Hc | a e o b Ha Hc Ho Hn IH].
  - eapply nearest_here.
    + rewrite list_lookup_alter_eq, Ha. reflexivity.
    + apply contains_setitem.
  - destruct (decide (a = b)) as [-> | Hne].
    + eapply nearest_here.
      * rewrite list_lookup_alter_eq, Ha. reflexivity.
      * apply contains_setitem.
    + eapply nearest_outer; eauto.
      rewrite list_lookup_alter_ne by congruence. exact Ha.
Qed.

Lemma getitem_after_set (s : store) (var : string) (v : value) (b : nat) (e : Env) :
  s !! b = Some e -> getitem b var (alter (setitem var v) b s) = Ok v.
Proof.
  intros Hb. unfold getitem. rewrite list_lookup_alter_eq, Hb. simpl.
  rewrite String.eqb_refl. reflexivity.
Qed.

(** [set!] in a store whose outer links are in order, once EXPR has been
    evaluated. *)
Lemma set_var_nearest :
  forall fuel name exp env s v s1,
    eval fuel exp env s = (Ok v, s1) ->
    wf_store s1 ->
    (forall b, nearest s1 name env b ->
       let s2 := alter (setitem name v) b s1 in
       eval (S fuel) (List [Symbol "set!"; Symbol name; exp]) env s
         = (Ok NoneV, s2) /\
       (forall a, a <> b -> s2 !! a = s1 !! a) /\
       (forall o k, nearest s1 name o b ->
          eval (S k) (Symbol name) o s2 = (Ok v, s2))) /\
    (unbound s1 name env ->
       eval (S fuel) (List [Symbol "set!"; Symbol name; exp]) env s
         = (Raise NameError, s1)).
Proof.
  intros fuel name exp env s v s1 Hexp Hwf. split.
  - intros b Hn s2. split; [| split].
    + simpl. rewrite Hexp. simpl.
      rewrite (nearest_Env_find _ _ _ _ Hwf Hn). reflexivity.
    + intros a Hne. subst s2. apply list_lookup_alter_ne. congruence.
    + intros o k Ho. simpl.
      assert (Hwf2 : wf_store s2).
      { apply wf_store_alter; auto. }
      rewrite (nearest_Env_find s2 name o b Hwf2 (nearest_after_set _ _ v _ _ Ho)).
      destruct (nearest_binds _ _ _ _ Hn) as (e & Hb & _).
      subst s2. rewrite (getitem_after_set _ _ _ _ _ Hb). reflexivity.
  - intros Hu. simpl. rewrite Hexp. simpl.
    rewrite (unbound_Env_find _ _ _ Hu). reflexivity.
Qed.

(** ** The stores that evaluation reaches *)

Lemma value_ind' (P : value -> Prop) :
  (forall z, P (Int z)) -> (forall f, P (Float f)) ->
  (forall t, P (Symbol t)) -> (forall l, Forall P l -> P (List l)) ->
  (forall b, P (Bool b)) -> P NoneV ->
  (forall p b e, P p -> P b -> P (Procedure p b e)) ->
  (forall b, P (Builtin b)) -> (forall n, P (HostFn n)) ->
  forall v, P v.
Proof.
  intros Hi Hf Hs Hl Hb Hn Hp Hbi Hh. fix IH 1.
  intros [z|f|t|l|b| |p b e|b|n].
  - apply Hi.
  - apply Hf.
  - apply Hs.
  - apply Hl. induction l as [|x l IHl]; constructor; [apply IH | exact IHl].
  - apply Hb.
  - apply Hn.
  - apply Hp; apply IH.
  - apply Hbi.
  - apply Hh.
Qed.

Lemma closed_List (n : nat) (l : list value) :
  closed n (List l) <-> Forall (closed n) l.
Proof.
  induction l as [|x l IH].
  - split; [constructor | constructor].
  - split.
    + intros [Hx Hl]. constructor; [exact Hx | apply IH, Hl].
    + intros H. inversion H as [|? ? Hx Hl]; subst.
      split; [exact Hx | apply IH, Hl].
Qed.

Lemma closed_mono (n m : nat) (v : value) :
  n <= m -> closed n v -> closed m v.
Proof.
  intros Hle. induction v as [| | |l IH| | |p b e IHp IHb| |] using value_ind';
    try (intros; exact I).
  - rewrite !closed_List. intros H.
    induction H as [|x l Hx Hl IHl]; [constructor |].
    inversion IH as [|? ? IHx IHr]; subst. constructor; auto.
  - intros (He & Hp & Hb). split; [lia |]. split; auto.
Qed.

Lemma closed_env_mono (n m : nat) (e : Env) :
  n <= m -> closed_env n e -> closed_env m e.
Proof.
  intros Hle H. unfold closed_env in *. eapply Forall_impl; [exact H |].
  intros kv. apply closed_mono, Hle.
Qed.

Lemma keeps_refl {A} (ok : nat -> A -> Prop) (s : store) (r : outcome A) :
  store_ok s -> (forall v, r = Ok v -> ok (length s) v) -> keeps ok s r s.
Proof. intros Hs Hr. split; [exact Hs |]. split; [lia | exact Hr]. Qed.

Lemma keeps_fail {A} (ok : nat -> A -> Prop) (s : store) (r : outcome A) :
  store_ok s -> (forall v, r <> Ok v) -> keeps ok s r s.
Proof. intros Hs Hr. apply keeps_refl; [exact Hs |]. intros v Hv. destruct (Hr v Hv). Qed.

Lemma keeps_from {A B} (ok : nat -> A -> Prop) (ok' : nat -> B -> Prop)
    (s s1 s' : store) (r1 : outcome A) (r : outcome B) :
  keeps ok s r1 s1 -> keeps ok' s1 r s' -> keeps ok' s r s'.
Proof.
  intros (_ & Hl1 & _) (Hs & Hl & Hr). split; [exact Hs |]. split; [lia | exact Hr].
Qed.

Lemma assoc_elem (var : string) (d : list (string * value)) (v : value) :
  assoc var d = Some v -> exists k, (k, v) ∈ d.
Proof.
  induction d as [|[k w] d IH]; simpl; [discriminate |].
  destruct (String.eqb k var).
  - intros [= ->]. exists k. left.
  - intros H. destruct (IH H) as [k' Hk]. exists k'. right. exact Hk.
Qed.

Lemma getitem_closed (s : store) (a : nat) (var : string) (v : value) :
  store_ok s -> getitem a var s = Ok v -> closed (length s) v.
Proof.
  intros [_ Hs]. unfold getitem.
  destruct (s !! a) as [e|] eqn:Ha; [| discriminate].
  destruct (assoc var (vars e)) as [w|] eqn:Hv; [| discriminate].
  intros [= ->]. destruct (assoc_elem _ _ _ Hv) as [k Hk].
  pose proof (Forall_lookup_1 _ _ _ _ Hs Ha) as He.
  unfold closed_env in He. rewrite Forall_forall in He. exact (He _ Hk).
Qed.

Lemma store_ok_set (s : store) (name : string) (v : value) (b : nat) :
  store_ok s -> closed (length s) v -> store_ok (alter (setitem name v) b s).
Proof.
  intros [Hwf Hs] Hv. split.
  - apply wf_store_alter; auto.
  - rewrite length_alter. apply Forall_alter; [exact Hs |].
    intros e _ He. unfold closed_env, setitem. simpl.
    constructor; [exact Hv | exact He].
Qed.

Lemma store_ok_push (s : store) (e : Env) :
  store_ok s -> closed_env (length s) e ->
  (forall o, outer e = Some o -> o < length s) ->
  store_ok (s ++ [e]).
Proof.
  intros [Hwf Hs] He Ho. split.
  - intros a e' o Ha Ho'. apply lookup_snoc_Some in Ha.
    destruct Ha as [[Hlt Ha] | [-> ->]].
    + eapply Hwf; eauto.
    + apply Ho, Ho'.
  - rewrite length_app. simpl. apply Forall_app. split.
    + eapply Forall_impl; [exact Hs |].
      intros e'. apply closed_env_mono. lia.
    + constructor; [| constructor]. eapply closed_env_mono; [| exact He]. lia.
Qed.

Lemma chars_closed (n : nat) (t : string) : Forall (closed n) (chars t).
Proof. induction t; simpl; constructor; [exact I | assumption]. Qed.

Lemma iterate_closed (n : nat) (xs : value) (l : list value) :
  closed n xs -> iterate xs = Ok l -> Forall (closed n) l.
Proof.
  destruct xs; simpl; try discriminate.
  - intros _ [= <-]. apply chars_closed.
  - intros H [= <-]. apply closed_List, H.
Qed.

Lemma update_closed (n : nat) (pairs : list (value * value)) :
  forall d d',
    Forall (fun kv => closed n (snd kv)) d ->
    Forall (fun kv => closed n (snd kv)) pairs ->
    update d pairs = Ok d' ->
    Forall (fun kv => closed n (snd kv)) d'.
Proof.
  induction pairs as [|[k v] pairs IH]; intros d d' Hd Hp; simpl.
  - intros [= <-]. exact Hd.
  - inversion Hp as [|? ? Hv Hr]; subst.
    destruct k; try discriminate.
    apply IH; [| exact Hr]. constructor; [exact Hv | exact Hd].
Qed.

Lemma zip_closed (n : nat) (ps args : list value) :
  Forall (closed n) args ->
  Forall (fun kv : value * value => closed n (snd kv)) (zip ps args).
Proof.
  intros H. revert ps. induction H as [|a args Ha Hr IH]; intros [|p ps]; simpl;
    try constructor; auto.
Qed.

Lemma Env_init_closed (n : nat) (parms : value) (args : list value)
    (o : option nat) (e : Env) :
  Forall (closed n) args -> Env_init parms args o = Ok e ->
  closed_env n e /\ outer e = o.
Proof.
  intros Ha. unfold Env_init.
  destruct (iterate parms) as [ps| | |]; simpl; try discriminate.
  destruct (update [] (zip ps args)) as [d| | |] eqn:E; simpl; try discriminate.
  intros [= <-]. split; [| reflexivity]. unfold closed_env. simpl.
  eapply update_closed; [| | exact E]; [constructor | apply zip_closed, Ha].
Qed.

(** *** What the built-in procedures return *)

Lemma arith_closed (n : nat) iop fop (a b : num) (v : value) :
  arith iop fop a b = Ok v -> closed n v.
Proof.
  unfold arith. destruct a, b; simpl;
    repeat match goal with
           | |- context [to_float ?z] => destruct (to_float z); simpl
           end;
    try discriminate; intros [= <-]; exact I.
Qed.

Lemma truediv_closed (n : nat) (a b : num) (v : value) :
  truediv a b = Ok v -> closed n v.
Proof.
  unfold truediv. destruct a as [x|f], b as [y|g]; simpl.
  - destruct (y =? 0)%Z; [discriminate |].
    destruct (Host.float_of_ratio _ _ _); try discriminate; intros [= <-]; exact I.
  - destruct (to_float x); simpl; try discriminate.
    destruct (is_zero g); [discriminate |]. intros [= <-]; exact I.
  - destruct (to_float y) as [g| | |]; simpl; try discriminate.
    destruct (is_zero g); [discriminate |]. intros [= <-]; exact I.
  - destruct (is_zero g); [discriminate |]. intros [= <-]; exact I.
Qed.

Lemma repeat_list_closed (n k : nat) (l : list value) :
  Forall (closed n) l -> Forall (closed n) (repeat_list k l).
Proof.
  intros H. induction k as [|k IH]; simpl; [constructor |].
  apply Forall_app. split; assumption.
Qed.

Lemma py_add_closed (n : nat) (a b v : value) :
  closed n a -> closed n b -> py_add a b = Ok v -> closed n v.
Proof.
  intros Ha Hb. unfold py_add.
  destruct (as_num a) as [x|] eqn:Ea, (as_num b) as [y|] eqn:Eb;
    try (apply arith_closed);
    destruct a, b; try discriminate; intros [= <-]; try exact I;
    apply closed_List, Forall_app; split; apply closed_List; assumption.
Qed.

Lemma py_sub_closed (n : nat) (a b v : value) :
  py_sub a b = Ok v -> closed n v.
Proof.
  unfold py_sub.
  destruct (as_num a) as [x|] eqn:Ea, (as_num b) as [y|] eqn:Eb;
    try (apply arith_closed);
    destruct a, b; discriminate.
Qed.

Lemma py_truediv_closed (n : nat) (a b v : value) :
  py_truediv a b = Ok v -> closed n v.
Proof.
  unfold py_truediv.
  destruct (as_num a) as [x|] eqn:Ea, (as_num b) as [y|] eqn:Eb;
    try (apply truediv_closed);
    destruct a, b; discriminate.
Qed.

Lemma py_mul_closed (n : nat) (a b v : value) :
  closed n a -> closed n b -> py_mul a b = Ok v -> closed n v.
Proof.
  intros Ha Hb. unfold py_mul.
  destruct (as_num a) as [[x|f]|] eqn:Ea, (as_num b) as [[y|g]|] eqn:Eb;
    try (apply arith_closed);
    destruct a, b; try discriminate;
    try (destruct (repeat_count _ _) as [k| | |]; try discriminate; cbn [obind]);
    intros [= <-]; try exact I;
    apply closed_List, repeat_list_closed, closed_List; assumption.
Qed.

Lemma foldl_closed (n : nat) (op : value -> value -> outcome value)
    (args : list value) :
  (forall a b v, closed n a -> closed n b -> op a b = Ok v -> closed n v) ->
  Forall (closed n) args ->
  forall acc v,
    (forall a, acc = Ok a -> closed n a) ->
    foldl (fun acc x => do a <- acc; op a x) acc args = Ok v ->
    closed n v.
Proof.
  intros Hop Hargs. induction Hargs as [|x args Hx Hr IH]; intros acc v Hacc; simpl.
  - exact (Hacc v).
  - apply IH. intros a' Ha'. destruct acc as [a| | |]; simpl in Ha'; try discriminate.
    eapply Hop; [apply Hacc; reflexivity | exact Hx | exact Ha'].
Qed.

Lemma compare_with_closed (n : nat) test (args : list value) (v : value) :
  compare_with test args = Ok v -> closed n v.
Proof.
  unfold compare_with. destruct args as [|a [|b [|c r]]]; try discriminate.
  destruct (py_order a b); simpl; try discriminate. intros [= <-]. exact I.
Qed.

(** Shapes of arguments for which a built-in returns no value. *)
Ltac no_value :=
  solve [ repeat (try discriminate;
                  match goal with
                  | |- context [match ?x with _ => _ end] => is_var x; destruct x
                  end) ].

Lemma builtin_call_closed (n : nat) (b : builtin) (args : list value) (v : value) :
  Forall (closed n) args -> builtin_call b args = Ok v -> closed n v.
Proof.
  intros Hargs. destruct b; cbn [builtin_call];
    try apply compare_with_closed; try discriminate.
  - (* variadic_add *)
    unfold py_sum.
    destruct (foldl _ _ args) as [r| | |] eqn:E; simpl; try discriminate.
    assert (Hr : closed n r).
    { eapply (foldl_closed n py_add); [apply py_add_closed | exact Hargs | | exact E].
      intros a [= <-]. exact I. }
    destruct r; try (intros [= <-]; exact Hr).
    destruct (Nat.leb _ _); [intros [= <-]; exact I | discriminate].
  - (* op_sub *)
    destruct args as [|a [|c [|d r]]]; try discriminate. apply py_sub_closed.
  - (* variadic_mul *)
    intros E.
    eapply (foldl_closed n py_mul); [apply py_mul_closed | exact Hargs | | exact E].
    intros a [= <-]. exact I.
  - (* op_truediv *)
    destruct args as [|a [|c [|d r]]]; try discriminate. apply py_truediv_closed.
  - (* op_eq *)
    destruct args as [|a [|c [|d r]]]; try discriminate.
    destruct (py_eq a c); simpl; try discriminate. intros [= <-]. exact I.
  - (* py_abs *)
    destruct args as [|a [|c r]]; try discriminate.
    destruct (as_num a) as [[z|f]|]; try (intros [= <-]; exact I).
    destruct a; discriminate.
  - (* op_add *)
    destruct args as [|a [|c [|d r]]]; try discriminate.
    inversion Hargs as [|? ? Ha Hr]; subst. inversion Hr as [|? ? Hc _]; subst.
    apply py_add_closed; assumption.
  - (* begin_ *)
    destruct (last args) as [w|] eqn:E; [| discriminate]. intros [= <-].
    apply last_Some_elem_of in E. rewrite Forall_forall in Hargs. auto.
  - (* car *)
    destruct args as [|a [|c r]]; try no_value.
    inversion Hargs as [|? ? Ha _]; subst.
    destruct a as [| |t|l| | | | |]; try discriminate.
    + destruct t; [discriminate |]. intros [= <-]. exact I.
    + destruct l as [|w l]; [discriminate |]. intros [= <-]. exact (proj1 Ha).
  - (* cdr *)
    destruct args as [|a [|c r]]; try no_value.
    inversion Hargs as [|? ? Ha _]; subst.
    destruct a as [| |t|l| | | | |]; try discriminate.
    + destruct t; intros [= <-]; exact I.
    + intros [= <-]. apply closed_List, Forall_tail, closed_List, Ha.
  - (* cons_ *)
    destruct args as [|a [|c [|d r]]]; try no_value.
    inversion Hargs as [|? ? Ha Hr]; subst. inversion Hr as [|? ? Hc _]; subst.
    destruct c; try discriminate. intros [= <-]. split; [exact Ha | exact Hc].
  - (* op_is *)
    destruct args as [|a [|c [|d r]]]; discriminate.
  - (* py_len *)
    destruct args as [|a [|c r]]; try no_value.
    destruct a; try discriminate; intros [= <-]; exact I.
  - (* list_ *)
    intros [= <-]. apply closed_List, Hargs.
  - (* is_list *)
    destruct args as [|a [|c r]]; try no_value.
    destruct a; intros [= <-]; exact I.
  - (* op_not *)
    destruct args as [|a [|c r]]; try discriminate. intros [= <-]; exact I.
  - (* is_null *)
    destruct args as [|a [|c r]]; try discriminate.
    destruct (py_eq a (List [])); simpl; try discriminate. intros [= <-]. exact I.
  - (* is_number *)
    destruct args as [|a [|c r]]; try discriminate. intros [= <-]; exact I.
  - (* py_callable *)
    destruct args as [|a [|c r]]; try discriminate. intros [= <-]; exact I.
  - (* is_symbol *)
    destruct args as [|a [|c r]]; try no_value.
    destruct a; intros [= <-]; exact I.
Qed.

(** *** Evaluation *)

Lemma eval_each_keeps (n : nat) (ev : value -> store -> res value)
    (exps : list value) :
  (forall x s r s',
      n <= length s -> store_ok s -> closed (length s) x ->
      ev x s = (r, s') -> keeps closed s r s') ->
  forall s r s',
    n <= length s -> store_ok s -> Forall (closed (length s)) exps ->
    eval_each ev exps s = (r, s') ->
    keeps (fun k => Forall (closed k)) s r s'.
Proof.
  intros Hev. induction exps as [|x exps IH]; intros s r s' Hn Hs Hx; simpl.
  - intros [= <- <-]. apply keeps_refl; [exact Hs |]. intros v [= <-]. constructor.
  - inversion Hx as [|? ? Hx1 Hx2]; subst. unfold sbind.
    destruct (ev x s) as [[v| | |] s1] eqn:E1;
      pose proof (Hev _ _ _ _ Hn Hs Hx1 E1) as K1;
      try (intros [= <- <-]; destruct K1 as (K & L & _);
           split; [exact K |]; split; [exact L | discriminate]).
    destruct K1 as (Hs1 & Hl1 & Hv).
    assert (Hx3 : Forall (closed (length s1)) exps)
      by (eapply Forall_impl; [exact Hx2 | intros y; apply closed_mono; lia]).
    destruct (eval_each ev exps s1) as [[vs| | |] s2] eqn:E2;
      pose proof (IH s1 _ _ ltac:(lia) Hs1 Hx3 E2) as (Hs2 & Hl2 & Hvs);
      intros [= <- <-]; (split; [exact Hs2 |]); (split; [lia |]);
      try discriminate.
    intros ws [= <-]. constructor.
    + eapply closed_mono; [exact Hl2 | apply Hv; reflexivity].
    + apply Hvs. reflexivity.
Qed.

Lemma define_var_keeps (a : nat) (var v : value) (s : store) (r : outcome value)
    (s' : store) :
  store_ok s -> closed (length s) v ->
  define_var a var v s = (r, s') -> keeps closed s r s'.
Proof.
  intros Hs Hv. unfold define_var.
  destruct var; intros [= <- <-];
    try (apply keeps_fail; [exact Hs | discriminate]).
  split; [apply store_ok_set; assumption |].
  split; [rewrite length_alter; lia |]. intros w [= <-]. exact I.
Qed.

Lemma set_var_keeps (a : nat) (var v : value) (s : store) (r : outcome value)
    (s' : store) :
  store_ok s -> closed (length s) v ->
  set_var a var v s = (r, s') -> keeps closed s r s'.
Proof.
  intros Hs Hv. unfold set_var.
  destruct var as [| |name| | | | | |];
    try (intros [= <- <-]; apply keeps_fail; [exact Hs | discriminate]).
  destruct (Env_find name a s) as [b|];
    intros [= <- <-]; [| apply keeps_fail; [exact Hs | discriminate]].
  split; [apply store_ok_set; assumption |].
  split; [rewrite length_alter; lia |]. intros w [= <-]. exact I.
Qed.

(** Evaluation and calls keep the store in order. *)
Lemma eval_keeps (fuel : nat) :
  (forall x env s r s',
      store_ok s -> closed (length s) x -> env < length s ->
      eval fuel x env s = (r, s') -> keeps closed s r s') /\
  (forall proc args s r s',
      store_ok s -> closed (length s) proc -> Forall (closed (length s)) args ->
      call fuel proc args s = (r, s') -> keeps closed s r s').
Proof.
  induction fuel as [|fuel [IHe IHc]].
  { split; intros; simpl in *;
      match goal with H : (_, _) = (_, _) |- _ => injection H as <- <- end;
      apply keeps_fail; auto; discriminate. }
  split.
  - intros x env s r s' Hs Hx Henv. cbn [eval].
    destruct x as [z|f|var|l|b| |p b e|b|h];
      try (intros [= <- <-]; apply keeps_refl; [exact Hs | intros v [= <-]; exact Hx]).
    + (* variable reference *)
      destruct (Env_find var env s) as [a|];
        intros [= <- <-]; [| apply keeps_fail; [exact Hs | discriminate]].
      apply keeps_refl; [exact Hs |]. intros v Hv. eapply getitem_closed; eauto.
    + destruct l as [|h rest];
        [intros [= <- <-]; apply keeps_fail; [exact Hs | discriminate] |].
      destruct Hx as [Hh Hrest]. change (closed (length s) (List rest)) in Hrest.
      destruct (head_is "quote" h).
      { destruct rest as [|exp [|? ?]]; intros [= <- <-];
          try (apply keeps_fail; [exact Hs | discriminate]).
        apply keeps_refl; [exact Hs |]. intros v [= <-]. exact (proj1 Hrest). }
      destruct (head_is "if" h).
      { destruct rest as [|test [|conseq [|alt [|? ?]]]];
          try (intros [= <- <-]; apply keeps_fail; [exact Hs | discriminate]).
        destruct Hrest as (Ht & Hc & Ha & _). unfold sbind.
        destruct (eval fuel test env s) as [[t| | |] s1] eqn:E1;
          pose proof (IHe _ _ _ _ _ Hs Ht Henv E1) as K1;
          try (intros [= <- <-]; exact K1).
        intros E2. eapply keeps_from; [exact K1 |].
        destruct K1 as (Hs1 & Hl1 & _).
        refine (IHe _ env s1 r s' Hs1 _ _ E2); [| lia].
        destruct (truthy t); eapply closed_mono; eauto. }
      destruct (head_is "define" h).
      { destruct rest as [|var [|exp [|? ?]]];
          try (intros [= <- <-]; apply keeps_fail; [exact Hs | discriminate]).
        destruct Hrest as (_ & He & _). unfold sbind.
        destruct (eval fuel exp env s) as [[v| | |] s1] eqn:E1;
          pose proof (IHe _ _ _ _ _ Hs He Henv E1) as K1;
          try (intros [= <- <-]; exact K1).
        intros E2. eapply keeps_from; [exact K1 |].
        destruct K1 as (Hs1 & Hl1 & Hv).
        eapply define_var_keeps; [exact Hs1 | apply Hv; reflexivity | exact E2]. }
      destruct (head_is "set!" h).
      { destruct rest as [|var [|exp [|? ?]]];
          try (intros [= <- <-]; apply keeps_fail; [exact Hs | discriminate]).
        destruct Hrest as (_ & He & _). unfold sbind.
        destruct (eval fuel exp env s) as [[v| | |] s1] eqn:E1;
          pose proof (IHe _ _ _ _ _ Hs He Henv E1) as K1;
          try (intros [= <- <-]; exact K1).
        intros E2. eapply keeps_from; [exact K1 |].
        destruct K1 as (Hs1 & Hl1 & Hv).
        eapply set_var_keeps; [exact Hs1 | apply Hv; reflexivity | exact E2]. }
      destruct (head_is "lambda" h).
      { destruct rest as [|parms [|body [|? ?]]]; intros [= <- <-];
          try (apply keeps_fail; [exact Hs | discriminate]).
        destruct Hrest as (Hp & Hb & _).
        apply keeps_refl; [exact Hs |]. intros v [= <-].
        split; [exact Henv |]. split; assumption. }
      (* a procedure call *)
      unfold sbind.
      destruct (eval fuel h env s) as [[proc| | |] s1] eqn:E1;
        pose proof (IHe _ _ _ _ _ Hs Hh Henv E1) as K1;
        try (intros [= <- <-]; exact K1).
      destruct K1 as (Hs1 & Hl1 & Hproc).
      assert (Hev : forall y s0 r0 s0',
                 length s <= length s0 -> store_ok s0 -> closed (length s0) y ->
                 eval fuel y env s0 = (r0, s0') -> keeps closed s0 r0 s0').
      { intros y s0 r0 s0' Hn Hs0 Hy. apply IHe; [exact Hs0 | exact Hy | lia]. }
      assert (Hrest1 : Forall (closed (length s1)) rest).
      { eapply Forall_impl; [apply closed_List, Hrest |].
        intros y; apply closed_mono; lia. }
      destruct (eval_each (fun exp => eval fuel exp env) rest s1)
        as [[args| | |] s2] eqn:E2;
        pose proof (eval_each_keeps _ _ _ Hev _ _ _ Hl1 Hs1 Hrest1 E2)
          as (Hs2 & Hl2 & Hargs);
        try (intros [= <- <-]; split; [exact Hs2 |]; split; [lia | discriminate]).
      intros E3.
      assert (K3 : keeps closed s2 r s').
      { eapply IHc; [exact Hs2 | | apply Hargs; reflexivity | exact E3].
        eapply closed_mono; [exact Hl2 | apply Hproc; reflexivity]. }
      destruct K3 as (Hs3 & Hl3 & Hr). split; [exact Hs3 |]. split; [lia | exact Hr].
  - intros proc args s r s' Hs Hproc Hargs. cbn [call].
    destruct proc as [| | | | | |parms body penv|b|h];
      try (intros [= <- <-]; apply keeps_fail; [exact Hs | discriminate]).
    + (* a user-defined procedure *)
      destruct Hproc as (Hpenv & Hparms & Hbody).
      destruct (Env_init parms args (Some penv)) as [e| | |] eqn:Ei;
        try (intros [= <- <-]; apply keeps_fail; [exact Hs | discriminate]).
      destruct (Env_init_closed _ _ _ _ _ Hargs Ei) as [He Ho].
      assert (Hs1 : store_ok (s ++ [e])).
      { apply store_ok_push; auto. intros o. rewrite Ho. intros [= <-]. exact Hpenv. }
      intros E.
      assert (Hlen : length (s ++ [e]) = S (length s))
        by (rewrite length_app; simpl; lia).
      assert (K : keeps closed (s ++ [e]) r s').
      { eapply IHe; [exact Hs1 | | | exact E].
        - eapply closed_mono; [| exact Hbody]. lia.
        - lia. }
      destruct K as (Hs' & Hl & Hr). split; [exact Hs' |]. split; [lia | exact Hr].
    + (* a built-in *)
      assert (Hb : forall r s', (builtin_call b args, s) = (r, s') ->
                                keeps closed s r s').
      { intros r0 s0 [= <- <-]. apply keeps_refl; [exact Hs |].
        intros v Hv. eapply builtin_call_closed; eauto. }
      destruct b; try exact (Hb r s').
      destruct args as [|f [|xs [|? ?]]];
        try (intros [= <- <-]; apply keeps_fail; [exact Hs | discriminate]).
      inversion Hargs as [|? ? Hf Hr]; subst. inversion Hr as [|? ? Hxs _]; subst.
      destruct (callable f);
        [| intros [= <- <-]; apply keeps_fail; [exact Hs | discriminate]].
      destruct (iterate xs) as [l| | |] eqn:Ex;
        try (intros [= <- <-]; apply keeps_fail; [exact Hs | discriminate]).
      intros E. eapply IHc; [exact Hs | exact Hf | | exact E].
      eapply iterate_closed; eauto.
Qed.

(** C4: in a store of the interpreter ([store_ok]: every store reached from
    a fresh interpreter is one, see [eval_keeps] and [reached_store_wf]),
    once EXPR has been evaluated, [(set! NAME EXPR)] overwrites the
    binding of NAME in the nearest environment of the chain (from the
    current one outward) that binds NAME, touches no other environment,
    and returns nothing; it fails with NameError when no environment of
    the chain binds NAME.  After the assignment, every scope whose nearest
    binding of NAME is that environment (the outer scope itself included)
    reads the new value. *)
Theorem set_overwrites_nearest_binding :
  forall fuel name exp env s v s1,
    store_ok s -> closed (length s) exp -> env < length s ->
    eval fuel exp env s = (Ok v, s1) ->
    (forall b, nearest s1 name env b ->
       let s2 := alter (setitem name v) b s1 in
       eval (S fuel) (List [Symbol "set!"; Symbol name; exp]) env s
         = (Ok NoneV, s2) /\
       (forall a, a <> b -> s2 !! a = s1 !! a) /\
       (forall o k, nearest s1 name o b ->
          eval (S k) (Symbol name) o s2 = (Ok v, s2))) /\
    (unbound s1 name env ->
       eval (S fuel) (List [Symbol "set!"; Symbol name; exp]) env s
         = (Raise NameError, s1)).
Proof.
  intros fuel name exp env s v s1 Hs Hexp Henv Hev.
  apply set_var_nearest; [exact Hev |].
  exact (proj1 (proj1 (proj1 (eval_keeps fuel) exp env s (Ok v) s1 Hs Hexp Henv Hev))).
Qed.

Lemma set_overwrites_nearest_binding_witness :
  eval 2 (List [Symbol "set!"; Symbol "x"; Int 2]) 1 (two_scopes (Int 1))
    = (Ok NoneV, alter (setitem "x" (Int 2)) 0 (two_scopes (Int 1))) /\
  eval 1 (Symbol "x") 0 (alter (setitem "x" (Int 2)) 0 (two_scopes (Int 1)))
    = (Ok (Int 2), alter (setitem "x" (Int 2)) 0 (two_scopes (Int 1))) /\
  eval 2 (List [Symbol "set!"; Symbol "y"; Int 2]) 1 (two_scopes (Int 1))
    = (Raise NameError, two_scopes (Int 1)).
Proof.
  assert (Hs : store_ok (two_scopes (Int 1))).
  { split; [apply wf_check_sound; reflexivity |].
    repeat constructor. }
  assert (Henv : 1 < length (two_scopes (Int 1))) by (simpl; lia).
  assert (Hx0 : nearest (two_scopes (Int 1)) "x" 0 0)
    by (eapply nearest_here; reflexivity).
  assert (Hx1 : nearest (two_scopes (Int 1)) "x" 1 0)
    by (eapply nearest_outer; [reflexivity | reflexivity | reflexivity | exact Hx0]).
  assert (Hy : unbound (two_scopes (Int 1)) "y" 1).
  { intros b H. inversion H as [a e Ha Hc | a e o b' Ha Hc Ho Hn]; subst.
    - injection Ha as <-. discriminate Hc.
    - injection Ha as <-. injection Ho as <-.
      inversion Hn as [a e Ha' Hc' | a e o b'' Ha' Hc' Ho' Hn']; subst.
      + injection Ha' as <-. discriminate Hc'.
      + injection Ha' as <-. discriminate Ho'. }
  destruct (set_overwrites_nearest_binding 1 "x" (Int 2) 1 (two_scopes (Int 1))
              (Int 2) (two_scopes (Int 1)) Hs I Henv eq_refl) as [Hset _].
  destruct (Hset 0 Hx1) as (Hres & _ & Hread).
  destruct (set_overwrites_nearest_binding 1 "y" (Int 2) 1 (two_scopes (Int 1))
              (Int 2) (two_scopes (Int 1)) Hs I Henv eq_refl) as [_ Hunb].
  split; [exact Hres |].
  split; [exact (Hread 0 0 Hx0) |].
  exact (Hunb Hy).
Defined.

(** The same through the interpreter: a [set!] inside a procedure body
    changes the global binding, which the global scope then reads. *)
Example set_from_inner_scope :
  forall s1 s2 s3,
    lisp_eval 3 "(define x 1)" 0 [empty_env] = (Ok NoneV, s1) ->
    lisp_eval 5 "((lambda (y) (set! x 2)) 0)" 0 s1 = (Ok NoneV, s2) ->
    lisp_eval 3 "(set! z 1)" 0 s2 = (Raise NameError, s3) ->
    lisp_eval 1 "x" 0 s3 = (Ok (Int 2), s3).
Proof.
  intros s1 s2 s3 H1 H2 H3.
  vm_compute in H1. injection H1 as <-.
  vm_compute in H2. injection H2 as <-.
  vm_compute in H3. injection H3 as <-.
  reflexivity.
Qed.

(** ** The reader *)

Lemma read_consumes (fuel : nat) :
  (forall tokens x rest,
      read_from_tokens fuel tokens = (Ok x, rest) ->
      length rest < length tokens) /\
  (forall tokens L x rest,
      read_list fuel tokens L = (Ok x, rest) ->
      length rest < length tokens).
Proof.
  induction fuel as [|fuel [IHr IHl]]; [split; intros; discriminate |].
  split.
  - intros [|t tokens] x rest; simpl; [discriminate |].
    destruct (String.eqb "(" t).
    + intros H. apply IHl in H. lia.
    + destruct (String.eqb ")" t); [discriminate |].
      intros [= _ <-]. lia.
  - intros [|t tokens] L x rest; [discriminate |].
    cbn [read_list]. destruct (String.eqb t ")").
    + intros [= _ <-]. simpl. lia.
    + destruct (read_from_tokens fuel (t :: tokens)) as [[y| | |] r] eqn:E;
        try discriminate.
      intros H. apply IHr in E. apply IHl in H. lia.
Qed.

(** The reader returns an expression or raises SyntaxError, unless its
    budget is too small. *)
Lemma read_outcomes (fuel : nat) :
  (forall tokens,
      match fst (read_from_tokens fuel tokens) with
      | Ok _ | Raise SyntaxError | OutOfFuel => True
      | _ => False
      end) /\
  (forall tokens L,
      match fst (read_list fuel tokens L) with
      | Ok _ | Raise SyntaxError | OutOfFuel => True
      | _ => False
      end).
Proof.
  induction fuel as [|fuel [IHr IHl]]; [split; intros; exact I |].
  split.
  - intros [|t tokens]; simpl; [exact I |].
    destruct (String.eqb "(" t); [apply IHl |].
    destruct (String.eqb ")" t); exact I.
  - intros [|t tokens] L; [exact I |].
    cbn [read_list]. destruct (String.eqb t ")"); [exact I |].
    specialize (IHr (t :: tokens)).
    destruct (read_from_tokens fuel (t :: tokens)) as [[y| e | |] r];
      simpl in *; auto. apply IHl.
Qed.

(** Two units of budget per token are enough. *)
Lemma read_from_tokens_fuel (fuel : nat) :
  (forall tokens,
      2 * length tokens < fuel ->
      fst (read_from_tokens fuel tokens) <> OutOfFuel) /\
  (forall tokens L,
      2 * length tokens + 1 < fuel ->
      fst (read_list fuel tokens L) <> OutOfFuel).
Proof.
  induction fuel as [|fuel [IHr IHl]]; [split; intros; lia |].
  split.
  - intros [|t tokens] Hf; simpl; [discriminate |].
    destruct (String.eqb "(" t).
    + apply IHl. simpl in Hf. lia.
    + destruct (String.eqb ")" t); discriminate.
  - intros [|t tokens] L Hf; [simpl; discriminate |].
    cbn [read_list]. destruct (String.eqb t ")"); [simpl; discriminate |].
    assert (Hr : 2 * length (t :: tokens) < fuel) by lia.
    specialize (IHr _ Hr).
    destruct (read_from_tokens fuel (t :: tokens)) as [[y| e | |] r] eqn:E;
      simpl in *; try discriminate; try congruence.
    apply IHl. apply (proj1 (read_consumes fuel)) in E. simpl in E. lia.
Qed.

(** What the reader does against the count of open parentheses. *)
Lemma read_closes (fuel : nat) :
  (forall tokens,
      match read_from_tokens fuel tokens with
      | (Ok _, rest) =>
          forall d, closes d tokens
                    = match d with O => true | S _ => closes d rest end
      | (Raise _, _) =>
          forall d, (d = 0 \/ exists t r, tokens = t :: r /\ String.eqb t ")" = false) ->
                    closes d tokens = false
      | _ => True
      end) /\
  (forall tokens L,
      match read_list fuel tokens L with
      | (Ok _, rest) =>
          forall d, closes (S d) tokens
                    = match d with O => true | S _ => closes d rest end
      | (Raise _, _) => forall d, closes (S d) tokens = false
      | _ => True
      end).
Proof.
  induction fuel as [|fuel [IHr IHl]]; [split; intros; exact I |].
  split.
  - intros [|t tokens]; simpl.
    { intros d _. reflexivity. }
    rewrite (String.eqb_sym "(" t), (String.eqb_sym ")" t).
    destruct (String.eqb t "(") eqn:Eo.
    + specialize (IHl tokens []).
      destruct (read_list fuel tokens []) as [[y| e | |] r]; auto.
    + destruct (String.eqb t ")") eqn:Ec.
      * intros d [-> | (t' & r' & [= <- <-] & Hc)]; [reflexivity | congruence].
      * intros [|d]; reflexivity.
  - intros [|t tokens] L; [intros d; reflexivity |].
    cbn [read_list]. destruct (String.eqb t ")") eqn:Ec.
    + apply String.eqb_eq in Ec. subst t. intros [|d]; reflexivity.
    + specialize (IHr (t :: tokens)).
      destruct (read_from_tokens fuel (t :: tokens)) as [[y| e | |] r] eqn:E;
        auto.
      * specialize (IHl r (L ++ [y])).
        destruct (read_list fuel r (L ++ [y])) as [[z| e | |] r']; auto.
        -- intros d. rewrite (IHr (S d)). apply IHl.
        -- intros d. rewrite (IHr (S d)). apply IHl.
      * intros d. apply IHr. right. eauto.
Qed.

(** [parse] gives an expression when the tokens start with a complete
    expression, and raises SyntaxError otherwise. *)
Lemma parse_cases (program : string) :
  (exists x, parse program = Ok x /\ well_parenthesized program = true)
  \/ (parse program = Raise SyntaxError /\ well_parenthesized program = false).
Proof.
  unfold parse, well_parenthesized.
  set (tokens := tokenize program).
  pose proof (proj1 (read_from_tokens_fuel (parse_fuel tokens)) tokens) as Hf.
  pose proof (proj1 (read_outcomes (parse_fuel tokens)) tokens) as Ho.
  pose proof (proj1 (read_closes (parse_fuel tokens)) tokens) as Hc.
  destruct (read_from_tokens (parse_fuel tokens) tokens) as [[x| e | |] r];
    simpl in *.
  - left. exists x. split; [reflexivity | apply (Hc 0)].
  - right. destruct e; try contradiction. split; [reflexivity |].
    apply Hc. left. reflexivity.
  - exfalso. apply Hf; [unfold parse_fuel; lia | reflexivity].
  - contradiction.
Qed.

(** ** Integers as text *)

Lemma digit_char_val (d : Z) :
  (0 <= d < 10)%Z ->
  Host.is_digit (Host.digit_char d) = true /\
  Host.digit_val (Host.digit_char d) = d.
Proof.
  intros H.
  assert (d = 0 \/ d = 1 \/ d = 2 \/ d = 3 \/ d = 4 \/ d = 5 \/ d = 6 \/
          d = 7 \/ d = 8 \/ d = 9)%Z as Hd by lia.
  repeat (destruct Hd as [-> | Hd]; [split; reflexivity |]).
  subst. split; reflexivity.
Qed.

Lemma digits_of_S (f : nat) (n : Z) (acc : string) :
  Host.digits_of (S f) n acc =
  if (n <? 10)%Z then String (Host.digit_char (n mod 10)) acc
  else Host.digits_of f (n / 10)%Z (String (Host.digit_char (n mod 10)) acc).
Proof. reflexivity. Qed.

Lemma digits_of_read (f : nat) :
  forall n, (0 <= n < 2 ^ Z.of_nat (S f))%Z ->
  exists k, (0 < k)%Z /\
    forall p a acc,
      Host.int_body p a (Host.digits_of (S f) n acc)
      = Host.int_body true (a * 10 ^ k + n)%Z acc.
Proof.
  induction f as [|f IH]; intros n Hn.
  - exists 1%Z. split; [lia |]. intros p a acc.
    assert (Hlt : (n <? 10)%Z = true) by (apply Z.ltb_lt; simpl in Hn; lia).
    rewrite digits_of_S, Hlt. cbn [Host.int_body].
    assert (Hd : (0 <= n mod 10 < 10)%Z) by (apply Z.mod_pos_bound; lia).
    destruct (digit_char_val _ Hd) as [-> ->].
    f_equal. rewrite Z.mod_small by (simpl in Hn; lia). lia.
  - assert (Hd : (0 <= n mod 10 < 10)%Z) by (apply Z.mod_pos_bound; lia).
    destruct (n <? 10)%Z eqn:Hlt.
    + exists 1%Z. split; [lia |]. intros p a acc.
      rewrite (digits_of_S (S f)), Hlt. cbn [Host.int_body]. destruct (digit_char_val _ Hd) as [-> ->].
      apply Z.ltb_lt in Hlt. f_equal. rewrite Z.mod_small by lia. lia.
    + pose proof (proj1 (Z.ltb_ge _ _) Hlt) as Hge.
      assert (Hq : (0 <= n / 10 < 2 ^ Z.of_nat (S f))%Z).
      { split; [apply Z.div_pos; lia |].
        apply Z.div_lt_upper_bound; [lia |].
        replace (Z.of_nat (S (S f))) with (Z.of_nat (S f) + 1)%Z in Hn by lia.
        rewrite Z.pow_add_r in Hn by lia. lia. }
      destruct (IH _ Hq) as (k & Hk & Hread).
      exists (k + 1)%Z. split; [lia |]. intros p a acc.
      rewrite (digits_of_S (S f)), Hlt, Hread. cbn [Host.int_body].
      destruct (digit_char_val _ Hd) as [-> ->].
      f_equal. rewrite Z.pow_add_r by lia.
      pose proof (Z.div_mod n 10 ltac:(lia)). lia.
Qed.

Lemma digits_of_chars (P : ascii -> bool) (f : nat) :
  (forall d, (0 <= d < 10)%Z -> P (Host.digit_char d) = true) ->
  forall n acc,
    all_chars P acc = true -> all_chars P (Host.digits_of f n acc) = true.
Proof.
  intros HP. induction f as [|f IH]; intros n acc Hacc; [exact Hacc |].
  rewrite digits_of_S.
  assert (Hd : P (Host.digit_char (n mod 10)) = true)
    by (apply HP, Z.mod_pos_bound; lia).
  destruct (n <? 10)%Z.
  - cbn [all_chars]. rewrite Hd, Hacc. reflexivity.
  - apply IH. cbn [all_chars]. rewrite Hd, Hacc. reflexivity.
Qed.

Lemma digits_of_nonempty (f : nat) (n : Z) (acc : string) :
  Host.digits_of (S f) n acc <> EmptyString.
Proof.
  revert n acc. induction f as [|f IH]; intros n acc; rewrite digits_of_S.
  - destruct (n <? 10)%Z; discriminate.
  - destruct (n <? 10)%Z; [discriminate | apply IH].
Qed.

Lemma str_nat_read (n : Z) :
  (0 <= n)%Z -> Host.int_body false 0%Z (Host.str_nat n) = Some n.
Proof.
  intros Hn. unfold Host.str_nat.
  assert (Hb : (0 <= n < 2 ^ Z.of_nat (S (Z.to_nat (Z.log2 n))))%Z).
  { split; [exact Hn |].
    destruct (Z.eq_dec n 0%Z) as [-> | Hne]; [reflexivity |].
    pose proof (Z.log2_nonneg n).
    replace (Z.of_nat (S (Z.to_nat (Z.log2 n)))) with (Z.succ (Z.log2 n)) by lia.
    apply Z.log2_spec. lia. }
  destruct (digits_of_read _ _ Hb) as (k & _ & Hread).
  rewrite Hread. cbn [Host.int_body]. f_equal; lia.
Qed.

Lemma str_nat_digits (n : Z) : all_chars Host.is_digit (Host.str_nat n) = true.
Proof.
  unfold Host.str_nat. apply digits_of_chars; [| reflexivity].
  intros d Hd. apply digit_char_val, Hd.
Qed.

Lemma str_nat_nonempty (n : Z) : Host.str_nat n <> EmptyString.
Proof. apply digits_of_nonempty. Qed.

Lemma all_chars_impl (P Q : ascii -> bool) (s : string) :
  (forall c, P c = true -> Q c = true) ->
  all_chars P s = true -> all_chars Q s = true.
Proof.
  intros HPQ. induction s as [|c s IH]; [reflexivity |].
  cbn [all_chars]. intros [Hc Hs]%andb_true_iff.
  rewrite (HPQ _ Hc), (IH Hs). reflexivity.
Qed.

Lemma all_chars_app (P : ascii -> bool) (s t : string) :
  all_chars P (s ++ t)%string = all_chars P s && all_chars P t.
Proof.
  induction s as [|c s IH]; [reflexivity |].
  simpl. rewrite IH. apply andb_assoc.
Qed.

Lemma digit_is_word_char (c : ascii) :
  Host.is_digit c = true ->
  word_char c = true /\ Ascii.eqb c "-" = false /\ Ascii.eqb c "+" = false.
Proof.
  destruct c as [[] [] [] [] [] [] [] []]; intros H; try discriminate H;
    repeat split; reflexivity.
Qed.

Lemma word_char_not_space (c : ascii) :
  word_char c = true -> Host.is_space c = false /\ is_paren c = false.
Proof.
  unfold word_char. intros [H1 H2]%andb_true_iff.
  split; apply negb_true_iff; assumption.
Qed.

(** What [int] and [float] skip is white space for [str.split] too. *)
Lemma blank_is_space (c : ascii) :
  Host.is_blank c = true -> Host.is_space c = true.
Proof.
  destruct c as [[] [] [] [] [] [] [] []]; intros H; try discriminate H;
    reflexivity.
Qed.

Lemma word_char_not_blank (c : ascii) :
  word_char c = true -> Host.is_blank c = false.
Proof.
  intros Hc. destruct (word_char_not_space _ Hc) as [Hs _].
  destruct (Host.is_blank c) eqn:Hb; [| reflexivity].
  rewrite (blank_is_space _ Hb) in Hs. discriminate.
Qed.

Lemma lstrip_word (s : string) :
  all_chars word_char s = true -> Host.lstrip s = s.
Proof.
  destruct s as [|c s]; [reflexivity |]. cbn [all_chars Host.lstrip].
  intros [Hc _]%andb_true_iff.
  rewrite (word_char_not_blank _ Hc). reflexivity.
Qed.

Lemma rstrip_word (s : string) :
  all_chars word_char s = true -> Host.rstrip s = s.
Proof.
  induction s as [|c s IH]; [reflexivity |]. cbn [all_chars Host.rstrip].
  intros [Hc Hs]%andb_true_iff. rewrite (IH Hs).
  rewrite (word_char_not_blank _ Hc).
  destruct s; reflexivity.
Qed.

Lemma strip_word (s : string) :
  all_chars word_char s = true -> Host.strip s = s.
Proof.
  intros H. unfold Host.strip. rewrite (lstrip_word _ H). apply rstrip_word, H.
Qed.

Lemma str_nat_word_chars (n : Z) : all_chars word_char (Host.str_nat n) = true.
Proof.
  apply (all_chars_impl Host.is_digit); [| apply str_nat_digits].
  intros c Hc. apply digit_is_word_char, Hc.
Qed.

Lemma str_int_word (z : Z) : is_word (Host.str_int z) = true.
Proof.
  unfold is_word, Host.str_int. destruct (z <? 0)%Z.
  - cbn [all_chars]. rewrite str_nat_word_chars. reflexivity.
  - rewrite str_nat_word_chars, andb_true_r. apply negb_true_iff.
    apply String.eqb_neq, str_nat_nonempty.
Qed.

Lemma is_word_chars (t : string) :
  is_word t = true -> t <> EmptyString /\ all_chars word_char t = true.
Proof.
  unfold is_word. intros [H1 H2]%andb_true_iff. split; [| exact H2].
  apply String.eqb_neq, negb_true_iff, H1.
Qed.

(** [int] reads back what [str] writes for an integer. *)
Lemma py_int_str_int (z : Z) : Host.py_int (Host.str_int z) = Some z.
Proof.
  unfold Host.py_int.
  rewrite (strip_word _ (proj2 (is_word_chars _ (str_int_word z)))).
  unfold Host.str_int. destruct (z <? 0)%Z eqn:Hz.
  - cbn [Host.read_sign]. change (Ascii.eqb "-" "-") with true. cbv iota.
    rewrite str_nat_read by (apply Z.ltb_lt in Hz; lia).
    simpl. f_equal. lia.
  - pose proof (str_nat_digits z) as Hd. pose proof (str_nat_nonempty z) as Hne.
    destruct (Host.str_nat z) as [|c r] eqn:E; [congruence |].
    cbn [all_chars] in Hd. apply andb_true_iff in Hd as [Hc _].
    unfold Host.read_sign.
    destruct (digit_is_word_char _ Hc) as (_ & -> & ->).
    rewrite <- E, str_nat_read by (apply Z.ltb_ge in Hz; lia). reflexivity.
Qed.

Lemma atom_str_int (z : Z) : atom (Host.str_int z) = Int z.
Proof. unfold atom. rewrite py_int_str_int. reflexivity. Qed.

(** ** Tokens of a text *)

Lemma string_app_cons (c : ascii) (s t : string) :
  (String c s ++ t)%string = String c (s ++ t)%string.
Proof. reflexivity. Qed.

Lemma string_app_assoc (s t u : string) :
  ((s ++ t) ++ u)%string = (s ++ t ++ u)%string.
Proof.
  induction s as [|c s IH]; [reflexivity |].
  rewrite !string_app_cons, IH. reflexivity.
Qed.

Lemma string_app_nil_r (s : string) : (s ++ "")%string = s.
Proof.
  induction s as [|c s IH]; [reflexivity |].
  rewrite string_app_cons, IH. reflexivity.
Qed.

Lemma replace_cons (c a : ascii) (by_ s : string) :
  Host.replace c by_ (String a s) =
  if Ascii.eqb a c then (by_ ++ Host.replace c by_ s)%string
  else String a (Host.replace c by_ s).
Proof. reflexivity. Qed.

Lemma split_from_cons (w : string) (c : ascii) (s : string) :
  Host.split_from w (String c s) =
  if Host.is_space c then Host.flush w ++ Host.split_from "" s
  else Host.split_from (w ++ String c "") s.
Proof. reflexivity. Qed.

(** [tokenize] is the one-pass [scan]. *)
Lemma split_replace_scan (s w : string) :
  Host.split_from w (Host.replace ")" " ) " (Host.replace "(" " ( " s))
  = scan w s.
Proof.
  revert w. induction s as [|c s IH]; intros w; [reflexivity |].
  cbn [scan]. rewrite replace_cons.
  destruct (Ascii.eqb_spec c "(") as [-> | Hopen].
  - change (is_paren "(") with true. cbv iota.
    change (" ( " ++ Host.replace "(" " ( " s)%string
      with (String " " (String "(" (String " " (Host.replace "(" " ( " s)))).
    rewrite !replace_cons.
    change (Ascii.eqb " " ")") with false. change (Ascii.eqb "(" ")") with false.
    cbv iota. rewrite !split_from_cons.
    change (Host.is_space " ") with true. change (Host.is_space "(") with false.
    cbv iota. rewrite IH. reflexivity.
  - rewrite replace_cons.
    destruct (Ascii.eqb_spec c ")") as [-> | Hclose].
    + change (is_paren ")") with true. cbv iota.
      change (" ) " ++ ?x)%string with (String " " (String ")" (String " " x))).
      change (" ) " ++ Host.replace ")" " ) " (Host.replace "(" " ( " s))%string
        with (String " " (String ")" (String " "
                (Host.replace ")" " ) " (Host.replace "(" " ( " s))))).
      rewrite !split_from_cons.
      change (Host.is_space " ") with true. change (Host.is_space ")") with false.
      cbv iota. rewrite IH. reflexivity.
    + assert (Hp : is_paren c = false).
      { unfold is_paren. apply orb_false_iff.
        split; apply Ascii.eqb_neq; assumption. }
      rewrite Hp, split_from_cons.
      destruct (Host.is_space c); rewrite IH; reflexivity.
Qed.

Lemma tokenize_scan (s : string) : tokenize s = scan "" s.
Proof. apply split_replace_scan. Qed.

Lemma scan_cons (w : string) (c : ascii) (r : string) :
  scan w (String c r) =
  if is_paren c then Host.flush w ++ String c "" :: scan "" r
  else if Host.is_space c then Host.flush w ++ scan "" r
  else scan (w ++ String c "") r.
Proof. reflexivity. Qed.

Lemma scan_word (t : string) :
  all_chars word_char t = true ->
  forall w r, scan w (t ++ r)%string = scan (w ++ t)%string r.
Proof.
  induction t as [|c t IH]; intros Ht w r.
  - rewrite string_app_nil_r. reflexivity.
  - cbn [all_chars] in Ht. apply andb_true_iff in Ht as [Hc Ht].
    destruct (word_char_not_space _ Hc) as [Hs Hp].
    rewrite string_app_cons, scan_cons, Hp, Hs, (IH Ht), string_app_assoc.
    reflexivity.
Qed.

Lemma scan_boundary (w r : string) :
  w <> EmptyString -> boundary r = true -> scan w r = w :: scan "" r.
Proof.
  intros Hw Hr. destruct r as [|c r].
  - simpl. destruct w; [congruence | reflexivity].
  - rewrite !scan_cons. cbn [boundary] in Hr.
    assert (Hf : Host.flush w = [w]) by (destruct w; [congruence | reflexivity]).
    rewrite Hf. destruct (is_paren c); [reflexivity |].
    rewrite orb_false_r in Hr. rewrite Hr. reflexivity.
Qed.

(** A word followed by a boundary is one token. *)
Lemma scan_leaf (t r : string) :
  is_word t = true -> boundary r = true ->
  scan "" (t ++ r)%string = t :: scan "" r.
Proof.
  intros Ht Hr. destruct (is_word_chars _ Ht) as [Hne Hc].
  rewrite (scan_word _ Hc). apply scan_boundary; assumption.
Qed.

Lemma flush_tokenlike (w : string) :
  all_chars word_char w = true -> Forall tokenlike (Host.flush w).
Proof.
  intros Hw. destruct w as [|c w]; [constructor |].
  constructor; [| constructor]. right; right.
  unfold is_word. rewrite Hw. reflexivity.
Qed.

Lemma scan_tokenlike (s : string) :
  forall w, all_chars word_char w = true -> Forall tokenlike (scan w s).
Proof.
  induction s as [|c s IH]; intros w Hw.
  - apply flush_tokenlike, Hw.
  - rewrite scan_cons. destruct (is_paren c) eqn:Hp.
    + apply Forall_app. split; [apply flush_tokenlike, Hw |].
      constructor; [| apply IH; reflexivity].
      unfold is_paren in Hp. apply orb_true_iff in Hp.
      destruct Hp as [->%Ascii.eqb_eq | ->%Ascii.eqb_eq]; [left | right; left];
        reflexivity.
    + destruct (Host.is_space c) eqn:Hs.
      * apply Forall_app. split; [apply flush_tokenlike, Hw |].
        apply IH. reflexivity.
      * apply IH. rewrite all_chars_app, Hw. cbn [all_chars].
        unfold word_char. rewrite Hs, Hp. reflexivity.
Qed.

Lemma tokenize_tokenlike (s : string) : Forall tokenlike (tokenize s).
Proof. rewrite tokenize_scan. apply scan_tokenlike. reflexivity. Qed.

Lemma word_not_paren (t : string) :
  is_word t = true -> String.eqb "(" t = false /\ String.eqb ")" t = false
                      /\ String.eqb t ")" = false.
Proof.
  intros Ht. destruct (is_word_chars _ Ht) as [_ Hc].
  repeat split; apply String.eqb_neq; intros E; subst; discriminate Hc.
Qed.

(** ** Malformed input *)



(** ** Rendering and reading back *)

Lemma lispstr_list (l : list value) :
  lispstr (List l) =
  parts ← mapM lispstr l; Some ("(" ++ String.concat " " parts ++ ")")%string.
Proof.
  reflexivity.
Qed.

Lemma tokens_of_list (l : list value) :
  tokens_of (List l) = "(" :: concat (map tokens_of l) ++ [")"].
Proof.
  cbn [tokens_of]. f_equal. f_equal.
  induction l as [|x l IH]; [reflexivity |].
  cbn [map concat]. rewrite <- IH. reflexivity.
Qed.

Lemma parsed_with_ind' (F : spec_float -> Prop) (P : value -> Prop) :
  (forall z, P (Int z)) ->
  (forall f, F f -> P (Float f)) ->
  (forall t, is_word t = true -> atom t = Symbol t -> P (Symbol t)) ->
  (forall l, Forall (parsed_with F) l -> Forall P l -> P (List l)) ->
  forall x, parsed_with F x -> P x.
Proof.
  intros Hi Hf Hs Hl. fix IH 2. intros x [z | f Hff | t Hw Ha | l Hall].
  - apply Hi.
  - apply Hf, Hff.
  - apply Hs; assumption.
  - apply Hl; [exact Hall |].
    induction Hall as [|y l Hy Hall IHall]; constructor; [apply IH, Hy | exact IHall].
Qed.

Lemma float_eqb_eq (f g : spec_float) : Repr.float_eqb f g = true -> f = g.
Proof.
  destruct f, g; simpl; try discriminate.
  - intros ->%Bool.eqb_prop. reflexivity.
  - intros ->%Bool.eqb_prop. reflexivity.
  - reflexivity.
  - intros [[->%Bool.eqb_prop ->%Pos.eqb_eq]%andb_true_iff ->%Z.eqb_eq]%andb_true_iff.
    reflexivity.
Qed.

Lemma float_reads_back_spec (f : spec_float) :
  float_reads_back f = true ->
  is_word (Repr.float_str f) = true /\ atom (Repr.float_str f) = Float f.
Proof.
  unfold float_reads_back. intros [Hw Ha]%andb_true_iff. split; [exact Hw |].
  destruct (atom (Repr.float_str f)); try discriminate.
  apply float_eqb_eq in Ha. subst. reflexivity.
Qed.

(** The text of a parsed expression, followed by a boundary, is cut into
    the tokens of the expression. *)
Lemma scan_lispstr (x : value) :
  parsed x ->
  exists t, lispstr x = Some t /\
    forall r, boundary r = true ->
      scan "" (t ++ r)%string = tokens_of x ++ scan "" r.
Proof.
  intros H. induction H as [z | f Hf | t Hw Ha | l Hall IH] using parsed_with_ind'.
  - exists (Host.str_int z). split; [reflexivity |]. intros r Hr.
    apply scan_leaf; [apply str_int_word | exact Hr].
  - exists (Repr.float_str f). split; [reflexivity |]. intros r Hr.
    apply scan_leaf; [apply float_reads_back_spec, Hf | exact Hr].
  - exists t. split; [reflexivity |]. intros r Hr.
    apply scan_leaf; assumption.
  - assert (Hparts : exists parts, mapM lispstr l = Some parts /\
              forall r, boundary r = true ->
                scan "" (String.concat " " parts ++ ")" ++ r)%string
                = concat (map tokens_of l) ++ ")" :: scan "" r).
    { clear Hall. induction IH as [|x l (t & Ht & Hscan) _ (parts & Hp & Hps)].
      - exists []. split; [reflexivity |]. intros r Hr. reflexivity.
      - exists (t :: parts). split.
        + cbn [mapM]. rewrite Ht, Hp. reflexivity.
        + intros r Hr. cbn [map concat]. rewrite <- app_assoc.
          destruct parts as [|p parts].
          * assert (l = []) as ->.
            { destruct l; [reflexivity |]. cbn [mapM] in Hp.
              destruct (lispstr v); [| discriminate].
              simpl in Hp. destruct (mapM lispstr l); discriminate. }
            cbn [String.concat map concat]. rewrite Hscan by reflexivity.
            reflexivity.
          * change (String.concat " " (t :: p :: parts))
              with (t ++ " " ++ String.concat " " (p :: parts))%string.
            rewrite !string_app_assoc, Hscan by reflexivity.
            f_equal. change (" " ++ ?x)%string with (String " " x).
            rewrite scan_cons. change (is_paren " ") with false.
            change (Host.is_space " ") with true. cbv iota.
            cbn [Host.flush app]. apply Hps, Hr. }
    destruct Hparts as (parts & Hp & Hps).
    exists ("(" ++ String.concat " " parts ++ ")")%string. split.
    + rewrite lispstr_list, Hp. reflexivity.
    + intros r Hr. rewrite tokens_of_list.
      change ("(" ++ ?x)%string with (String "(" x).
      rewrite string_app_cons, scan_cons. change (is_paren "(") with true.
      cbv iota. cbn [Host.flush app]. f_equal.
      rewrite string_app_assoc, (Hps r Hr), <- app_assoc. reflexivity.
Qed.

Lemma read_mono (fuel : nat) :
  (forall tokens o r,
      read_from_tokens fuel tokens = (o, r) -> o <> OutOfFuel ->
      read_from_tokens (S fuel) tokens = (o, r)) /\
  (forall tokens L o r,
      read_list fuel tokens L = (o, r) -> o <> OutOfFuel ->
      read_list (S fuel) tokens L = (o, r)).
Proof.
  induction fuel as [|fuel [IHr IHl]].
  - split; intros; simpl in *; congruence.
  - split.
    + intros [|t tokens] o r; [intros H _; exact H |].
      change (read_from_tokens (S fuel) (t :: tokens))
        with (if String.eqb "(" t then read_list fuel tokens []
              else if String.eqb ")" t then (Raise SyntaxError, tokens)
                   else (Ok (atom t), tokens)).
      change (read_from_tokens (S (S fuel)) (t :: tokens))
        with (if String.eqb "(" t then read_list (S fuel) tokens []
              else if String.eqb ")" t then (Raise SyntaxError, tokens)
                   else (Ok (atom t), tokens)).
      destruct (String.eqb "(" t); [apply IHl | auto].
    + intros [|t tokens] L o r; [intros H _; exact H |].
      change (read_list (S fuel) (t :: tokens) L)
        with (if String.eqb t ")" then (Ok (List L), tokens)
              else match read_from_tokens fuel (t :: tokens) with
                   | (Ok x, rest) => read_list fuel rest (L ++ [x])
                   | (r, rest) => (r, rest)
                   end).
      change (read_list (S (S fuel)) (t :: tokens) L)
        with (if String.eqb t ")" then (Ok (List L), tokens)
              else match read_from_tokens (S fuel) (t :: tokens) with
                   | (Ok x, rest) => read_list (S fuel) rest (L ++ [x])
                   | (r, rest) => (r, rest)
                   end).
      destruct (String.eqb t ")"); [auto |].
      destruct (read_from_tokens fuel (t :: tokens)) as [[y| e | |] r'] eqn:E;
        intros H Hne.
      * rewrite (IHr _ _ _ E) by discriminate. apply IHl; assumption.
      * rewrite (IHr _ _ _ E) by discriminate. exact H.
      * congruence.
      * rewrite (IHr _ _ _ E) by discriminate. exact H.
Qed.

Lemma read_mono_le (fuel fuel' : nat) :
  fuel <= fuel' ->
  (forall tokens o r,
      read_from_tokens fuel tokens = (o, r) -> o <> OutOfFuel ->
      read_from_tokens fuel' tokens = (o, r)) /\
  (forall tokens L o r,
      read_list fuel tokens L = (o, r) -> o <> OutOfFuel ->
      read_list fuel' tokens L = (o, r)).
Proof.
  induction 1 as [|fuel' Hle [IHr IHl]]; [split; auto |].
  split; intros; apply read_mono; auto.
Qed.

Lemma tokens_of_head (x : value) :
  parsed x -> exists h tl, tokens_of x = h :: tl /\ String.eqb h ")" = false.
Proof.
  intros [z | f Hf | t Hw Ha | l Hall].
  - exists (Host.str_int z), []. split; [reflexivity |].
    apply word_not_paren, str_int_word.
  - exists (Repr.float_str f), []. split; [reflexivity |].
    apply word_not_paren, float_reads_back_spec, Hf.
  - exists t, []. split; [reflexivity |]. apply word_not_paren, Hw.
  - rewrite tokens_of_list. eexists _, _. split; reflexivity.
Qed.

(** Reading the tokens of a parsed expression gives it back. *)
Lemma read_tokens_of (x : value) :
  parsed x ->
  forall rest, exists k, read_from_tokens k (tokens_of x ++ rest) = (Ok x, rest).
Proof.
  intros H. induction H as [z | f Hf | t Hw Ha | l Hall IH] using parsed_with_ind';
    intros rest.
  - exists 1. cbn [tokens_of app read_from_tokens].
    destruct (word_not_paren _ (str_int_word z)) as (-> & -> & _).
    rewrite atom_str_int. reflexivity.
  - exists 1. cbn [tokens_of app read_from_tokens].
    destruct (float_reads_back_spec _ Hf) as [Hw Ha].
    destruct (word_not_paren _ Hw) as (-> & -> & _). rewrite Ha. reflexivity.
  - exists 1. cbn [tokens_of app read_from_tokens].
    destruct (word_not_paren _ Hw) as (-> & -> & _). rewrite Ha. reflexivity.
  - assert (Hl : forall L, exists k,
               read_list k (concat (map tokens_of l) ++ ")" :: rest) L
               = (Ok (List (L ++ l)), rest)).
    { induction IH as [|x l Hx _ IHl]; intros L.
      - exists 1. cbn [map concat app read_list].
        change (String.eqb ")" ")") with true. cbv iota.
        rewrite app_nil_r. reflexivity.
      - inversion Hall as [|? ? Hpx Hpl]; subst.
        specialize (IHl Hpl).
        destruct (IHl (L ++ [x])) as [k2 Hk2].
        destruct (Hx (concat (map tokens_of l) ++ ")" :: rest)) as [k1 Hk1].
        destruct (tokens_of_head x Hpx) as (h & tl & Hh & Hc).
        exists (S (Nat.max k1 k2)). cbn [map concat]. rewrite <- app_assoc.
        rewrite Hh in *. cbn [app] in Hk1 |- *. cbn [read_list]. rewrite Hc.
        rewrite (proj1 (read_mono_le k1 (Nat.max k1 k2) ltac:(lia)) _ _ _ Hk1)
          by discriminate.
        rewrite (proj2 (read_mono_le k2 (Nat.max k1 k2) ltac:(lia)) _ _ _ _ Hk2)
          by discriminate.
        rewrite <- app_assoc. reflexivity. }
    destruct (Hl []) as [k Hk]. exists (S k).
    rewrite tokens_of_list. cbn [app read_from_tokens].
    change (String.eqb "(" "(") with true. cbv iota.
    rewrite <- app_assoc. exact Hk.
Qed.

Lemma atom_parsed (t : string) :
  is_word t = true -> parsed_with float_of_word (atom t).
Proof.
  intros Hw. unfold atom.
  destruct (Host.py_int t) eqn:Ei; [constructor |].
  destruct (Host.py_float t) eqn:Ef.
  - constructor. exists t. auto.
  - constructor; [exact Hw |]. unfold atom. rewrite Ei, Ef. reflexivity.
Qed.

(** What the reader builds from tokens is an expression in the sense of
    [parsed_with]. *)
Lemma read_shape (fuel : nat) :
  (forall tokens x rest,
      Forall tokenlike tokens ->
      read_from_tokens fuel tokens = (Ok x, rest) ->
      parsed_with float_of_word x /\ Forall tokenlike rest) /\
  (forall tokens L x rest,
      Forall tokenlike tokens -> Forall (parsed_with float_of_word) L ->
      read_list fuel tokens L = (Ok x, rest) ->
      parsed_with float_of_word x /\ Forall tokenlike rest).
Proof.
  induction fuel as [|fuel [IHr IHl]]; [split; intros; discriminate |].
  split.
  - intros [|t tokens] x rest Htok; [discriminate |].
    cbn [read_from_tokens]. inversion Htok as [|? ? Ht Hts]; subst.
    destruct (String.eqb "(" t) eqn:Eo.
    + intros H. eapply IHl; eauto.
    + destruct (String.eqb ")" t) eqn:Ec; [discriminate |].
      intros [= <- <-]. split; [| exact Hts].
      apply atom_parsed. destruct Ht as [-> | [-> | Hw]]; [discriminate.. | exact Hw].
  - intros [|t tokens] L x rest Htok HL; [discriminate |].
    cbn [read_list]. inversion Htok as [|? ? Ht Hts]; subst.
    destruct (String.eqb t ")").
    + intros [= <- <-]. split; [constructor; exact HL | exact Hts].
    + destruct (read_from_tokens fuel (t :: tokens)) as [[y| | |] r] eqn:E;
        try discriminate.
      destruct (IHr _ _ _ Htok E) as [Hy Hr]. intros H.
      eapply IHl; [exact Hr | | exact H].
      apply Forall_app. split; [exact HL | constructor; [exact Hy | constructor]].
Qed.

Lemma parse_shape (program : string) (x : value) :
  parse program = Ok x -> parsed_with float_of_word x.
Proof.
  unfold parse. intros H.
  destruct (read_from_tokens _ _) as [o r] eqn:E. simpl in H. subst o.
  eapply (proj1 (read_shape _)); [apply tokenize_tokenlike | exact E].
Qed.

(** An expression as the reader builds it holds no procedure object. *)
Lemma parsed_closed (F : spec_float -> Prop) (n : nat) (x : value) :
  parsed_with F x -> closed n x.
Proof.
  induction x as [| | |l IH| | | | |] using value_ind'; intros H;
    try exact I; try (inversion H; fail).
  apply closed_List. inversion H as [| | |? Hl]; subst.
  rewrite Forall_forall in *. auto.
Qed.

Lemma initial_store_ok (math_vars : list (string * value)) :
  Forall (fun kv => closed 1 (snd kv)) math_vars ->
  store_ok (initial_store math_vars).
Proof.
  intros Hm. split.
  - intros a e o Ha Ho. destruct a as [|a]; [| destruct a; discriminate].
    injection Ha as <-. discriminate.
  - constructor; [| constructor]. unfold closed_env, standard_env.
    cbn [vars length initial_store]. apply Forall_app. split; [| exact Hm].
    repeat constructor.
Qed.

(** Every store that a program reaches from a fresh interpreter has its
    outer links in order: the premise of the lemmas on [Env_find]. *)
Lemma reached_store_wf (fuel : nat) (program : string) (env : nat)
    (s : store) (r : outcome value) (s' : store) :
  store_ok s -> env < length s ->
  lisp_eval fuel program env s = (r, s') ->
  store_ok s' /\ length s <= length s'.
Proof.
  intros Hs Henv. unfold lisp_eval.
  destruct (parse program) as [x| | |] eqn:Ep;
    try (intros [= <- <-]; split; [exact Hs | lia]).
  intros E.
  destruct (proj1 (eval_keeps fuel) x env s r s' Hs
              (parsed_closed _ _ _ (parse_shape _ _ Ep)) Henv E) as (H1 & H2 & _).
  split; assumption.
Qed.

(** Parsing the rendering of a parsed expression gives the expression. *)
Lemma parse_lispstr (x : value) :
  parsed x -> exists t, lispstr x = Some t /\ parse t = Ok x.
Proof.
  intros H. destruct (scan_lispstr x H) as (t & Ht & Hscan).
  exists t. split; [exact Ht |].
  unfold parse. rewrite tokenize_scan.
  specialize (Hscan "" eq_refl). rewrite string_app_nil_r in Hscan.
  rewrite Hscan. cbn [scan Host.flush].
  destruct (read_tokens_of x H []) as [k Hk].
  set (tokens := tokens_of x ++ []) in *.
  pose proof (proj1 (read_from_tokens_fuel (parse_fuel tokens)) tokens
                ltac:(unfold parse_fuel; lia)) as Hfuel.
  destruct (read_from_tokens (parse_fuel tokens) tokens) as [o r] eqn:E.
  simpl in Hfuel |- *.
  pose proof (proj1 (read_mono_le _ _ (Nat.le_max_l (parse_fuel tokens) k))
                _ _ _ E Hfuel) as E1.
  pose proof (proj1 (read_mono_le _ _ (Nat.le_max_r (parse_fuel tokens) k))
                _ _ _ Hk ltac:(discriminate)) as E2.
  congruence.
Qed.


(** ** The text of a float *)

Lemma string_length_app (s t : string) :
  String.length (s ++ t)%string = String.length s + String.length t.
Proof.
  induction s as [|c s IH]; [reflexivity |].
  rewrite string_app_cons. simpl. rewrite IH. reflexivity.
Qed.

Lemma any_char_app (P : ascii -> bool) (s t : string) :
  any_char P (s ++ t)%string = any_char P s || any_char P t.
Proof.
  induction s as [|c s IH]; [reflexivity |].
  rewrite string_app_cons. cbn [any_char]. rewrite IH. apply orb_assoc.
Qed.

Lemma val_from_app (s t : string) (a : Z) :
  val_from a (s ++ t)%string = val_from (val_from a s) t.
Proof.
  revert a. induction s as [|c s IH]; intros a; [reflexivity |].
  rewrite string_app_cons. cbn [val_from]. apply IH.
Qed.

Lemma val_from_scale (s : string) (a : Z) :
  val_from a s = (a * 10 ^ Z.of_nat (String.length s) + val_from 0 s)%Z.
Proof.
  revert a. induction s as [|c s IH]; intros a.
  - simpl. lia.
  - cbn [val_from String.length]. rewrite (IH (10 * a + _)%Z), (IH (10 * 0 + _)%Z).
    rewrite Nat2Z.inj_succ, Z.pow_succ_r by lia. ring.
Qed.

Lemma read_digits_run (ds r : string) (a c : Z) :
  all_chars Host.is_digit ds = true -> no_digit_ahead r = true ->
  Host.read_digits a c (ds ++ r)%string
  = (val_from a ds, (c + Z.of_nat (String.length ds))%Z, r).
Proof.
  intros Hds Hr. revert a c. induction ds as [|d ds IH]; intros a c.
  - simpl. rewrite Z.add_0_r. destruct r as [|c' r]; [reflexivity |].
    simpl in *. apply negb_true_iff in Hr. rewrite Hr. reflexivity.
  - cbn [all_chars] in Hds. apply andb_true_iff in Hds as [Hd Hds].
    rewrite string_app_cons. cbn [Host.read_digits val_from String.length].
    rewrite Hd, (IH Hds). f_equal. f_equal. lia.
Qed.

Lemma val_from_digits_of (f : nat) :
  forall n, (0 <= n < 2 ^ Z.of_nat (S f))%Z ->
  forall a acc,
    val_from a (Host.digits_of (S f) n acc)
    = val_from (a * 10 ^ Z.of_nat (String.length (Host.digits_of (S f) n ""))
                + n)%Z acc
    /\ String.length (Host.digits_of (S f) n acc)
       = String.length (Host.digits_of (S f) n "") + String.length acc.
Proof.
  induction f as [|f IH]; intros n Hn a acc.
  - assert (Hlt : (n <? 10)%Z = true) by (apply Z.ltb_lt; simpl in Hn; lia).
    rewrite !digits_of_S, Hlt. cbn [val_from String.length].
    assert (Hd : (0 <= n mod 10 < 10)%Z) by (apply Z.mod_pos_bound; lia).
    destruct (digit_char_val _ Hd) as [_ ->].
    rewrite Z.mod_small by (simpl in Hn; lia).
    split; [f_equal; simpl; lia | reflexivity].
  - assert (Hd : (0 <= n mod 10 < 10)%Z) by (apply Z.mod_pos_bound; lia).
    rewrite !(digits_of_S (S f)).
    destruct (n <? 10)%Z eqn:Hlt.
    + cbn [val_from String.length]. destruct (digit_char_val _ Hd) as [_ ->].
      apply Z.ltb_lt in Hlt. rewrite Z.mod_small by lia.
      split; [f_equal; simpl; lia | reflexivity].
    + pose proof (proj1 (Z.ltb_ge _ _) Hlt) as Hge.
      assert (Hq : (0 <= n / 10 < 2 ^ Z.of_nat (S f))%Z).
      { split; [apply Z.div_pos; lia |].
        apply Z.div_lt_upper_bound; [lia |].
        replace (Z.of_nat (S (S f))) with (Z.of_nat (S f) + 1)%Z in Hn by lia.
        rewrite Z.pow_add_r in Hn by lia. lia. }
      set (dc := String (Host.digit_char (n mod 10)) "").
      destruct (IH _ Hq a (String (Host.digit_char (n mod 10)) acc)) as [Hv Hl].
      destruct (IH _ Hq a dc) as [_ Hl1].
      split.
      * rewrite Hv, Hl1. cbn [val_from]. destruct (digit_char_val _ Hd) as [_ ->].
        f_equal. subst dc. cbn [String.length].
        rewrite Nat2Z.inj_add, Z.pow_add_r by lia.
        change (Z.of_nat 1) with 1%Z. rewrite Z.pow_1_r.
        pose proof (Z.div_mod n 10 ltac:(lia)). lia.
      * rewrite Hl, Hl1. subst dc. cbn [String.length]. lia.
Qed.

Lemma str_nat_bound (n : Z) :
  (0 <= n)%Z -> (0 <= n < 2 ^ Z.of_nat (S (Z.to_nat (Z.log2 n))))%Z.
Proof.
  intros Hn. split; [exact Hn |].
  destruct (Z.eq_dec n 0%Z) as [-> | Hne]; [reflexivity |].
  pose proof (Z.log2_nonneg n).
  replace (Z.of_nat (S (Z.to_nat (Z.log2 n)))) with (Z.succ (Z.log2 n)) by lia.
  apply Z.log2_spec. lia.
Qed.

Lemma val_from_str_nat (n a : Z) :
  (0 <= n)%Z ->
  val_from a (Host.str_nat n)
  = (a * 10 ^ Z.of_nat (String.length (Host.str_nat n)) + n)%Z.
Proof.
  intros Hn. unfold Host.str_nat.
  destruct (val_from_digits_of _ n (str_nat_bound n Hn) a "") as [Hv _].
  rewrite Hv. reflexivity.
Qed.

Lemma zeros_digits (k : nat) : all_chars Host.is_digit (Repr.zeros k) = true.
Proof. induction k as [|k IH]; [reflexivity | exact IH]. Qed.

Lemma zeros_length (k : nat) : String.length (Repr.zeros k) = k.
Proof. induction k as [|k IH]; [reflexivity | simpl; congruence]. Qed.

Lemma val_from_zeros (k : nat) (a : Z) :
  val_from a (Repr.zeros k) = (a * 10 ^ Z.of_nat k)%Z.
Proof.
  revert a. induction k as [|k IH]; intros a.
  - simpl. lia.
  - cbn [Repr.zeros val_from]. rewrite IH.
    change (Host.digit_val "0") with 0%Z.
    rewrite Nat2Z.inj_succ, Z.pow_succ_r by lia. ring.
Qed.

Lemma take_drop (k : nat) (s : string) :
  (Repr.take k s ++ Repr.drop k s)%string = s.
Proof.
  revert s. induction k as [|k IH]; intros s; [reflexivity |].
  destruct s as [|c s]; [reflexivity |].
  cbn [Repr.take Repr.drop]. rewrite string_app_cons, IH. reflexivity.
Qed.

Lemma take_length (k : nat) (s : string) :
  k <= String.length s -> String.length (Repr.take k s) = k.
Proof.
  revert s. induction k as [|k IH]; intros s Hk; [reflexivity |].
  destruct s as [|c s]; [simpl in Hk; lia |].
  cbn [Repr.take String.length] in *. rewrite IH by lia. reflexivity.
Qed.

Lemma all_chars_take_drop (P : ascii -> bool) (k : nat) (s : string) :
  all_chars P s = true ->
  all_chars P (Repr.take k s) = true /\ all_chars P (Repr.drop k s) = true.
Proof.
  intros H. rewrite <- (take_drop k s), all_chars_app in H.
  apply andb_true_iff, H.
Qed.

Lemma read_sign_digit (c : ascii) (r : string) :
  Host.is_digit c = true -> Host.read_sign (String c r) = (false, String c r).
Proof.
  intros Hc. unfold Host.read_sign.
  destruct (digit_is_word_char _ Hc) as (_ & -> & ->). reflexivity.
Qed.

Lemma read_exponent_text (ex : Z) :
  let exd := Host.str_nat (Z.abs ex) in
  Host.read_exponent
    ("e" ++ (if (ex <? 0)%Z then "-" else "+")
         ++ (if Nat.ltb (String.length exd) 2 then "0" else "") ++ exd)%string
  = Some ex.
Proof.
  intros exd.
  set (pad := if Nat.ltb (String.length exd) 2 then "0" else "").
  assert (Hrun : Host.read_digits 0 0 (pad ++ exd)%string
                 = (Z.abs ex, Z.of_nat (String.length (pad ++ exd)%string), "")).
  { pose proof (read_digits_run (pad ++ exd)%string "" 0 0) as H.
    rewrite string_app_nil_r in H. rewrite H; [| | reflexivity].
    - f_equal. f_equal. rewrite val_from_app.
      replace (val_from 0 pad) with 0%Z by (subst pad; destruct (Nat.ltb _ _); reflexivity).
      subst exd. rewrite val_from_str_nat by lia. lia.
    - rewrite all_chars_app. subst exd. rewrite str_nat_digits, andb_true_r.
      subst pad. destruct (Nat.ltb _ _); reflexivity. }
  assert (Hcnt : (0 <? Z.of_nat (String.length (pad ++ exd)%string))%Z = true).
  { apply Z.ltb_lt. rewrite string_length_app.
    pose proof (str_nat_nonempty (Z.abs ex)) as Hne. fold exd in Hne.
    destruct exd; [congruence | simpl; lia]. }
  unfold Host.read_exponent.
  change ("e" ++ ?x)%string with (String "e" x).
  change (Ascii.eqb (Host.lower "e") "e") with true. cbv iota.
  destruct (ex <? 0)%Z eqn:Es.
  - change ("-" ++ ?x)%string with (String "-" x).
    change (Host.read_sign (String "-" (pad ++ exd)%string))
      with (true, (pad ++ exd)%string).
    cbv iota beta. rewrite Hrun, Hcnt. f_equal. apply Z.ltb_lt in Es. lia.
  - change ("+" ++ ?x)%string with (String "+" x).
    change (Host.read_sign (String "+" (pad ++ exd)%string))
      with (false, (pad ++ exd)%string).
    cbv iota beta. rewrite Hrun, Hcnt. f_equal. apply Z.ltb_ge in Es. lia.
Qed.

(** A numeral with a point: digits, point, digits, and an exponent part
    or nothing. *)
Lemma read_decimal_point (neg : bool) (a b r2 : string) :
  all_chars Host.is_digit a = true -> all_chars Host.is_digit b = true ->
  no_digit_ahead r2 = true -> 0 < String.length a + String.length b ->
  Host.read_decimal neg (a ++ "." ++ b ++ r2)%string
  = x ← Host.read_exponent r2;
    Some (Host.float_of_decimal neg (val_from (val_from 0 a) b)
            (x - Z.of_nat (String.length b))).
Proof.
  intros Ha Hb Hr Hlen. unfold Host.read_decimal.
  rewrite (read_digits_run a _ 0 0 Ha) by reflexivity.
  change ("." ++ b ++ r2)%string with (String "." (b ++ r2)%string).
  cbv beta iota. change (Ascii.eqb "." ".") with true. cbv beta iota.
  rewrite (read_digits_run b r2 _ 0 Hb Hr).
  replace (0 <? 0 + Z.of_nat (String.length a) + (0 + Z.of_nat (String.length b)))%Z
    with true by (symmetry; apply Z.ltb_lt; lia).
  rewrite Z.add_0_l. reflexivity.
Qed.

(** A numeral without a point, followed by an exponent mark. *)
Lemma read_decimal_plain (neg : bool) (a r2 : string) (c : ascii) :
  all_chars Host.is_digit a = true -> Host.is_digit c = false ->
  Ascii.eqb c "." = false -> 0 < String.length a ->
  Host.read_decimal neg (a ++ String c r2)%string
  = x ← Host.read_exponent (String c r2);
    Some (Host.float_of_decimal neg (val_from 0 a) (x - 0)).
Proof.
  intros Ha Hc Hdot Hlen. unfold Host.read_decimal.
  rewrite (read_digits_run a _ 0 0 Ha) by (simpl; rewrite Hc; reflexivity).
  cbv beta iota. rewrite Hdot.
  replace (0 <? 0 + Z.of_nat (String.length a) + 0)%Z
    with true by (symmetry; apply Z.ltb_lt; lia).
  reflexivity.
Qed.

Lemma str_nat_val (n : Z) : (0 <= n)%Z -> val_from 0 (Host.str_nat n) = n.
Proof. intros Hn. rewrite val_from_str_nat by exact Hn. lia. Qed.

(** What [float] reads in the host's layout of the digits [ds] of [d1]
    with the point [x1] places after the last one: the decimal
    [d1 * 10^x1], written as such or, for ["ddd000.0"], with exponent -1. *)
Lemma layout_read (neg : bool) (ds : string) (d1 x1 : Z) :
  all_chars Host.is_digit ds = true -> ds <> EmptyString ->
  val_from 0 ds = d1 ->
  exists M X,
    Host.read_decimal neg
      (Repr.layout ds (x1 + Z.of_nat (String.length ds)))
    = Some (Host.float_of_decimal neg M X) /\
    ((M = d1 /\ X = x1) \/
     (0 <= x1 /\ M = d1 * 10 ^ (x1 + 1) /\ X = -1))%Z.
Proof.
  intros Hdig Hne Hval.
  unfold Repr.layout.
  set (n := Z.of_nat (String.length ds)). set (decpt := (x1 + n)%Z).
  destruct ((decpt <=? -4) || (16 <? decpt))%Z eqn:Eexp.
  - (* exponent form *)
    set (ex := (decpt - 1)%Z).
    pose proof (read_exponent_text ex) as Hex. cbv zeta in Hex.
    exists d1, x1. split; [| left; split; reflexivity].
    destruct ds as [|c rest]; [congruence |].
    cbn [all_chars] in Hdig. apply andb_true_iff in Hdig as [Hc Hrest].
    destruct rest as [|c2 rest'].
    + change ((String c "" ++ "e" ++ ?t)%string)
        with ((String c "" ++ String "e" t)%string).
      rewrite read_decimal_plain; [| cbn [all_chars]; rewrite Hc; reflexivity
                                   | reflexivity | reflexivity | simpl; lia].
      rewrite Hval.
      change (String "e" ?t) with ("e" ++ t)%string. rewrite Hex.
      cbn [mbind option_bind]. f_equal. f_equal.
      subst ex decpt n. cbn [String.length]. lia.
    + set (rest := String c2 rest') in *.
      change ((String c (String "." rest) ++ ?t)%string)
        with ((String c "" ++ "." ++ rest ++ t)%string).
      rewrite read_decimal_point;
        [| cbn [all_chars]; rewrite Hc; reflexivity | exact Hrest
         | reflexivity | simpl; lia].
      change (val_from (val_from 0 (String c "")) rest)
        with (val_from 0 (String c rest)).
      rewrite Hval, Hex. cbn [mbind option_bind]. f_equal. f_equal.
      subst ex decpt n. cbn [String.length]. lia.
  - apply orb_false_iff in Eexp as [E1 E2].
    apply Z.leb_gt in E1. apply Z.ltb_ge in E2.
    destruct (decpt <=? 0)%Z eqn:E0.
    + (* 0.000ddd *)
      apply Z.leb_le in E0. exists d1, x1. split; [| left; split; reflexivity].
      set (z := Z.to_nat (- decpt)).
      change ("0." ++ Repr.zeros z ++ ds)%string
        with ("0" ++ "." ++ (Repr.zeros z ++ ds))%string.
      rewrite <- (string_app_nil_r (Repr.zeros z ++ ds)).
      rewrite read_decimal_point;
        [| reflexivity | rewrite all_chars_app, zeros_digits, Hdig; reflexivity
         | reflexivity | simpl; lia].
      change (Host.read_exponent "") with (Some 0%Z).
      cbn [mbind option_bind]. f_equal.
      change (val_from 0 "0") with 0%Z.
      rewrite val_from_app, val_from_zeros, Z.mul_0_l, Hval. f_equal.
      rewrite string_length_app, zeros_length. subst z decpt n. lia.
    + apply Z.leb_gt in E0. destruct (decpt <? n)%Z eqn:En.
      * (* ddd.ddd *)
        apply Z.ltb_lt in En. exists d1, x1. split; [| left; split; reflexivity].
        set (k := Z.to_nat decpt).
        destruct (all_chars_take_drop Host.is_digit k ds Hdig) as [Ht Hdr].
        assert (Hk : k <= String.length ds) by (subst k n; lia).
        rewrite <- (string_app_nil_r (Repr.drop k ds)).
        rewrite read_decimal_point;
          [| exact Ht | exact Hdr | reflexivity
           | rewrite take_length by exact Hk; subst k; lia].
        change (Host.read_exponent "") with (Some 0%Z).
        cbn [mbind option_bind]. f_equal.
        rewrite <- val_from_app, take_drop, Hval. f_equal.
        assert (Hlen : String.length (Repr.take k ds)
                       + String.length (Repr.drop k ds) = String.length ds)
          by (rewrite <- string_length_app, take_drop; reflexivity).
        rewrite take_length in Hlen by exact Hk. subst k decpt n. lia.
      * (* ddd000.0 *)
        apply Z.ltb_ge in En.
        exists (d1 * 10 ^ (x1 + 1))%Z, (-1)%Z.
        split; [| right; subst decpt; repeat split; lia].
        set (z := Z.to_nat (decpt - n)).
        change (ds ++ Repr.zeros z ++ ".0")%string
          with (ds ++ Repr.zeros z ++ "." ++ "0" ++ "")%string.
        rewrite <- string_app_assoc.
        rewrite read_decimal_point;
          [| rewrite all_chars_app, zeros_digits, Hdig; reflexivity
           | reflexivity | reflexivity | simpl; lia].
        change (Host.read_exponent "") with (Some 0%Z).
        cbn [mbind option_bind]. f_equal.
        rewrite val_from_app, val_from_zeros, Hval.
        cbn [val_from]. change (Host.digit_val "0") with 0%Z.
        f_equal. subst z decpt.
        replace (x1 + 1)%Z with (Z.of_nat (Z.to_nat (x1 + n - n)) + 1)%Z by lia.
        rewrite Z.pow_add_r by lia. lia.
Qed.

Lemma float_char_word (c : ascii) :
  float_char c = true -> word_char c = true /\ Ascii.eqb c "_" = false.
Proof.
  destruct c as [[] [] [] [] [] [] [] []]; intros H; try discriminate H;
    split; reflexivity.
Qed.

Lemma digit_float_char (c : ascii) : Host.is_digit c = true -> float_char c = true.
Proof. intros H. unfold float_char. rewrite H. reflexivity. Qed.

Lemma digits_float_chars (s : string) :
  all_chars Host.is_digit s = true -> all_chars float_char s = true.
Proof. apply all_chars_impl, digit_float_char. Qed.

(** The layout is made of float characters, starts with a digit and holds
    a point or an exponent mark. *)
Lemma layout_shape (ds : string) (decpt : Z) :
  all_chars Host.is_digit ds = true -> ds <> EmptyString ->
  all_chars float_char (Repr.layout ds decpt) = true /\
  any_char not_int_char (Repr.layout ds decpt) = true /\
  exists c r, Repr.layout ds decpt = String c r /\ Host.is_digit c = true.
Proof.
  intros Hdig Hne. pose proof (digits_float_chars _ Hdig) as Hfl.
  unfold Repr.layout.
  destruct ((decpt <=? -4) || (16 <? decpt))%Z.
  - set (exd := Host.str_nat (Z.abs (decpt - 1))).
    assert (Hexd : all_chars float_char exd = true)
      by apply digits_float_chars, str_nat_digits.
    set (sgn := if (decpt - 1 <? 0)%Z then "-" else "+").
    set (pad := if Nat.ltb (String.length exd) 2 then "0" else "").
    assert (Htail : all_chars float_char ("e" ++ sgn ++ pad ++ exd)%string = true).
    { rewrite !all_chars_app, Hexd. subst sgn pad.
      destruct (decpt - 1 <? 0)%Z, (Nat.ltb _ _); reflexivity. }
    destruct ds as [|c rest]; [congruence |].
    cbn [all_chars] in Hdig, Hfl.
    apply andb_true_iff in Hdig as [Hc Hrest].
    apply andb_true_iff in Hfl as [Hfc Hfrest].
    destruct rest as [|c2 rest'].
    + split; [| split].
      * rewrite all_chars_app, Htail. cbn [all_chars]. rewrite Hfc. reflexivity.
      * rewrite any_char_app. apply orb_true_iff. right. reflexivity.
      * eexists _, _. split; [reflexivity | exact Hc].
    + split; [| split].
      * rewrite all_chars_app, Htail. cbn [all_chars] in *.
        rewrite Hfc, Hfrest. reflexivity.
      * rewrite any_char_app. apply orb_true_iff. left.
        cbn [any_char]. apply orb_true_iff. right. reflexivity.
      * eexists _, _. split; [reflexivity | exact Hc].
  - destruct (decpt <=? 0)%Z eqn:E0.
    + split; [| split].
      * change ("0." ++ ?t)%string with (String "0" (String "." t)).
        cbn [all_chars]. rewrite all_chars_app, Hfl.
        rewrite (digits_float_chars _ (zeros_digits _)). reflexivity.
      * reflexivity.
      * eexists _, _. split; reflexivity.
    + apply Z.leb_gt in E0.
      destruct (decpt <? Z.of_nat (String.length ds))%Z eqn:En.
      * split; [| split].
        -- destruct (all_chars_take_drop float_char (Z.to_nat decpt) ds Hfl)
             as [Ht Hd].
           rewrite !all_chars_app, Ht, Hd. reflexivity.
        -- rewrite !any_char_app. apply orb_true_iff. right. reflexivity.
        -- destruct ds as [|c rest]; [congruence |].
           cbn [all_chars] in Hdig. apply andb_true_iff in Hdig as [Hc _].
           destruct (Z.to_nat decpt) as [|k] eqn:Ek; [lia |].
           cbn [Repr.take]. eexists _, _. split; [reflexivity | exact Hc].
      * split; [| split].
        -- rewrite !all_chars_app, Hfl.
           rewrite (digits_float_chars _ (zeros_digits _)). reflexivity.
        -- rewrite !any_char_app. apply orb_true_iff. right.
           apply orb_true_iff. right. reflexivity.
        -- destruct ds as [|c rest]; [congruence |].
           cbn [all_chars] in Hdig. apply andb_true_iff in Hdig as [Hc _].
           eexists _, _. split; [reflexivity | exact Hc].
Qed.

Lemma drop_underscores_none (s : string) :
  forall prev, Ascii.eqb prev "_" = false ->
    all_chars float_char s = true ->
    Host.drop_underscores prev s = Some s.
Proof.
  induction s as [|c s IH]; intros prev Hp Hs.
  - simpl. rewrite Hp. reflexivity.
  - cbn [all_chars] in Hs. apply andb_true_iff in Hs as [Hc Hs].
    destruct (float_char_word _ Hc) as [_ Hu].
    cbn [Host.drop_underscores]. rewrite Hu, Hp. cbn [andb].
    rewrite (IH c Hu Hs). reflexivity.
Qed.

Lemma int_body_bad (s : string) :
  any_char not_int_char s = true ->
  forall p a, Host.int_body p a s = None.
Proof.
  induction s as [|c s IH]; intros Hs p a; [discriminate |].
  cbn [any_char] in Hs. cbn [Host.int_body]. unfold not_int_char in Hs.
  destruct (Host.is_digit c); [apply IH, Hs |].
  destruct (Ascii.eqb c "_"); [| reflexivity].
  destruct p; [apply IH, Hs | reflexivity].
Qed.

Lemma strip_zeros_spec (fuel : nat) :
  forall d x, (0 < d)%Z ->
    let '(d1, x1) := Repr.strip_zeros fuel d x in
    (0 < d1 /\ x <= x1 /\ d = d1 * 10 ^ (x1 - x))%Z.
Proof.
  induction fuel as [|fuel IH]; intros d x Hd; cbn [Repr.strip_zeros].
  - rewrite Z.sub_diag. simpl. lia.
  - destruct ((d mod 10 =? 0) && negb (d =? 0))%Z eqn:E.
    + apply andb_true_iff in E as [Em _]. apply Z.eqb_eq in Em.
      assert (Hq : (0 < d / 10)%Z).
      { pose proof (Z.div_mod d 10 ltac:(lia)). lia. }
      specialize (IH (d / 10)%Z (x + 1)%Z Hq).
      destruct (Repr.strip_zeros fuel (d / 10) (x + 1)) as [d1 x1].
      destruct IH as (H1 & H2 & H3). split; [exact H1 |]. split; [lia |].
      replace (x1 - x)%Z with ((x1 - (x + 1)) + 1)%Z by lia.
      rewrite Z.pow_add_r by lia.
      pose proof (Z.div_mod d 10 ltac:(lia)). lia.
    + rewrite Z.sub_diag. simpl. lia.
Qed.

(** ** Binary64 numbers: rounding *)

Section Binary64.
Local Open Scope Z_scope.

Lemma fexp_fexp64 (z : Z) : fexp Host.prec Host.emax z = fexp64 z.
Proof. reflexivity. Qed.

Lemma fexp64_mono (a b : Z) : (a <= b) -> (fexp64 a <= fexp64 b).
Proof. unfold fexp64. lia. Qed.

Lemma digits2_size (p : positive) : digits2_pos p = Pos.size p.
Proof. induction p; simpl; congruence. Qed.

Lemma Zdigits2_log2 (m : Z) : (0 < m) -> Zdigits2 m = (Z.log2 m + 1).
Proof.
  destruct m as [|p|p]; try lia. intros _. simpl. rewrite digits2_size.
  destruct p; simpl; lia.
Qed.

Lemma Zdigits2_bounds (m : Z) :
  (0 < m) -> (2 ^ (Zdigits2 m - 1) <= m < 2 ^ Zdigits2 m).
Proof.
  intros Hm. rewrite (Zdigits2_log2 m Hm).
  replace (Z.log2 m + 1 - 1) with (Z.log2 m) by lia.
  replace (Z.log2 m + 1) with (Z.succ (Z.log2 m)) by lia.
  apply Z.log2_spec, Hm.
Qed.

Lemma Zdigits2_unique (m k : Z) :
  (2 ^ (k - 1) <= m < 2 ^ k) -> (0 < k) -> Zdigits2 m = k.
Proof.
  intros H Hk.
  assert (Hm : (0 < m)).
  { pose proof (Z.pow_pos_nonneg 2 (k - 1) ltac:(lia) ltac:(lia)). lia. }
  rewrite (Zdigits2_log2 m Hm).
  rewrite (Z.log2_unique m (k - 1)); [lia | lia |].
  replace (Z.succ (k - 1)) with k by lia. exact H.
Qed.

Lemma Zdigits2_nonneg (m : Z) : (0 <= Zdigits2 m).
Proof. destruct m; simpl; lia. Qed.

Lemma Zdigits2_pos (m : Z) : (0 < m) -> (0 < Zdigits2 m).
Proof. destruct m; simpl; lia. Qed.

Lemma Zdigits2_mul_pow2 (m k : Z) :
  (0 < m) -> (0 <= k) -> Zdigits2 (m * 2 ^ k) = (Zdigits2 m + k).
Proof.
  intros Hm Hk. pose proof (Zdigits2_bounds m Hm) as [Hlo Hhi].
  pose proof (Zdigits2_pos m Hm) as Hd.
  pose proof (Z.pow_pos_nonneg 2 k ltac:(lia) Hk) as Hp.
  apply Zdigits2_unique; [| lia]. split.
  - replace (Zdigits2 m + k - 1) with ((Zdigits2 m - 1) + k) by lia.
    rewrite Z.pow_add_r by lia. apply Z.mul_le_mono_nonneg_r; lia.
  - rewrite Z.pow_add_r by lia. apply Z.mul_lt_mono_pos_r; lia.
Qed.

Lemma Zdigits2_mono (a b : Z) :
  (0 <= a <= b) -> (Zdigits2 a <= Zdigits2 b).
Proof.
  intros [Ha Hab]. destruct (Z.eq_dec a 0) as [-> | Hne].
  - apply Zdigits2_nonneg.
  - rewrite !Zdigits2_log2 by lia.
    pose proof (Z.log2_le_mono a b Hab). lia.
Qed.

(** A quotient by a power of two loses that many digits. *)
Lemma Zdigits2_div_pow2 (m k : Z) :
  (0 < m) -> (0 <= k) ->
  (k < Zdigits2 m -> Zdigits2 (m / 2 ^ k) = Zdigits2 m - k /\ 0 < m / 2 ^ k) /\
  (Zdigits2 m <= k -> m / 2 ^ k = 0).
Proof.
  intros Hm Hk. pose proof (Zdigits2_bounds m Hm) as [Hlo Hhi].
  pose proof (Z.pow_pos_nonneg 2 k ltac:(lia) Hk) as Hp.
  split.
  - intros Hlt.
    assert (Hq : (2 ^ (Zdigits2 m - k - 1) <= m / 2 ^ k < 2 ^ (Zdigits2 m - k))).
    { split.
      - apply Z.div_le_lower_bound; [lia |].
        rewrite <- Z.pow_add_r by lia.
        replace (k + (Zdigits2 m - k - 1)) with (Zdigits2 m - 1) by lia.
        exact Hlo.
      - apply Z.div_lt_upper_bound; [lia |].
        rewrite <- Z.pow_add_r by lia.
        replace (k + (Zdigits2 m - k)) with (Zdigits2 m) by lia. exact Hhi. }
    split; [apply Zdigits2_unique; [exact Hq | lia] |].
    pose proof (Z.pow_pos_nonneg 2 (Zdigits2 m - k - 1) ltac:(lia) ltac:(lia)).
    lia.
  - intros Hge. apply Z.div_small. split; [lia |].
    apply Z.lt_le_trans with (1 := Hhi). apply Z.pow_le_mono_r; lia.
Qed.

(** *** Shifting a mantissa to the right *)

Lemma shr_1_m (mrs : shr_record) :
  (0 <= shr_m mrs) -> shr_m (shr_1 mrs) = (shr_m mrs / 2).
Proof.
  destruct mrs as [m r s]. simpl. intros Hm.
  destruct m as [|[p|p|]|p]; try lia; simpl.
  - reflexivity.
  - rewrite Pos2Z.inj_xI. apply (Z.div_unique _ _ _ 1); lia.
  - rewrite Pos2Z.inj_xO. apply (Z.div_unique _ _ _ 0); lia.
  - reflexivity.
Qed.

Lemma iter_shr_m (p : positive) :
  forall mrs, (0 <= shr_m mrs) ->
    shr_m (SpecFloat.iter_pos shr_1 p mrs) = (shr_m mrs / 2 ^ Zpos p).
Proof.
  induction p as [p IH | p IH |]; intros mrs Hm; cbn [SpecFloat.iter_pos].
  - assert (H1 : (0 <= shr_m (shr_1 mrs)))
      by (rewrite shr_1_m by lia; apply Z.div_pos; lia).
    assert (H2 : (0 <= shr_m (SpecFloat.iter_pos shr_1 p (shr_1 mrs))))
      by (rewrite IH by lia; apply Z.div_pos; lia).
    rewrite IH, IH, shr_1_m by lia.
    rewrite !Z.div_div by lia. f_equal.
    replace (Z.pos p~1) with (Z.pos p + Z.pos p + 1) by lia.
    rewrite !Z.pow_add_r by lia. ring.
  - assert (H2 : (0 <= shr_m (SpecFloat.iter_pos shr_1 p mrs)))
      by (rewrite IH by lia; apply Z.div_pos; lia).
    rewrite IH, IH by lia. rewrite Z.div_div by lia. f_equal.
    replace (Z.pos p~0) with (Z.pos p + Z.pos p) by lia.
    rewrite Z.pow_add_r by lia. reflexivity.
  - rewrite shr_1_m by lia. reflexivity.
Qed.

(** The mantissa and the exponent that [shr_fexp] gives when it has to
    shift to the right, or not at all. *)
Lemma shr_fexp_spec (m e : Z) (l : location) :
  (0 <= m) ->
  let n := (fexp64 (Zdigits2 m + e) - e) in
  (0 <= n) ->
  let '(mrs, e') := shr_fexp Host.prec Host.emax m e l in
  shr_m mrs = (m / 2 ^ n) /\ e' = (e + n).
Proof.
  intros Hm n Hn. unfold shr_fexp. rewrite fexp_fexp64. fold n.
  assert (Hrec : shr_m (shr_record_of_loc m l) = m)
    by (destruct l as [|[]]; reflexivity).
  unfold shr. destruct n as [|p|p] eqn:En; try lia.
  - rewrite Hrec, Z.div_1_r. split; [reflexivity | lia].
  - rewrite iter_shr_m by (rewrite Hrec; exact Hm). rewrite Hrec.
    split; reflexivity.
Qed.

(** After such a shift the mantissa has the digits its exponent asks for. *)
Lemma shr_fexp_canonical (m e : Z) (l : location) :
  (0 <= m) -> (0 <= fexp64 (Zdigits2 m + e) - e) ->
  let '(mrs, e') := shr_fexp Host.prec Host.emax m e l in
  (0 <= shr_m mrs) /\ fexp64 (Zdigits2 (shr_m mrs) + e') = e'.
Proof.
  intros Hm Hn. pose proof (shr_fexp_spec m e l Hm Hn) as H.
  destruct (shr_fexp Host.prec Host.emax m e l) as [mrs e'].
  destruct H as [-> ->].
  set (n := (fexp64 (Zdigits2 m + e) - e)) in *.
  split; [apply Z.div_pos; [lia | apply Z.pow_pos_nonneg; lia] |].
  destruct (Z.eq_dec m 0) as [-> | Hne].
  - rewrite Z.div_0_l by (apply Z.pow_nonzero; lia).
    subst n. simpl Zdigits2 in *. unfold fexp64 in *. lia.
  - destruct (Zdigits2_div_pow2 m n ltac:(lia) Hn) as [Hlt Hge].
    destruct (Z_lt_le_dec n (Zdigits2 m)) as [Hc | Hc].
    + destruct (Hlt Hc) as [-> _].
      replace (Zdigits2 m - n + (e + n)) with (Zdigits2 m + e) by lia.
      subst n. lia.
    + rewrite (Hge Hc). subst n. simpl Zdigits2. unfold fexp64 in *. lia.
Qed.

Lemma round_nearest_even_bounds (m : Z) (l : location) :
  m <= round_nearest_even m l <= m + 1.
Proof.
  destruct l as [|[]]; simpl; try lia. destruct (Z.even m); lia.
Qed.

(** [binary_round_aux] gives a well-formed binary64 number. *)
Lemma binary_round_aux_valid (sx : bool) (mx ex : Z) (lx : location) :
  0 <= mx -> ex <= fexp64 (Zdigits2 mx + ex) ->
  valid_binary Host.prec Host.emax
    (binary_round_aux Host.prec Host.emax sx mx ex lx) = true.
Proof.
  intros Hm Hpre. unfold binary_round_aux.
  pose proof (shr_fexp_canonical mx ex lx Hm ltac:(lia)) as H1.
  destruct (shr_fexp Host.prec Host.emax mx ex lx) as [mrs1 e1].
  destruct H1 as [Hm1 Hc1].
  pose proof (round_nearest_even_bounds (shr_m mrs1) (loc_of_shr_record mrs1))
    as Hr.
  set (m1 := round_nearest_even (shr_m mrs1) (loc_of_shr_record mrs1)) in *.
  assert (Hpre2 : 0 <= fexp64 (Zdigits2 m1 + e1) - e1).
  { pose proof (Zdigits2_mono (shr_m mrs1) m1 ltac:(lia)).
    pose proof (fexp64_mono (Zdigits2 (shr_m mrs1) + e1) (Zdigits2 m1 + e1)
                  ltac:(lia)). lia. }
  pose proof (shr_fexp_canonical m1 e1 loc_Exact ltac:(lia) Hpre2) as H2.
  destruct (shr_fexp Host.prec Host.emax m1 e1 loc_Exact) as [mrs2 e2].
  destruct H2 as [Hm2 Hc2].
  destruct (shr_m mrs2) as [|m|m] eqn:Em; try reflexivity.
  destruct (e2 <=? Host.emax - Host.prec) eqn:Eb; [| reflexivity].
  simpl. unfold bounded, canonical_mantissa. rewrite fexp_fexp64.
  simpl Zdigits2 in Hc2. rewrite Hc2, Z.eqb_refl, Eb. reflexivity.
Qed.

Lemma iter_xO (d : positive) (p : positive) :
  Zpos (Pos.iter xO p d) = Zpos p * 2 ^ Zpos d.
Proof.
  induction d as [|d IH] using Pos.peano_ind.
  - simpl. lia.
  - rewrite Pos.iter_succ, Pos2Z.inj_xO, IH, Pos2Z.inj_succ, Z.pow_succ_r by lia.
    ring.
Qed.

Lemma shl_align_spec (mx : positive) (ex ex' : Z) :
  let '(mz, ez) := shl_align mx ex ex' in
  ez = Z.min ex ex' /\ Zpos mz = Zpos mx * 2 ^ (ex - ez).
Proof.
  unfold shl_align. destruct (ex' - ex) as [|d|d] eqn:E.
  - split; [lia |]. replace (ex - ex) with 0 by lia. simpl. lia.
  - split; [lia |]. replace (ex - ex) with 0 by lia. simpl. lia.
  - split; [lia |]. rewrite iter_xO. f_equal. f_equal. lia.
Qed.

Lemma binary_round_valid (sx : bool) (mx : positive) (ex : Z) :
  valid_binary Host.prec Host.emax (binary_round Host.prec Host.emax sx mx ex)
  = true.
Proof.
  unfold binary_round. rewrite fexp_fexp64.
  pose proof (shl_align_spec mx ex (fexp64 (Zpos (digits2_pos mx) + ex))) as H.
  destruct (shl_align mx ex _) as [mz ez]. destruct H as [Hez Hmz].
  apply binary_round_aux_valid; [lia |].
  rewrite Hmz, Zdigits2_mul_pow2 by lia.
  replace (Zdigits2 (Zpos mx) + (ex - ez) + ez) with (Zpos (digits2_pos mx) + ex)
    by (simpl; lia).
  lia.
Qed.

Lemma div_eucl_div_mod (a b : Z) :
  Z.div_eucl a b = (a / b, a mod b).
Proof.
  unfold Z.div, Z.modulo. destruct (Z.div_eucl a b). reflexivity.
Qed.

(** The quotient and the exponent that the division works with. *)
Lemma SFdiv_core_spec (m1 m2 : positive) :
  let d1 := Zdigits2 (Zpos m1) in
  let d2 := Zdigits2 (Zpos m2) in
  let e' := Z.min (fexp64 (d1 - d2)) 0 in
  SFdiv_core_binary Host.prec Host.emax (Zpos m1) 0 (Zpos m2) 0 =
  ((Zpos m1 * 2 ^ (- e')) / Zpos m2, e',
   new_location (Zpos m2) ((Zpos m1 * 2 ^ (- e')) mod Zpos m2)).
Proof.
  intros d1 d2 e'. unfold SFdiv_core_binary. rewrite fexp_fexp64.
  replace (Zdigits2 (Zpos m1) + 0 - (Zdigits2 (Zpos m2) + 0)) with (d1 - d2)
    by (subst d1 d2; lia).
  change (0 - 0) with 0. fold e'.
  replace (0 - e') with (- e') by lia.
  assert (Hs : 0 <= - e') by lia.
  assert (Hm : match - e' with
               | 0 => Zpos m1
               | Zpos _ => Z.shiftl (Zpos m1) (- e')
               | Zneg _ => 0
               end = Zpos m1 * 2 ^ (- e')).
  { destruct (- e') as [|p|p] eqn:E; try lia.
    rewrite Z.shiftl_mul_pow2 by lia. reflexivity. }
  rewrite Hm, div_eucl_div_mod. reflexivity.
Qed.

Lemma fdiv_valid (s1 s2 : bool) (m1 m2 : positive) :
  valid_binary Host.prec Host.emax
    (Host.fdiv (S754_finite s1 m1 0) (S754_finite s2 m2 0)) = true.
Proof.
  unfold Host.fdiv, SFdiv. rewrite SFdiv_core_spec.
  set (d1 := Zdigits2 (Zpos m1)). set (d2 := Zdigits2 (Zpos m2)).
  set (e' := Z.min (fexp64 (d1 - d2)) 0).
  set (q := Zpos m1 * 2 ^ (- e') / Zpos m2).
  assert (Hs : 0 <= - e') by lia.
  pose proof (Z.pow_pos_nonneg 2 (- e') ltac:(lia) Hs) as Hp.
  assert (Hq : 0 <= q) by (apply Z.div_pos; lia).
  apply binary_round_aux_valid; [exact Hq |].
  assert (Hd : d1 - e' - d2 <= Zdigits2 q).
  { destruct (Z_le_gt_dec (d1 - e' - d2) 0) as [Hle | Hgt].
    - pose proof (Zdigits2_nonneg q). lia.
    - set (k := d1 - e' - d2 - 1).
      assert (Hk : 0 <= k) by (subst k; lia).
      pose proof (Zdigits2_bounds (Zpos m1) ltac:(lia)) as [Hlo1 _].
      pose proof (Zdigits2_bounds (Zpos m2) ltac:(lia)) as [_ Hhi2].
      fold d1 in Hlo1. fold d2 in Hhi2.
      pose proof (Zdigits2_pos (Zpos m2) ltac:(lia)) as Hd2. fold d2 in Hd2.
      pose proof (Zdigits2_pos (Zpos m1) ltac:(lia)) as Hd1. fold d1 in Hd1.
      assert (Hqk : 2 ^ k <= q).
      { apply Z.div_le_lower_bound; [lia |].
        apply Z.le_trans with (2 ^ d2 * 2 ^ k).
        - apply Z.mul_le_mono_nonneg_r; [apply Z.pow_nonneg; lia | lia].
        - rewrite <- Z.pow_add_r by lia.
          replace (d2 + k) with ((d1 - 1) + (- e')) by (subst k; lia).
          rewrite Z.pow_add_r by lia.
          apply Z.mul_le_mono_nonneg_r; lia. }
      pose proof (Zdigits2_mono (2 ^ k) q
                    ltac:(split; [apply Z.pow_nonneg; lia | exact Hqk])) as Hmono.
      assert (Hdk : Zdigits2 (2 ^ k) = k + 1).
      { replace (2 ^ k) with (1 * 2 ^ k) by lia.
        rewrite Zdigits2_mul_pow2 by lia. simpl. lia. }
      subst k. lia. }
  pose proof (fexp64_mono (d1 - d2) (Zdigits2 q + e') ltac:(lia)). lia.
Qed.

Lemma float_of_decimal_valid (neg : bool) (n e : Z) :
  valid_binary Host.prec Host.emax (Host.float_of_decimal neg n e) = true.
Proof.
  unfold Host.float_of_decimal. destruct (0 <=? e).
  - destruct (n * 10 ^ e); try reflexivity. apply binary_round_valid.
  - unfold Host.float_of_ratio. destruct n; try reflexivity.
    destruct (10 ^ (- e)); try reflexivity. apply fdiv_valid.
Qed.

(** *** Exact values are read exactly *)

Lemma iter_shr_exact (p : positive) :
  forall m, 0 < m ->
    SpecFloat.iter_pos shr_1 p (Build_shr_record (m * 2 ^ Zpos p) false false)
    = Build_shr_record m false false.
Proof.
  assert (Hstep : forall m, 0 < m ->
            shr_1 (Build_shr_record (m * 2) false false)
            = Build_shr_record m false false).
  { intros m Hm. destruct m as [|q|q]; try lia.
    replace (Zpos q * 2) with (Zpos q~0) by lia. reflexivity. }
  induction p as [p IH | p IH |]; intros m Hm; cbn [SpecFloat.iter_pos].
  - replace (m * 2 ^ Zpos p~1) with ((m * 2 ^ Zpos p * 2 ^ Zpos p) * 2).
    2:{ replace (Zpos p~1) with (Zpos p + Zpos p + 1) by lia.
        rewrite !Z.pow_add_r by lia. ring. }
    pose proof (Z.pow_pos_nonneg 2 (Zpos p) ltac:(lia) ltac:(lia)).
    rewrite Hstep by nia. rewrite IH by nia. apply IH, Hm.
  - replace (m * 2 ^ Zpos p~0) with (m * 2 ^ Zpos p * 2 ^ Zpos p).
    2:{ replace (Zpos p~0) with (Zpos p + Zpos p) by lia.
        rewrite !Z.pow_add_r by lia. ring. }
    pose proof (Z.pow_pos_nonneg 2 (Zpos p) ltac:(lia) ltac:(lia)).
    rewrite IH by nia. apply IH, Hm.
  - replace (m * 2 ^ 1) with (m * 2) by lia. apply Hstep, Hm.
Qed.

Lemma bounded_spec (m : positive) (e : Z) :
  bounded Host.prec Host.emax m e = true ->
  fexp64 (Zdigits2 (Zpos m) + e) = e /\ e <= 971.
Proof.
  unfold bounded, canonical_mantissa. rewrite fexp_fexp64.
  intros [H1 H2]%andb_true_iff. apply Z.eqb_eq in H1. apply Z.leb_le in H2.
  split; [exact H1 | exact H2].
Qed.

(** Rounding [m * 2^k] at the exponent [e - k] of a well-formed [m * 2^e]
    gives that number. *)
Lemma binary_round_aux_exact (sx : bool) (m : positive) (e k : Z) :
  bounded Host.prec Host.emax m e = true -> 0 <= k ->
  binary_round_aux Host.prec Host.emax sx (Zpos m * 2 ^ k) (e - k) loc_Exact
  = S754_finite sx m e.
Proof.
  intros Hb Hk. destruct (bounded_spec m e Hb) as [Hc He].
  pose proof (Z.pow_pos_nonneg 2 k ltac:(lia) Hk) as Hp.
  unfold binary_round_aux.
  assert (H1 : shr_fexp Host.prec Host.emax (Zpos m * 2 ^ k) (e - k) loc_Exact
               = (Build_shr_record (Zpos m) false false, e)).
  { unfold shr_fexp. rewrite fexp_fexp64, Zdigits2_mul_pow2 by lia.
    replace (Zdigits2 (Zpos m) + k + (e - k)) with (Zdigits2 (Zpos m) + e) by lia.
    rewrite Hc. replace (e - (e - k)) with k by lia.
    unfold shr, shr_record_of_loc. destruct k as [|p|p]; try lia.
    - rewrite Z.pow_0_r, Z.mul_1_r. f_equal. lia.
    - rewrite iter_shr_exact by lia. f_equal. lia. }
  rewrite H1. cbn [shr_m loc_of_shr_record round_nearest_even].
  assert (H2 : shr_fexp Host.prec Host.emax (Zpos m) e loc_Exact
               = (Build_shr_record (Zpos m) false false, e)).
  { unfold shr_fexp. rewrite fexp_fexp64, Hc, Z.sub_diag. reflexivity. }
  rewrite H2. cbn [shr_m].
  replace (e <=? Host.emax - Host.prec) with true; [reflexivity |].
  symmetry. apply Z.leb_le. unfold Host.emax, Host.prec. lia.
Qed.

Lemma new_location_zero (n : Z) : new_location n 0 = loc_Exact.
Proof.
  unfold new_location, new_location_even, new_location_odd.
  destruct (Z.even n); reflexivity.
Qed.

Lemma pow2_lt_inv (a b : Z) : 0 <= b -> 2 ^ a < 2 ^ b -> a < b.
Proof.
  intros Hb H. destruct (Z_lt_le_dec a b) as [Hlt | Hge]; [exact Hlt |].
  pose proof (Z.pow_le_mono_r 2 b a ltac:(lia) Hge). lia.
Qed.

(** A decimal whose value is the well-formed binary64 number [m * 2^e] is
    read as that number. *)
Lemma float_of_decimal_exact (neg : bool) (M X : Z) (m : positive) (e : Z) :
  0 < M -> same_number M X (Zpos m) e ->
  bounded Host.prec Host.emax m e = true ->
  Host.float_of_decimal neg M X = S754_finite neg m e.
Proof.
  intros HM Hsame Hb. destruct (bounded_spec m e Hb) as [Hc He].
  unfold same_number in Hsame. unfold Host.float_of_decimal.
  pose proof (Zdigits2_pos (Zpos m) ltac:(lia)) as Hdm.
  destruct (0 <=? X) eqn:EX.
  - apply Z.leb_le in EX.
    rewrite Z.max_l, (Z.max_r (- X) 0), Z.pow_0_r, Z.mul_1_r in Hsame by lia.
    pose proof (Z.pow_pos_nonneg 10 X ltac:(lia) EX) as Hten.
    destruct (M * 10 ^ X) as [|p|p] eqn:EV; try nia.
    unfold binary_round. rewrite fexp_fexp64.
    pose proof (shl_align_spec p 0 (fexp64 (Zpos (digits2_pos p) + 0))) as Hal.
    destruct (shl_align p 0 _) as [mz ez]. destruct Hal as [Hez Hmz].
    assert (Hd : Zpos (digits2_pos p) + 0 = Zdigits2 (Zpos m) + e).
    { change (Zpos (digits2_pos p)) with (Zdigits2 (Zpos p)).
      destruct (Z_le_gt_dec 0 e) as [He0 | He0].
      - rewrite Z.max_r, Z.pow_0_r, Z.mul_1_r, Z.max_l in Hsame by lia.
        rewrite Hsame, Zdigits2_mul_pow2 by lia. lia.
      - rewrite Z.max_l, (Z.max_r e 0), Z.pow_0_r, Z.mul_1_r in Hsame by lia.
        rewrite <- Hsame, Zdigits2_mul_pow2 by lia. lia. }
    rewrite Hd, Hc in Hez.
    destruct (Z_le_gt_dec 0 e) as [He0 | He0].
    + rewrite Z.max_r, Z.pow_0_r, Z.mul_1_r, Z.max_l in Hsame by lia.
      rewrite Z.min_l in Hez by lia. subst ez.
      rewrite Z.sub_diag, Z.pow_0_r, Z.mul_1_r in Hmz. rewrite Hmz, Hsame.
      replace 0 with (e - e) at 1 by lia.
      apply binary_round_aux_exact; [exact Hb | exact He0].
    + rewrite Z.max_l, (Z.max_r e 0), Z.pow_0_r, Z.mul_1_r in Hsame by lia.
      rewrite Z.min_r in Hez by lia. subst ez.
      replace (0 - e) with (- e) in Hmz by lia. rewrite Hmz, Hsame.
      replace (Zpos m) with (Zpos m * 2 ^ 0) by (rewrite Z.pow_0_r; lia).
      replace e with (e - 0) at 1 by lia.
      apply binary_round_aux_exact; [exact Hb | lia].
  - apply Z.leb_gt in EX.
    rewrite (Z.max_r X 0), Z.pow_0_r, Z.mul_1_r, (Z.max_l (- X) 0) in Hsame by lia.
    pose proof (Z.pow_pos_nonneg 10 (- X) ltac:(lia) ltac:(lia)) as Hten.
    unfold Host.float_of_ratio.
    destruct M as [|pn|pn]; try lia.
    destruct (10 ^ (- X)) as [|pd|pd] eqn:ED; try lia.
    unfold Host.fdiv, SFdiv. rewrite SFdiv_core_spec.
    set (d1 := Zdigits2 (Zpos pn)). set (d2 := Zdigits2 (Zpos pd)).
    set (e' := Z.min (fexp64 (d1 - d2)) 0).
    pose proof (Zdigits2_bounds (Zpos pn) ltac:(lia)) as [Hlo1 _]. fold d1 in Hlo1.
    pose proof (Zdigits2_bounds (Zpos pd) ltac:(lia)) as [_ Hhi2]. fold d2 in Hhi2.
    pose proof (Zdigits2_bounds (Zpos m) ltac:(lia)) as [_ Hhim].
    pose proof (Zdigits2_pos (Zpos pn) ltac:(lia)) as Hd1. fold d1 in Hd1.
    pose proof (Zdigits2_pos (Zpos pd) ltac:(lia)) as Hd2. fold d2 in Hd2.
    assert (Hdd : d1 - d2 <= Zdigits2 (Zpos m) + e).
    { destruct (Z_le_gt_dec 0 e) as [He0 | He0].
      - rewrite Z.max_r, Z.pow_0_r, Z.mul_1_r, Z.max_l in Hsame by lia.
        pose proof (Z.pow_pos_nonneg 2 e ltac:(lia) He0) as Hpe.
        assert (Hlt : 2 ^ (d1 - 1) < 2 ^ (Zdigits2 (Zpos m) + e + d2)).
        { apply Z.le_lt_trans with (1 := Hlo1). rewrite Hsame.
          rewrite !Z.pow_add_r by lia.
          apply Z.mul_lt_mono_nonneg; try lia.
          apply Z.mul_lt_mono_pos_r; lia. }
        apply pow2_lt_inv in Hlt; lia.
      - rewrite Z.max_l, (Z.max_r e 0), Z.pow_0_r, Z.mul_1_r in Hsame by lia.
        pose proof (Z.pow_pos_nonneg 2 (- e) ltac:(lia) ltac:(lia)) as Hpe.
        assert (Hlt : 2 ^ (d1 - 1 + - e) < 2 ^ (Zdigits2 (Zpos m) + d2)).
        { rewrite (Z.pow_add_r 2 (d1 - 1)) by lia.
          apply Z.le_lt_trans with (Zpos pn * 2 ^ (- e)).
          - apply Z.mul_le_mono_nonneg_r; lia.
          - rewrite Hsame, Z.pow_add_r by lia.
            apply Z.mul_lt_mono_nonneg; lia. }
        apply pow2_lt_inv in Hlt; lia. }
    assert (He' : e' <= e).
    { pose proof (fexp64_mono _ _ Hdd). subst e'. lia. }
    assert (Hnum : Zpos pn * 2 ^ (- e') = (Zpos m * 2 ^ (e - e')) * Zpos pd).
    { destruct (Z_le_gt_dec 0 e) as [He0 | He0].
      - rewrite Z.max_r, Z.pow_0_r, Z.mul_1_r, Z.max_l in Hsame by lia.
        rewrite Hsame. replace (e - e') with (e + - e') by lia.
        rewrite Z.pow_add_r by lia. ring.
      - rewrite Z.max_l, (Z.max_r e 0), Z.pow_0_r, Z.mul_1_r in Hsame by lia.
        replace (- e') with (- e + (e - e')) by lia.
        rewrite Z.pow_add_r, Z.mul_assoc, Hsame by lia. ring. }
    rewrite Hnum, Z.div_mul, Z.mod_mul, new_location_zero by lia.
    rewrite xorb_false_r.
    replace e' with (e - (e - e')) at 2 by lia.
    apply binary_round_aux_exact; [exact Hb | lia].
Qed.

End Binary64.

(** *** Decimals and binary numbers of the same value *)

Section SameNumber.
Local Open Scope Z_scope.

Lemma exact_decimal_same (m : positive) (e : Z) :
  let '(n, x) := Repr.exact_decimal m e in
  0 < n /\ same_number n x (Zpos m) e.
Proof.
  unfold Repr.exact_decimal, same_number. destruct (0 <=? e) eqn:E.
  - apply Z.leb_le in E.
    pose proof (Z.pow_pos_nonneg 2 e ltac:(lia) E).
    split; [nia |].
    rewrite (Z.max_r (- e) 0), (Z.max_l e 0), (Z.max_r (- 0) 0) by lia.
    rewrite Z.max_l by lia. rewrite !Z.pow_0_r. ring.
  - apply Z.leb_gt in E.
    pose proof (Z.pow_pos_nonneg 5 (- e) ltac:(lia) ltac:(lia)).
    split; [nia |].
    rewrite (Z.max_r e 0), (Z.max_l (- e) 0) by lia.
    rewrite Z.pow_0_r. replace 10 with (2 * 5) by reflexivity.
    rewrite Z.pow_mul_l. ring.
Qed.

Lemma same_number_strip (d x d1 x1 m e : Z) :
  x <= x1 -> d = d1 * 10 ^ (x1 - x) ->
  same_number d x m e -> same_number d1 x1 m e.
Proof.
  unfold same_number. intros Hx -> H.
  set (B := 2 ^ Z.max (- e) 0) in *. set (C := 2 ^ Z.max e 0) in *.
  pose proof (Z.pow_pos_nonneg 10 (x1 - x) ltac:(lia) ltac:(lia)) as Hp.
  destruct (Z_le_gt_dec 0 x) as [H0 | H0].
  - rewrite (Z.max_l x 0), (Z.max_r (- x) 0) in H by lia.
    rewrite (Z.max_l x1 0), (Z.max_r (- x1) 0) by lia.
    replace x1 with ((x1 - x) + x) at 1 by lia.
    rewrite Z.pow_add_r by lia. rewrite <- H. ring.
  - rewrite (Z.max_r x 0), (Z.max_l (- x) 0), Z.pow_0_r in H by lia.
    destruct (Z_le_gt_dec 0 x1) as [H1 | H1].
    + rewrite (Z.max_l x1 0), (Z.max_r (- x1) 0), Z.pow_0_r by lia.
      replace (x1 - x) with (x1 + - x) in H by lia.
      rewrite Z.pow_add_r in H by lia.
      pose proof (Z.pow_pos_nonneg 10 (- x) ltac:(lia) ltac:(lia)) as Hq.
      apply (Z.mul_reg_r _ _ (10 ^ (- x))); [lia |].
      transitivity (m * C * 10 ^ (- x)); [rewrite <- H; ring | ring].
    + rewrite (Z.max_r x1 0), (Z.max_l (- x1) 0), Z.pow_0_r by lia.
      replace (- x) with (- x1 + (x1 - x)) in H by lia.
      rewrite Z.pow_add_r in H by lia.
      apply (Z.mul_reg_r _ _ (10 ^ (x1 - x))); [lia |].
      transitivity (d1 * 10 ^ (x1 - x) * 1 * B); [ring |].
      rewrite H. ring.
Qed.

Lemma same_number_point_zero (d1 x1 m e : Z) :
  0 <= x1 -> same_number d1 x1 m e ->
  same_number (d1 * 10 ^ (x1 + 1)) (-1) m e.
Proof.
  unfold same_number. intros Hx H.
  rewrite (Z.max_l x1 0), (Z.max_r (- x1) 0), Z.pow_0_r in H by lia.
  change (Z.max (-1) 0) with 0. change (Z.max (- -1) 0) with 1.
  rewrite Z.pow_add_r, Z.pow_0_r, !Z.pow_1_r by lia.
  transitivity ((d1 * 10 ^ x1 * 2 ^ Z.max (- e) 0) * 10); [ring |].
  rewrite H. ring.
Qed.

End SameNumber.

(** *** The text of a decimal *)

Lemma float_eqb_refl (f : spec_float) : Repr.float_eqb f f = true.
Proof.
  destruct f as [s | s | | s m e]; simpl.
  - destruct s; reflexivity.
  - destruct s; reflexivity.
  - reflexivity.
  - rewrite Pos.eqb_refl, Z.eqb_refl. destruct s; reflexivity.
Qed.

(** The text of a positive decimal: float characters only; [int] does
    not read it; [float] reads it as the nearest binary64 number of a
    decimal of the same value. *)
Lemma decimal_text_facts (neg : bool) (d x : Z) :
  (0 < d)%Z ->
  let t := Repr.decimal_text neg d x in
  is_word t = true /\
  Host.py_int t = None /\
  exists M X,
    Host.py_float t = Some (Host.float_of_decimal neg M X) /\
    (0 < M)%Z /\
    forall m e, same_number d x m e -> same_number M X m e.
Proof.
  intros Hd t. subst t. unfold Repr.decimal_text.
  pose proof (strip_zeros_spec (String.length (Host.str_nat d)) d x Hd) as Hs.
  destruct (Repr.strip_zeros _ d x) as [d1 x1]. destruct Hs as (Hd1 & Hx & Hdd).
  set (ds := Host.str_nat d1).
  set (body := Repr.layout ds (x1 + Z.of_nat (String.length ds))).
  pose proof (str_nat_digits d1) as Hdig. fold ds in Hdig.
  pose proof (str_nat_nonempty d1) as Hne. fold ds in Hne.
  pose proof (str_nat_val d1 ltac:(lia)) as Hval. fold ds in Hval.
  destruct (layout_shape ds (x1 + Z.of_nat (String.length ds)) Hdig Hne)
    as (Hfl & Hbad & c & r & Hbody & Hc).
  fold body in Hfl, Hbad, Hbody.
  set (t := ((if neg then "-" else "") ++ body)%string).
  assert (Htfl : all_chars float_char t = true).
  { subst t. rewrite all_chars_app, Hfl. destruct neg; reflexivity. }
  assert (Htw : all_chars word_char t = true).
  { apply (all_chars_impl float_char); [| exact Htfl].
    intros c' Hc'. apply float_char_word, Hc'. }
  assert (Hsign : Host.read_sign t = (neg, body)).
  { subst t. destruct neg.
    - reflexivity.
    - change ("" ++ body)%string with body. rewrite Hbody.
      apply read_sign_digit, Hc. }
  split; [| split].
  - unfold is_word. rewrite Htw, andb_true_r. apply negb_true_iff.
    apply String.eqb_neq. subst t. rewrite Hbody. destruct neg; discriminate.
  - unfold Host.py_int. rewrite (strip_word _ Htw), Hsign.
    rewrite (int_body_bad _ Hbad). reflexivity.
  - destruct (layout_read neg ds d1 x1 Hdig Hne Hval) as (M & X & Hread & HMX).
    fold body in Hread.
    exists M, X. split; [| split].
    + unfold Host.py_float. rewrite (strip_word _ Htw).
      rewrite (drop_underscores_none t " " eq_refl Htfl).
      cbn [mbind option_bind]. rewrite Hsign, Hread. reflexivity.
    + destruct HMX as [[-> _] | (Hx1 & -> & _)]; [exact Hd1 |].
      pose proof (Z.pow_pos_nonneg 10 (x1 + 1) ltac:(lia) ltac:(lia)). nia.
    + intros m e Hsame.
      pose proof (same_number_strip d x d1 x1 m e Hx Hdd Hsame) as H1.
      destruct HMX as [[-> ->] | (Hx1 & -> & ->)]; [exact H1 |].
      apply same_number_point_zero; assumption.
Qed.

Lemma reads_as_spec (t : string) (f : spec_float) :
  Repr.reads_as t f = true -> Host.py_float t = Some f.
Proof.
  unfold Repr.reads_as. destruct (Host.py_float t) as [g|]; [| discriminate].
  intros ->%float_eqb_eq. reflexivity.
Qed.

(** Whatever the search settles on is a decimal that [float] reads as the
    target, or the exact decimal. *)
Lemma shortest_text_cases (Q : string -> Prop) (neg : bool) (n x : Z)
    (f : spec_float) :
  (0 <= n)%Z ->
  (forall d x', (0 < d)%Z ->
     Repr.reads_as (Repr.decimal_text neg d x') f = true ->
     Q (Repr.decimal_text neg d x')) ->
  Q (Repr.decimal_text neg n x) ->
  forall k, Q (Repr.shortest_text k neg n x f).
Proof.
  intros Hn Hacc Hexact k. induction k as [|k IH].
  - cbn [Repr.shortest_text].
    set (lo := (n / 10 ^ Z.of_nat 0)%Z).
    assert (Hlo : (0 <= lo)%Z) by (apply Z.div_pos; [exact Hn | reflexivity]).
    destruct ((0 <? lo)%Z && Repr.reads_as _ f) eqn:E1.
    + apply andb_true_iff in E1 as [Hpos Hr]. apply Z.ltb_lt in Hpos.
      match goal with |- Q (if ?c then _ else _) => destruct c eqn:E2 end.
      * apply andb_true_iff in E2 as [_ Hr2]. apply Hacc; [lia | exact Hr2].
      * apply Hacc; assumption.
    + destruct (Repr.reads_as (Repr.decimal_text neg (lo + 1) _) f) eqn:E3.
      * apply Hacc; [lia | exact E3].
      * exact Hexact.
  - cbn [Repr.shortest_text].
    set (lo := (n / 10 ^ Z.of_nat (S k))%Z).
    assert (Hlo : (0 <= lo)%Z).
    { apply Z.div_pos; [exact Hn | apply Z.pow_pos_nonneg; lia]. }
    destruct ((0 <? lo)%Z && Repr.reads_as _ f) eqn:E1.
    + apply andb_true_iff in E1 as [Hpos Hr]. apply Z.ltb_lt in Hpos.
      match goal with |- Q (if ?c then _ else _) => destruct c eqn:E2 end.
      * apply andb_true_iff in E2 as [_ Hr2]. apply Hacc; [lia | exact Hr2].
      * apply Hacc; assumption.
    + destruct (Repr.reads_as (Repr.decimal_text neg (lo + 1) _) f) eqn:E3.
      * apply Hacc; [lia | exact E3].
      * exact IH.
Qed.

(** [str] of a well-formed float is a word that [atom] reads back as the
    same float. *)
Lemma float_str_reads_back (f : spec_float) :
  valid_binary Host.prec Host.emax f = true -> float_reads_back f = true.
Proof.
  intros Hv. destruct f as [s | s | | s m e].
  - destruct s; vm_compute; reflexivity.
  - destruct s; vm_compute; reflexivity.
  - vm_compute. reflexivity.
  - simpl in Hv.
    assert (HQ : is_word (Repr.float_str (S754_finite s m e)) = true /\
                 atom (Repr.float_str (S754_finite s m e))
                 = Float (S754_finite s m e)).
    { cbn [Repr.float_str].
      pose proof (exact_decimal_same m e) as Hex.
      destruct (Repr.exact_decimal m e) as [n x]. destruct Hex as [Hn Hsame].
      apply shortest_text_cases; [lia | |].
      - intros d x' Hd Hr.
        destruct (decimal_text_facts s d x' Hd) as (Hw & Hi & _).
        split; [exact Hw |]. unfold atom.
        rewrite Hi, (reads_as_spec _ _ Hr). reflexivity.
      - destruct (decimal_text_facts s n x Hn) as (Hw & Hi & M & X & Hf & HM & Ht).
        split; [exact Hw |]. unfold atom. rewrite Hi, Hf.
        rewrite (float_of_decimal_exact s M X m e HM (Ht _ _ Hsame) Hv).
        reflexivity. }
    destruct HQ as [Hw Ha]. unfold float_reads_back.
    rewrite Hw, Ha, float_eqb_refl. reflexivity.
Qed.

Lemma read_decimal_valid (neg : bool) (s : string) (f : spec_float) :
  Host.read_decimal neg s = Some f ->
  valid_binary Host.prec Host.emax f = true.
Proof.
  unfold Host.read_decimal.
  destruct (Host.read_digits 0 0 s) as [[ip ni] r1].
  destruct (match r1 with
            | EmptyString => (ip, 0%Z, r1)
            | String c r =>
                if Ascii.eqb c "." then Host.read_digits ip 0 r else (ip, 0%Z, r1)
            end) as [[m nf] r2].
  destruct (0 <? ni + nf)%Z; [| discriminate].
  destruct (Host.read_exponent r2) as [x|]; [| discriminate].
  cbn [mbind option_bind]. intros [= <-]. apply float_of_decimal_valid.
Qed.

(** [float] returns well-formed binary64 numbers. *)
Lemma py_float_valid (t : string) (f : spec_float) :
  Host.py_float t = Some f -> valid_binary Host.prec Host.emax f = true.
Proof.
  unfold Host.py_float.
  destruct (Host.drop_underscores " " (Host.strip t)) as [u|]; [| discriminate].
  cbn [mbind option_bind]. destruct (Host.read_sign u) as [neg body].
  destruct (Host.read_decimal neg body) as [g|] eqn:E.
  - intros [= <-]. eapply read_decimal_valid, E.
  - destruct (String.eqb _ "inf" || String.eqb _ "infinity").
    + intros [= <-]. reflexivity.
    + destruct (String.eqb _ "nan"); [intros [= <-]; reflexivity | discriminate].
Qed.

(** Every expression that [parse] builds renders and reads back. *)
Lemma parsed_of_words (x : value) : parsed_with float_of_word x -> parsed x.
Proof.
  intros H. induction H as [z | f Hf | t Hw Ha | l Hall IH] using parsed_with_ind'.
  - constructor.
  - constructor. destruct Hf as (t & _ & Ht).
    apply float_str_reads_back. eapply py_float_valid, Ht.
  - constructor; assumption.
  - constructor. exact IH.
Qed.

(** C6: rendering the result of [parse] gives a normal form.  For every
    well-parenthesized text, [parse] gives an expression whose rendering
    [t] is parsed back to the same expression and hence rendered to [t]
    again: [render (parse (render (parse s)))] is [render (parse s)].
    [parse "(+ 1 2)"] is the list of the symbol [+] and the integers 1 and
    2. *)
Theorem render_parse_normal_form :
  parse "(+ 1 2)" = Ok (List [Symbol "+"; Int 1; Int 2]) /\
  forall program,
    well_parenthesized program = true ->
    exists x t,
      parse program = Ok x /\
      render (parse program) = Some t /\
      parse t = Ok x /\
      render (parse t) = render (parse program).
Proof.
  split; [reflexivity |].
  intros program Hw.
  destruct (parse_cases program) as [(x & Hp & _) | [_ Hn]]; [| congruence].
  destruct (parse_lispstr x (parsed_of_words x (parse_shape _ _ Hp)))
    as (t & Ht & Hpt).
  exists x, t. rewrite Hp, Hpt. simpl. auto.
Qed.

Lemma render_parse_normal_form_witness :
  well_parenthesized "(define (sq  x)   (* x 2.50 -3 1e3 () (a)))" = true /\
  exists x t,
    parse "(define (sq  x)   (* x 2.50 -3 1e3 () (a)))" = Ok x /\
    render (parse "(define (sq  x)   (* x 2.50 -3 1e3 () (a)))") = Some t /\
    parse t = Ok x /\
    render (parse t)
    = render (parse "(define (sq  x)   (* x 2.50 -3 1e3 () (a)))").
Proof.
  split; [reflexivity |].
  apply (proj2 render_parse_normal_form). reflexivity.
Defined.

(** The normal form of that text, computed. *)
Example render_parse_example :
  render (parse "(define (sq  x)   (* x 2.50 -3 1e3 () (a)))")
  = Some "(define (sq x) (* x 2.5 -3 1000.0 () (a)))".
Proof. vm_compute. reflexivity. Qed.

(** * Further properties of the code *)

(** ** The tokenizer *)

Lemma scan_app (a : string) :
  forall w q, boundary q = true ->
    scan w (a ++ q)%string = scan w a ++ scan "" q.
Proof.
  induction a as [|d a IH]; intros w q Hq.
  - change ("" ++ q)%string with q. destruct q as [|c r].
    + simpl. rewrite app_nil_r. reflexivity.
    + cbn [boundary] in Hq. rewrite !scan_cons. cbn [scan Host.flush app].
      destruct (is_paren c); [reflexivity |].
      rewrite orb_false_r in Hq. rewrite Hq. reflexivity.
  - rewrite string_app_cons, !scan_cons.
    destruct (is_paren d).
    + rewrite (IH _ _ Hq), <- app_assoc. reflexivity.
    + destruct (Host.is_space d).
      * rewrite (IH _ _ Hq), <- app_assoc. reflexivity.
      * apply IH, Hq.
Qed.

Lemma tokenize_app (p q : string) :
  boundary q = true -> tokenize (p ++ q) = tokenize p ++ tokenize q.
Proof. intros Hq. rewrite !tokenize_scan. apply scan_app, Hq. Qed.

Lemma tokenize_tokenlike_one (t : string) : tokenlike t -> tokenize t = [t].
Proof.
  intros [-> | [-> | Hw]]; [reflexivity | reflexivity |].
  rewrite tokenize_scan. rewrite <- (string_app_nil_r t) at 1.
  rewrite (scan_leaf t "" Hw eq_refl). reflexivity.
Qed.

Lemma tokenize_concat (ts : list string) :
  Forall tokenlike ts -> tokenize (String.concat " " ts) = ts.
Proof.
  induction 1 as [|t ts Ht Hts IH]; [reflexivity |].
  destruct ts as [|u ts].
  - cbn [String.concat]. apply tokenize_tokenlike_one, Ht.
  - change (String.concat " " (t :: u :: ts))
      with (t ++ String " " (String.concat " " (u :: ts)))%string.
    rewrite tokenize_app by reflexivity.
    rewrite (tokenize_tokenlike_one t Ht).
    rewrite <- IH at 2. rewrite !tokenize_scan, scan_cons.
    change (is_paren " ") with false. change (Host.is_space " ") with true.
    cbv iota. reflexivity.
Qed.

Lemma scan_nil (s : string) :
  forall w, scan w s = [] <-> w = "" /\ all_chars Host.is_space s = true.
Proof.
  induction s as [|c s IH]; intros w.
  - simpl. destruct w; split; try tauto; try discriminate.
    intros [H _]. discriminate.
  - rewrite scan_cons. cbn [all_chars].
    destruct (is_paren c) eqn:Hp.
    + split.
      * intros H. apply app_eq_nil in H as [_ H]. discriminate.
      * intros [_ H]. apply andb_true_iff in H as [Hs _].
        unfold is_paren in Hp. apply orb_true_iff in Hp.
        destruct Hp as [->%Ascii.eqb_eq | ->%Ascii.eqb_eq]; discriminate.
    + destruct (Host.is_space c) eqn:Hs.
      * split.
        -- intros H. apply app_eq_nil in H as [Hw H].
           apply IH in H as [_ H]. split; [| exact H].
           destruct w; [reflexivity | discriminate].
        -- intros [-> H]. cbn [Host.flush app]. apply IH. split; [reflexivity | exact H].
      * split.
        -- intros H. apply IH in H as [H _]. destruct w; discriminate.
        -- intros [_ H]. discriminate.
Qed.

(** X1: [tokenize] cuts a text at white space and at parentheses, so the
    tokens of a text are the tokens of what stands before such a place
    followed by the tokens of what stands after it; a white space between
    the two parts gives no token, a parenthesis gives one. *)
Theorem tokenize_splits_at_boundaries :
  (forall p q, boundary q = true ->
     tokenize (p ++ q) = tokenize p ++ tokenize q) /\
  (forall p c q, Host.is_space c = true ->
     tokenize (p ++ String c q) = tokenize p ++ tokenize q) /\
  (forall p q, tokenize (p ++ "(" ++ q) = tokenize p ++ "(" :: tokenize q) /\
  (forall p q, tokenize (p ++ ")" ++ q) = tokenize p ++ ")" :: tokenize q).
Proof.
  split; [exact tokenize_app |]. split; [| split].
  - intros p c q Hc. rewrite tokenize_app by (cbn [boundary]; rewrite Hc; reflexivity).
    f_equal. rewrite !tokenize_scan, scan_cons, Hc.
    destruct (is_paren c) eqn:Hp; [| reflexivity].
    unfold is_paren in Hp. apply orb_true_iff in Hp.
    destruct Hp as [->%Ascii.eqb_eq | ->%Ascii.eqb_eq]; discriminate.
  - intros p q. rewrite tokenize_app by reflexivity. reflexivity.
  - intros p q. rewrite tokenize_app by reflexivity. reflexivity.
Qed.

Lemma tokenize_splits_at_boundaries_witness :
  boundary ")) (c" = true /\
  tokenize ("(a (b" ++ ")) (c")%string = tokenize "(a (b" ++ tokenize ")) (c" /\
  Host.is_space "009"%char = true /\
  tokenize ("ab" ++ String "009"%char "cd")%string = ["ab"; "cd"].
Proof.
  destruct tokenize_splits_at_boundaries as (H1 & H2 & _).
  split; [reflexivity |]. split; [exact (H1 "(a (b" ")) (c" eq_refl) |].
  split; [reflexivity |]. exact (H2 "ab" "009"%char "cd" eq_refl).
Defined.

(** X2: every token that [tokenize] returns is ["("], [")"] or a word: a
    text that is not empty and holds no white space and no parenthesis.
    Joining such tokens with single spaces and tokenizing again gives the
    same tokens, and a text has no token exactly when it is made of white
    space only. *)
Theorem tokenize_tokens_rejoin :
  (forall s, Forall tokenlike (tokenize s)) /\
  (forall ts, Forall tokenlike ts -> tokenize (String.concat " " ts) = ts) /\
  (forall s, tokenize (String.concat " " (tokenize s)) = tokenize s) /\
  (forall s, tokenize s = [] <-> all_chars Host.is_space s = true).
Proof.
  split; [exact tokenize_tokenlike |]. split; [exact tokenize_concat |].
  split.
  - intros s. apply tokenize_concat, tokenize_tokenlike.
  - intros s. rewrite tokenize_scan, scan_nil. tauto.
Qed.

Lemma tokenize_tokens_rejoin_witness :
  Forall tokenlike ["("; "define"; "x"; "-1.5"; ")"] /\
  tokenize "( define x -1.5 )" = ["("; "define"; "x"; "-1.5"; ")"].
Proof.
  assert (H : Forall tokenlike ["("; "define"; "x"; "-1.5"; ")"]).
  { constructor; [left; reflexivity |].
    do 3 (constructor; [right; right; reflexivity |]).
    constructor; [right; left; reflexivity | constructor]. }
  split; [exact H |].
  exact (proj1 (proj2 tokenize_tokens_rejoin) _ H).
Defined.

(** ** The reader *)

Lemma read_app (fuel : nat) (more : list string) :
  (forall tokens x rest,
      read_from_tokens fuel tokens = (Ok x, rest) ->
      read_from_tokens fuel (tokens ++ more) = (Ok x, rest ++ more)) /\
  (forall tokens L x rest,
      read_list fuel tokens L = (Ok x, rest) ->
      read_list fuel (tokens ++ more) L = (Ok x, rest ++ more)).
Proof.
  induction fuel as [|fuel [IHr IHl]]; [split; intros; discriminate |].
  split.
  - intros [|t tokens] x rest; [discriminate |].
    cbn [app read_from_tokens].
    destruct (String.eqb "(" t); [apply IHl |].
    destruct (String.eqb ")" t); [discriminate |].
    intros [= <- <-]. reflexivity.
  - intros [|t tokens] L x rest; [discriminate |].
    change ((t :: tokens) ++ more) with (t :: (tokens ++ more)).
    cbn [read_list].
    destruct (String.eqb t ")"); [intros [= <- <-]; reflexivity |].
    destruct (read_from_tokens fuel (t :: tokens)) as [[y| | |] r] eqn:E;
      try discriminate.
    change (t :: (tokens ++ more)) with ((t :: tokens) ++ more).
    rewrite (IHr _ _ _ E). apply IHl.
Qed.

(** X3: [parse] reads the first complete expression of a text and ignores
    what follows it: when a text parses, so does the text followed by
    anything that starts with white space or a parenthesis, and to the
    same expression. No error is raised for tokens left over. *)
Theorem parse_reads_first_expression :
  forall p q x,
    parse p = Ok x -> boundary q = true -> parse (p ++ q) = Ok x.
Proof.
  intros p q x Hp Hq. unfold parse in *.
  rewrite (tokenize_app p q Hq).
  set (T := tokenize p) in *. set (R := tokenize q).
  destruct (read_from_tokens (parse_fuel T) T) as [o r] eqn:E.
  simpl in Hp. subst o.
  pose proof (proj1 (read_app _ R) _ _ _ E) as E1.
  assert (Hle : parse_fuel T <= parse_fuel (T ++ R)).
  { unfold parse_fuel. rewrite length_app. lia. }
  rewrite (proj1 (read_mono_le _ _ Hle) _ _ _ E1) by discriminate.
  reflexivity.
Qed.

Lemma parse_reads_first_expression_witness :
  parse "(f x)" = Ok (List [Symbol "f"; Symbol "x"]) /\
  boundary ") y (" = true /\
  parse ("(f x)" ++ ") y (")%string = Ok (List [Symbol "f"; Symbol "x"]).
Proof.
  split; [reflexivity |]. split; [reflexivity |].
  exact (parse_reads_first_expression "(f x)" ") y (" _ eq_refl eq_refl).
Defined.

(** X4: what [parse] returns is built from integers, floats, symbols and
    lists only; each float is the value that [float] reads from a word of
    the text, and each symbol is a word (not empty, no white space, no
    parenthesis) that neither [int] nor [float] reads as a number. *)
Theorem parse_builds_expressions :
  forall program x,
    parse program = Ok x ->
    parsed_with float_of_word x /\
    (forall t, x = Symbol t ->
       is_word t = true /\ Host.py_int t = None /\ Host.py_float t = None) /\
    (forall b, x <> Bool b) /\ x <> NoneV.
Proof.
  intros program x Hp. pose proof (parse_shape _ _ Hp) as H.
  split; [exact H |]. split; [| split].
  - intros t ->. inversion H as [| |? Hw Ha|]; subst. split; [exact Hw |].
    unfold atom in Ha.
    destruct (Host.py_int t); [discriminate |].
    destruct (Host.py_float t); [discriminate |]. split; reflexivity.
  - intros b ->. inversion H.
  - intros ->. inversion H.
Qed.

Lemma parse_builds_expressions_witness :
  parse "(a 1 2.5)" = Ok (List [Symbol "a"; Int 1; Float (S754_finite false 5629499534213120 (-51))]) /\
  parsed_with float_of_word (List [Symbol "a"; Int 1; Float (S754_finite false 5629499534213120 (-51))]).
Proof.
  assert (H : parse "(a 1 2.5)"
              = Ok (List [Symbol "a"; Int 1; Float (S754_finite false 5629499534213120 (-51))])).
  { vm_compute. reflexivity. }
  split; [exact H |].
  exact (proj1 (parse_builds_expressions _ _ H)).
Defined.

(** ** Variables and definitions *)

Lemma contains_assoc (e : Env) (var : string) :
  contains e var = true -> exists v, assoc var (vars e) = Some v.
Proof.
  unfold contains. destruct (assoc var (vars e)) as [v|]; [eauto | discriminate].
Qed.

(** X5: in a store whose outer links are in order, a variable evaluates
    to the value that the nearest environment of the chain binds it to,
    and the store is left as it is; the reference fails with NameError
    exactly when no environment of the chain binds the variable. *)
Theorem variable_reference :
  forall fuel var env s,
    wf_store s ->
    (forall b, nearest s var env b ->
       exists e v, s !! b = Some e /\ assoc var (vars e) = Some v /\
                   eval (S fuel) (Symbol var) env s = (Ok v, s)) /\
    (unbound s var env <->
       eval (S fuel) (Symbol var) env s = (Raise NameError, s)).
Proof.
  intros fuel var env s Hwf.
  assert (Hb : forall b, nearest s var env b ->
             exists e v, s !! b = Some e /\ assoc var (vars e) = Some v /\
                         eval (S fuel) (Symbol var) env s = (Ok v, s)).
  { intros b Hn. destruct (nearest_binds _ _ _ _ Hn) as (e & He & Hc).
    destruct (contains_assoc _ _ Hc) as [v Hv]. exists e, v.
    split; [exact He |]. split; [exact Hv |].
    cbn [eval]. rewrite (nearest_Env_find _ _ _ _ Hwf Hn).
    unfold getitem. rewrite He, Hv. reflexivity. }
  split; [exact Hb |]. split.
  - intros Hu. cbn [eval]. rewrite (unbound_Env_find _ _ _ Hu). reflexivity.
  - intros H b Hn. destruct (Hb b Hn) as (e & v & _ & _ & E). congruence.
Qed.

Lemma variable_reference_witness :
  wf_store (two_scopes (Int 1)) /\
  nearest (two_scopes (Int 1)) "x" 1 0 /\
  eval 1 (Symbol "x") 1 (two_scopes (Int 1)) = (Ok (Int 1), two_scopes (Int 1)).
Proof.
  assert (Hwf : wf_store (two_scopes (Int 1)))
    by (apply wf_check_sound; reflexivity).
  assert (Hx : nearest (two_scopes (Int 1)) "x" 1 0).
  { eapply nearest_outer; [reflexivity | reflexivity | reflexivity |].
    eapply nearest_here; reflexivity. }
  split; [exact Hwf |]. split; [exact Hx |].
  destruct (proj1 (variable_reference 0 "x" 1 _ Hwf) 0 Hx) as (e & v & He & Hv & E).
  injection He as <-. injection Hv as <-. exact E.
Defined.

Lemma assoc_setitem_ne (e : Env) (name other : string) (v : value) :
  other <> name -> assoc other (vars (setitem name v e)) = assoc other (vars e).
Proof.
  intros Hne. unfold setitem. cbn [vars assoc].
  destruct (String.eqb_spec name other); [congruence | reflexivity].
Qed.

(** X6: [(define NAME EXPR)] binds NAME to the value of EXPR in the
    current environment and returns nothing.  Afterwards NAME evaluates
    to that value in this environment, whatever the outer environments
    bind; the other names of the environment, its outer link and every
    other environment are as the evaluation of EXPR left them. *)
Theorem define_binds_current_environment :
  forall fuel name exp env s v s1 e1,
    eval fuel exp env s = (Ok v, s1) ->
    s1 !! env = Some e1 ->
    let s2 := alter (setitem name v) env s1 in
    eval (S fuel) (List [Symbol "define"; Symbol name; exp]) env s
      = (Ok NoneV, s2) /\
    (forall k, eval (S k) (Symbol name) env s2 = (Ok v, s2)) /\
    (forall a, a <> env -> s2 !! a = s1 !! a) /\
    (exists e2, s2 !! env = Some e2 /\ outer e2 = outer e1 /\
       forall other, other <> name ->
         assoc other (vars e2) = assoc other (vars e1)).
Proof.
  intros fuel name exp env s v s1 e1 Hexp He1 s2.
  assert (He2 : s2 !! env = Some (setitem name v e1)).
  { subst s2. rewrite list_lookup_alter_eq, He1. reflexivity. }
  split; [| split; [| split]].
  - cbn [eval]. change (head_is "quote" (Symbol "define")) with false.
    change (head_is "if" (Symbol "define")) with false.
    change (head_is "define" (Symbol "define")) with true. cbv iota.
    rewrite Hexp. reflexivity.
  - intros k. cbn [eval]. unfold Env_find.
    assert (Hlen : env < length s2) by (eapply lookup_lt_Some; eauto).
    destruct (length s2) as [|n] eqn:El; [lia |].
    cbn [find_from]. rewrite He2, contains_setitem.
    unfold getitem. rewrite He2. cbn [setitem vars assoc].
    rewrite String.eqb_refl. reflexivity.
  - intros a Hne. subst s2. apply list_lookup_alter_ne. congruence.
  - exists (setitem name v e1). split; [exact He2 |]. split; [reflexivity |].
    intros other Hne. apply assoc_setitem_ne, Hne.
Qed.

Lemma define_binds_current_environment_witness :
  eval 2 (List [Symbol "define"; Symbol "x"; Int 2]) 1 (two_scopes (Int 1))
    = (Ok NoneV, alter (setitem "x" (Int 2)) 1 (two_scopes (Int 1))) /\
  eval 1 (Symbol "x") 1 (alter (setitem "x" (Int 2)) 1 (two_scopes (Int 1)))
    = (Ok (Int 2), alter (setitem "x" (Int 2)) 1 (two_scopes (Int 1))) /\
  eval 1 (Symbol "x") 0 (alter (setitem "x" (Int 2)) 1 (two_scopes (Int 1)))
    = (Ok (Int 1), alter (setitem "x" (Int 2)) 1 (two_scopes (Int 1))).
Proof.
  destruct (define_binds_current_environment 1 "x" (Int 2) 1 (two_scopes (Int 1))
              (Int 2) (two_scopes (Int 1)) _ eq_refl eq_refl)
    as (H1 & H2 & _).
  split; [exact H1 |]. split; [exact (H2 0) |]. reflexivity.
Defined.

(** ** What evaluation leaves in place *)

Lemma grows_refl (s : store) : grows s s.
Proof. intros a e Ha. exists e. auto. Qed.

Lemma grows_trans (s1 s2 s3 : store) : grows s1 s2 -> grows s2 s3 -> grows s1 s3.
Proof.
  intros H12 H23 a e Ha.
  destruct (H12 a e Ha) as (e2 & Ha2 & Ho2 & Hc2).
  destruct (H23 a e2 Ha2) as (e3 & Ha3 & Ho3 & Hc3).
  exists e3. split; [exact Ha3 |]. split; [congruence | auto].
Qed.

Lemma grows_set (s : store) (name : string) (v : value) (b : nat) :
  grows s (alter (setitem name v) b s).
Proof.
  intros a e Ha. destruct (decide (a = b)) as [-> | Hne].
  - exists (setitem name v e). rewrite list_lookup_alter_eq, Ha.
    split; [reflexivity |]. split; [reflexivity |].
    intros var Hc. unfold contains, setitem in *. cbn [vars assoc].
    destruct (String.eqb name var); [reflexivity | exact Hc].
  - exists e. rewrite list_lookup_alter_ne by congruence. auto.
Qed.

Lemma grows_push (s : store) (e : Env) : grows s (s ++ [e]).
Proof.
  intros a e' Ha. exists e'. split; [| auto].
  apply lookup_app_l_Some, Ha.
Qed.

Lemma grows_length (s s' : store) : grows s s' -> length s <= length s'.
Proof.
  intros H. destruct (decide (length s <= length s')) as [|Hn]; [assumption |].
  assert (Hlt : length s' < length s) by lia.
  destruct (lookup_lt_is_Some_2 s (length s') Hlt) as [e He].
  destruct (H _ _ He) as (e' & He' & _).
  apply lookup_lt_Some in He'. lia.
Qed.

Lemma eval_each_grows (ev : value -> store -> res value) (exps : list value) :
  (forall x s r s', ev x s = (r, s') -> grows s s') ->
  forall s r s', eval_each ev exps s = (r, s') -> grows s s'.
Proof.
  intros Hev. induction exps as [|x exps IH]; intros s r s'; cbn [eval_each].
  - intros [= <- <-]. apply grows_refl.
  - unfold sbind. destruct (ev x s) as [[v| | |] s1] eqn:E1;
      pose proof (Hev _ _ _ _ E1) as G1; try (intros [= <- <-]; exact G1).
    destruct (eval_each ev exps s1) as [[vs| | |] s2] eqn:E2;
      pose proof (IH _ _ _ E2) as G2;
      intros [= <- <-]; eapply grows_trans; eauto.
Qed.

Lemma eval_grows (fuel : nat) :
  (forall x env s r s', eval fuel x env s = (r, s') -> grows s s') /\
  (forall proc args s r s', call fuel proc args s = (r, s') -> grows s s').
Proof.
  induction fuel as [|fuel [IHe IHc]].
  { split; intros; simpl in *;
      match goal with H : (_, _) = (_, _) |- _ => injection H as <- <- end;
      apply grows_refl. }
  split.
  - intros x env s r s'. cbn [eval].
    destruct x as [z|f|var|l|b| |p b e|b|h];
      try (intros [= <- <-]; apply grows_refl).
    + destruct (Env_find var env s); intros [= <- <-]; apply grows_refl.
    + destruct l as [|h rest]; [intros [= <- <-]; apply grows_refl |].
      destruct (head_is "quote" h).
      { destruct rest as [|exp [|? ?]]; intros [= <- <-]; apply grows_refl. }
      destruct (head_is "if" h).
      { destruct rest as [|test [|conseq [|alt [|? ?]]]];
          try (intros [= <- <-]; apply grows_refl).
        unfold sbind.
        destruct (eval fuel test env s) as [[t| | |] s1] eqn:E1;
          pose proof (IHe _ _ _ _ _ E1) as G1; try (intros [= <- <-]; exact G1).
        intros E2. eapply grows_trans; [exact G1 | eapply IHe; exact E2]. }
      destruct (head_is "define" h).
      { destruct rest as [|var [|exp [|? ?]]];
          try (intros [= <- <-]; apply grows_refl).
        unfold sbind.
        destruct (eval fuel exp env s) as [[v| | |] s1] eqn:E1;
          pose proof (IHe _ _ _ _ _ E1) as G1; try (intros [= <- <-]; exact G1).
        unfold define_var. destruct var; intros [= <- <-]; try exact G1.
        eapply grows_trans; [exact G1 | apply grows_set]. }
      destruct (head_is "set!" h).
      { destruct rest as [|var [|exp [|? ?]]];
          try (intros [= <- <-]; apply grows_refl).
        unfold sbind.
        destruct (eval fuel exp env s) as [[v| | |] s1] eqn:E1;
          pose proof (IHe _ _ _ _ _ E1) as G1; try (intros [= <- <-]; exact G1).
        unfold set_var. destruct var as [| |name| | | | | |];
          try (intros [= <- <-]; exact G1).
        destruct (Env_find name env s1); intros [= <- <-]; [| exact G1].
        eapply grows_trans; [exact G1 | apply grows_set]. }
      destruct (head_is "lambda" h).
      { destruct rest as [|parms [|body [|? ?]]]; intros [= <- <-];
          apply grows_refl. }
      unfold sbind.
      destruct (eval fuel h env s) as [[proc| | |] s1] eqn:E1;
        pose proof (IHe _ _ _ _ _ E1) as G1; try (intros [= <- <-]; exact G1).
      destruct (eval_each (fun exp => eval fuel exp env) rest s1)
        as [[args| | |] s2] eqn:E2;
        pose proof (eval_each_grows _ _ (fun y s0 r0 s0' => IHe y env s0 r0 s0')
                      _ _ _ E2) as G2;
        try (intros [= <- <-]; eapply grows_trans; eauto).
      intros E3. eapply grows_trans; [exact G1 |].
      eapply grows_trans; [exact G2 | eapply IHc; exact E3].
  - intros proc args s r s'. cbn [call].
    destruct proc as [| | | | | |parms body penv|b|h];
      try (intros [= <- <-]; apply grows_refl).
    + destruct (Env_init parms args (Some penv)) as [e| | |];
        try (intros [= <- <-]; apply grows_refl).
      intros E. eapply grows_trans; [apply grows_push | eapply IHe; exact E].
    + destruct b; try (intros [= <- <-]; apply grows_refl).
      destruct args as [|f [|xs [|? ?]]]; try (intros [= <- <-]; apply grows_refl).
      destruct (callable f); [| intros [= <- <-]; apply grows_refl].
      destruct (iterate xs) as [l| | |]; try (intros [= <- <-]; apply grows_refl).
      apply IHc.
Qed.

(** X7: evaluation only adds to the store.  Whatever an expression or a
    call does, and whether it returns or raises, every environment that
    existed before still exists, has the same outer environment, and
    still binds every name that it bound: nothing is ever unbound, no
    environment is dropped or re-parented. *)
Theorem evaluation_never_unbinds :
  forall fuel,
    (forall x env s r s',
        eval fuel x env s = (r, s') -> grows s s' /\ length s <= length s') /\
    (forall proc args s r s',
        call fuel proc args s = (r, s') -> grows s s' /\ length s <= length s').
Proof.
  intros fuel. destruct (eval_grows fuel) as [He Hc]. split.
  - intros x env s r s' E. pose proof (He _ _ _ _ _ E) as G.
    split; [exact G | apply grows_length, G].
  - intros proc args s r s' E. pose proof (Hc _ _ _ _ _ E) as G.
    split; [exact G | apply grows_length, G].
Qed.

Lemma evaluation_never_unbinds_witness :
  grows (two_scopes (Int 1))
        (alter (setitem "x" (Int 2)) 0 (two_scopes (Int 1))).
Proof.
  refine (proj1 (proj1 (evaluation_never_unbinds 2)
                   (List [Symbol "set!"; Symbol "x"; Int 2]) 1
                   (two_scopes (Int 1)) (Ok NoneV) _ _)).
  reflexivity.
Defined.

(** X8: the stores of the interpreter.  The store of a fresh interpreter
    is in order (outer links point to older environments, procedures
    close over existing environments), and running a program text in an
    environment of a store in order leaves a store in order that still
    holds the environment.  In such a store the walk of [Env.find] along
    the outer links always ends: it finds exactly the nearest environment
    that binds the name, and fails exactly when none does. *)
Theorem interpreter_stores_in_order :
  (forall math_vars,
      Forall (fun kv => closed 1 (snd kv)) math_vars ->
      store_ok (initial_store math_vars)) /\
  (forall fuel program env s r s',
      store_ok s -> env < length s ->
      lisp_eval fuel program env s = (r, s') ->
      store_ok s' /\ env < length s') /\
  (forall s var a,
      store_ok s ->
      (forall b, Env_find var a s = Some b <-> nearest s var a b) /\
      (Env_find var a s = None <-> unbound s var a)).
Proof.
  split; [exact initial_store_ok |]. split.
  - intros fuel program env s r s' Hs Henv E.
    destruct (reached_store_wf _ _ _ _ _ _ Hs Henv E) as [H1 H2].
    split; [exact H1 | lia].
  - intros s var a [Hwf _].
    assert (Hb : forall b, Env_find var a s = Some b <-> nearest s var a b).
    { intros b. split; [apply find_from_sound | apply nearest_Env_find, Hwf]. }
    split; [exact Hb |]. split.
    + intros Hn b Hnb. apply Hb in Hnb. congruence.
    + apply unbound_Env_find.
Qed.

Lemma interpreter_stores_in_order_witness :
  Forall (fun kv : string * value => closed 1 (snd kv)) [("pi", Float five)] /\
  store_ok (initial_store [("pi", Float five)]) /\
  store_ok (snd (lisp_eval 5 "((lambda (x) (define y x)) 1)" 0
                   (initial_store [("pi", Float five)]))).
Proof.
  assert (Hm : Forall (fun kv : string * value => closed 1 (snd kv))
                 [("pi", Float five)]).
  { constructor; [exact I | constructor]. }
  destruct interpreter_stores_in_order as (H1 & H2 & _).
  split; [exact Hm |]. split; [exact (H1 _ Hm) |].
  refine (proj1 (H2 5 "((lambda (x) (define y x)) 1)" 0
                   (initial_store [("pi", Float five)]) _ _ (H1 _ Hm) _
                   (surjective_pairing _))).
  simpl. lia.
Defined.

(** ** Parameters and arguments *)

Lemma update_symbols (ps : list string) :
  forall args d,
    NoDup ps -> (forall p, p ∈ ps -> assoc p d = None) ->
    exists d', update d (zip (map Symbol ps) args) = Ok d' /\
      (forall i p, ps !! i = Some p -> assoc p d' = args !! i) /\
      (forall q, q ∉ ps -> assoc q d' = assoc q d).
Proof.
  induction ps as [|p ps IH]; intros args d Hnd Hd.
  - exists d. split; [reflexivity |]. split; [| reflexivity].
    intros i p Hi. rewrite lookup_nil in Hi. discriminate.
  - apply NoDup_cons in Hnd as [Hp Hnd].
    destruct args as [|a args].
    + exists d. split; [reflexivity |]. split; [| reflexivity].
      intros i q Hi. rewrite lookup_nil. apply Hd.
      eapply list_elem_of_lookup_2, Hi.
    + cbn [map zip zip_with update].
      destruct (IH args ((p, a) :: d) Hnd) as (d' & Hu & Hin & Hout).
      { intros q Hq. cbn [assoc].
        destruct (String.eqb_spec p q) as [-> | _]; [contradiction |].
        apply Hd. right. exact Hq. }
      exists d'. split; [exact Hu |]. split.
      * intros [|i] q Hi.
        -- injection Hi as <-. rewrite (Hout _ Hp). cbn [assoc].
           rewrite String.eqb_refl. reflexivity.
        -- apply (Hin i q Hi).
      * intros q Hq. apply not_elem_of_cons in Hq as [Hne Hq].
        rewrite (Hout _ Hq). cbn [assoc].
        destruct (String.eqb_spec p q); [congruence | reflexivity].
Qed.

(** X9: [Env(parms, args, outer)] pairs the parameters with the arguments
    in order and stops at the shorter of the two.  With distinct parameter
    names, the i-th parameter is bound to the i-th argument when there is
    one and is not bound at all when the arguments run out; arguments
    beyond the parameters are dropped and no other name is bound.  The
    parameters are the elements of a list of symbols, or the characters
    of a single symbol. *)
Theorem parameters_bound_in_order :
  forall parms ps args o,
    iterate parms = Ok (map Symbol ps) -> NoDup ps ->
    exists e, Env_init parms args o = Ok e /\ outer e = o /\
      (forall i p, ps !! i = Some p -> assoc p (vars e) = args !! i) /\
      (forall q, q ∉ ps -> assoc q (vars e) = None).
Proof.
  intros parms ps args o Hit Hnd. unfold Env_init. rewrite Hit. cbn [obind].
  destruct (update_symbols ps args [] Hnd (fun _ _ => eq_refl))
    as (d & Hu & Hin & Hout).
  rewrite Hu. cbn [obind]. eexists. split; [reflexivity |].
  split; [reflexivity |]. split; [exact Hin | exact Hout].
Qed.

Lemma parameters_bound_in_order_witness :
  exists e,
    Env_init (List [Symbol "x"; Symbol "y"]) [Int 1] (Some 0) = Ok e /\
    assoc "x" (vars e) = Some (Int 1) /\ assoc "y" (vars e) = None.
Proof.
  assert (Hnd : NoDup ["x"; "y"]).
  { apply NoDup_cons. split; [| apply NoDup_singleton].
    intros H. apply list_elem_of_singleton in H. discriminate. }
  destruct (parameters_bound_in_order (List [Symbol "x"; Symbol "y"]) ["x"; "y"]
              [Int 1] (Some 0) eq_refl Hnd) as (e & He & _ & Hin & _).
  exists e. split; [exact He |].
  split; [exact (Hin 0 "x" eq_refl) | exact (Hin 1 "y" eq_refl)].
Defined.

(** A parameter list given as one symbol binds its characters. *)
Example symbol_as_parameters :
  fst (lisp_eval 4 "((lambda ab a) 1 2)" 0 [empty_env]) = Ok (Int 1) /\
  fst (lisp_eval 4 "((lambda ab b) 1 2)" 0 [empty_env]) = Ok (Int 2).
Proof. split; reflexivity. Qed.

(** ** Procedure calls: the order of evaluation *)

Lemma head_not_special (h : value) :
  (forall name, h = Symbol name -> form_arity name = None) ->
  head_is "quote" h = false /\ head_is "if" h = false /\
  head_is "define" h = false /\ head_is "set!" h = false /\
  head_is "lambda" h = false.
Proof.
  intros H. destruct h as [| |name| | | | | |]; try (repeat split; reflexivity).
  specialize (H name eq_refl). unfold form_arity in H. cbn [head_is].
  destruct (String.eqb name "quote"); [discriminate |].
  destruct (String.eqb name "if"); [discriminate |].
  destruct (String.eqb name "define"); [discriminate |].
  destruct (String.eqb name "set!"); [discriminate |].
  destruct (String.eqb name "lambda"); [discriminate |].
  repeat split; reflexivity.
Qed.

Lemma eval_each_stops (ev : value -> store -> res value) (pre : list value) :
  forall bad post s1 vs s2 err s3,
    eval_each ev pre s1 = (Ok vs, s2) ->
    ev bad s2 = (Raise err, s3) ->
    eval_each ev (pre ++ bad :: post) s1 = (Raise err, s3).
Proof.
  induction pre as [|x pre IH]; intros bad post s1 vs s2 err s3; cbn [eval_each app].
  - intros [= <- <-] E. unfold sbind. rewrite E. reflexivity.
  - unfold sbind at 1 3.
    destruct (ev x s1) as [[v| | |] s1'] eqn:E1; try discriminate.
    destruct (eval_each ev pre s1') as [[vs'| | |] s2'] eqn:E2;
      unfold sbind; try discriminate.
    intros [= <- <-] E. rewrite (IH _ post _ _ _ _ _ E2 E). reflexivity.
Qed.

(** X10: in a procedure call [(proc arg...)] the operator is evaluated
    first, then the operands from left to right, each in the store that
    the one before left.  The first error ends the call: an error in the
    operator means that no operand is evaluated, an error in an operand
    means that the operands after it are not evaluated and that the
    procedure is not called; the store is the one at the error. *)
Theorem first_error_ends_call :
  forall fuel h rest env s,
    (forall name, h = Symbol name -> form_arity name = None) ->
    (forall err s1,
        eval fuel h env s = (Raise err, s1) ->
        eval (S fuel) (List (h :: rest)) env s = (Raise err, s1)) /\
    (forall proc s1 pre bad post vs s2 err s3,
        rest = pre ++ bad :: post ->
        eval fuel h env s = (Ok proc, s1) ->
        eval_each (fun exp => eval fuel exp env) pre s1 = (Ok vs, s2) ->
        eval fuel bad env s2 = (Raise err, s3) ->
        eval (S fuel) (List (h :: rest)) env s = (Raise err, s3)).
Proof.
  intros fuel h rest env s Hh.
  destruct (head_not_special h Hh) as (H1 & H2 & H3 & H4 & H5).
  split.
  - intros err s1 E. cbn [eval]. rewrite H1, H2, H3, H4, H5.
    unfold sbind. rewrite E. reflexivity.
  - intros proc s1 pre bad post vs s2 err s3 -> E1 E2 E3.
    cbn [eval]. rewrite H1, H2, H3, H4, H5. unfold sbind at 1. rewrite E1.
    rewrite (eval_each_stops (fun exp => eval fuel exp env) pre bad post
               _ _ _ _ _ E2 E3).
    reflexivity.
Qed.

Lemma first_error_ends_call_witness :
  eval 3 (List [Symbol "f"; Int 1; Symbol "y";
                List [Symbol "define"; Symbol "z"; Int 3]]) 0
       [{| vars := [("f", Builtin list_)]; outer := None |}]
  = (Raise NameError, [{| vars := [("f", Builtin list_)]; outer := None |}]).
Proof.
  refine (proj2 (first_error_ends_call 2 (Symbol "f")
                   [Int 1; Symbol "y"; List [Symbol "define"; Symbol "z"; Int 3]]
                   0 [{| vars := [("f", Builtin list_)]; outer := None |}] _)
            (Builtin list_) _ [Int 1] (Symbol "y")
            [List [Symbol "define"; Symbol "z"; Int 3]] [Int 1] _ NameError _
            eq_refl eq_refl eq_refl eq_refl).
  intros name [= <-]. reflexivity.
Defined.

(** ** The standard environment *)

Lemma assoc_app (name : string) (d d' : list (string * value)) :
  assoc name (d ++ d') =
  match assoc name d with Some v => Some v | None => assoc name d' end.
Proof.
  induction d as [|[k v] d IH]; [reflexivity |]. cbn [app assoc].
  destruct (String.eqb k name); [reflexivity | exact IH].
Qed.

(** X11: the names that [standard_env] registers itself win over the
    names of the host's math module: each of them is bound to its
    built-in procedure whatever [vars(math)] holds, and every other name
    has the binding that [vars(math)] gives it, if any.  Every name of the
    table is bound to a procedure, and ["="] and ["equal?"] are the same
    procedure. *)
Theorem standard_env_names :
  (forall math_vars name,
      assoc name (vars (standard_env math_vars)) =
      match assoc name (vars (standard_env [])) with
      | Some v => Some v
      | None => assoc name math_vars
      end) /\
  (forall name v,
      assoc name (vars (standard_env [])) = Some v -> exists b, v = Builtin b) /\
  (forall math_vars,
      assoc "=" (vars (standard_env math_vars))
      = assoc "equal?" (vars (standard_env math_vars))) /\
  length (vars (standard_env [])) = 30.
Proof.
  split; [| split; [| split]].
  - intros math_vars name. unfold standard_env. cbn [vars].
    rewrite !assoc_app.
    match goal with
    | |- context [assoc name (?a :: ?b)] => destruct (assoc name (a :: b))
    end; reflexivity.
  - intros name v. unfold standard_env. cbn [vars app assoc].
    repeat match goal with
           | |- (if ?c then _ else _) = _ -> _ =>
               destruct c; [intros [= <-]; eexists; reflexivity |]
           end.
    discriminate.
  - intros math_vars. reflexivity.
  - reflexivity.
Qed.

Lemma standard_env_names_witness :
  assoc "car" (vars (standard_env [])) = Some (Builtin car) /\
  exists b, Builtin car = Builtin b.
Proof.
  split; [reflexivity |].
  exact (proj1 (proj2 standard_env_names) "car" (Builtin car) eq_refl).
Defined.

(** ** The built-in procedures *)

(** X12: [cons], [car] and [cdr] on lists.  [cons] puts an element in
    front of a list, [car] and [cdr] take such a list apart again, and a
    list that is not empty is the [cons] of its [car] and its [cdr].
    [car] of the empty list fails with IndexError, [cdr] of the empty
    list is the empty list, and [cons] onto a value that is not a list
    fails with TypeError: there are no dotted pairs. *)
Theorem cons_car_cdr :
  (forall x l,
      builtin_call cons_ [x; List l] = Ok (List (x :: l)) /\
      builtin_call car [List (x :: l)] = Ok x /\
      builtin_call cdr [List (x :: l)] = Ok (List l)) /\
  (forall l x r,
      builtin_call car [List l] = Ok x ->
      builtin_call cdr [List l] = Ok r ->
      builtin_call cons_ [x; r] = Ok (List l)) /\
  builtin_call car [List []] = Raise IndexError /\
  builtin_call cdr [List []] = Ok (List []) /\
  (forall x y,
      (forall l, y <> List l) -> (forall n, y <> HostFn n) ->
      builtin_call cons_ [x; y] = Raise TypeError).
Proof.
  split; [intros x l; repeat split; reflexivity |].
  split; [| split; [reflexivity | split; [reflexivity |]]].
  - intros [|y l] x r; cbn [builtin_call]; [discriminate |].
    intros [= <-] [= <-]. reflexivity.
  - intros x y Hl Hh. destruct y; try reflexivity.
    + destruct (Hl l eq_refl).
    + destruct (Hh name eq_refl).
Qed.

Lemma cons_car_cdr_witness :
  builtin_call cons_ [Int 1; List [Int 2; Int 3]]
    = Ok (List [Int 1; Int 2; Int 3]) /\
  builtin_call cons_ [Int 1; Int 2] = Raise TypeError.
Proof.
  destruct cons_car_cdr as (_ & H2 & _ & _ & H5).
  split; [exact (H2 [Int 1; Int 2; Int 3] _ _ eq_refl eq_refl) |].
  apply H5; discriminate.
Defined.

(** X13: [append] is the host's [+] and [length] its [len].  On two
    lists [append] concatenates, so the length of the result is the sum
    of the lengths and appending is associative; on two integers it adds
    them; a list and a number cannot be appended (TypeError). *)
Theorem append_and_length :
  (forall a b,
      builtin_call op_add [List a; List b] = Ok (List (a ++ b)) /\
      builtin_call py_len [List (a ++ b)]
      = Ok (Int (Z.of_nat (length a) + Z.of_nat (length b)))) /\
  (forall a b c ab bc,
      builtin_call op_add [List a; List b] = Ok ab ->
      builtin_call op_add [List b; List c] = Ok bc ->
      builtin_call op_add [ab; List c] = builtin_call op_add [List a; bc]) /\
  (forall x y, builtin_call op_add [Int x; Int y] = Ok (Int (x + y))) /\
  (forall l z,
      builtin_call op_add [List l; Int z] = Raise TypeError /\
      builtin_call op_add [Int z; List l] = Raise TypeError) /\
  builtin_call py_len [List []] = Ok (Int 0).
Proof.
  split; [| split; [| split; [| split]]].
  - intros a b. split; [reflexivity |].
    cbn [builtin_call]. rewrite length_app, Nat2Z.inj_add. reflexivity.
  - intros a b c ab bc [= <-] [= <-]. cbn [builtin_call].
    unfold py_add. cbn [as_num]. rewrite app_assoc. reflexivity.
  - reflexivity.
  - intros l z. split; reflexivity.
  - reflexivity.
Qed.

Lemma append_and_length_witness :
  builtin_call op_add [List [Int 1; Int 2]; List [Int 3]]
    = builtin_call op_add [List [Int 1]; List [Int 2; Int 3]].
Proof.
  exact (proj1 (proj2 append_and_length) [Int 1] [Int 2] [Int 3] _ _
           eq_refl eq_refl).
Defined.

Lemma foldl_not_ok {A B} (f : outcome A -> B -> outcome A) (l : list B)
    (r : outcome A) :
  (forall acc x, (forall a, acc <> Ok a) -> f acc x = acc) ->
  (forall a, r <> Ok a) -> foldl f r l = r.
Proof.
  intros Hf. revert r. induction l as [|x l IH]; intros r Hr; [reflexivity |].
  cbn [foldl]. rewrite (Hf r x Hr). apply IH, Hr.
Qed.

Lemma variadic_mul_integers (zs : list Z) (acc : Z) :
  foldl (fun acc x => do a <- acc; py_mul a x) (Ok (Int acc)) (map Int zs)
  = Ok (Int (foldl Z.mul acc zs)).
Proof.
  revert acc. induction zs as [|z zs IH]; intros acc; [reflexivity |].
  cbn [map foldl obind]. change (py_mul (Int acc) (Int z)) with (Ok (Int (acc * z))).
  apply IH.
Qed.

(** X14: ["+"] is the host's [sum], which starts from the integer 0, and
    ["*"] multiplies into a running product that starts from 1.  With no
    argument they return 0 and 1; the product of integers is their exact
    product.  As the sum starts from 0, ["+"] fails with TypeError as
    soon as its first argument is a list or a symbol (it never
    concatenates), whereas ["*"] of an integer and a list repeats the
    list: as many times as the integer says when the count and the length
    of the result are below 2^31 (the host's memory permitting), and not
    at all when the count is negative.  A count that does not fit a
    64-bit index is an OverflowError. *)
Theorem variadic_sum_and_product :
  builtin_call variadic_add [] = Ok (Int 0) /\
  builtin_call variadic_mul [] = Ok (Int 1) /\
  (forall zs,
      builtin_call variadic_mul (map Int zs) = Ok (Int (foldl Z.mul 1%Z zs))) /\
  (forall l rest,
      builtin_call variadic_add (List l :: rest) = Raise TypeError) /\
  (forall t rest,
      builtin_call variadic_add (Symbol t :: rest) = Raise TypeError) /\
  (forall n l,
      (- 2 ^ 31 <= n < 2 ^ 31)%Z -> (n * Z.of_nat (length l) < 2 ^ 31)%Z ->
      builtin_call variadic_mul [Int n; List l]
      = Ok (List (repeat_list (Z.to_nat n) l))) /\
  (forall n l,
      (- 2 ^ 31 <= n <= 0)%Z ->
      builtin_call variadic_mul [Int n; List l] = Ok (List [])) /\
  (forall n l,
      (n < - 2 ^ 63 \/ 2 ^ 63 <= n)%Z ->
      builtin_call variadic_mul [Int n; List l] = Raise OverflowError).
Proof.
  split; [reflexivity |]. split; [reflexivity |].
  split; [intros zs; apply variadic_mul_integers |].
  assert (Hstay : forall (acc : outcome value) (x : value),
             (forall a, acc <> Ok a) -> (do a <- acc; py_add a x) = acc).
  { intros [a| | |] x Ha; try reflexivity. destruct (Ha a eq_refl). }
  assert (Hmul : forall n l,
             builtin_call variadic_mul [Int n; List l]
             = do k <- repeat_count n (length l); Ok (List (repeat_list k l))).
  { intros n l. cbn [builtin_call foldl obind].
    change (py_mul (Int 1) (Int n)) with (Ok (Int (1 * n))).
    cbn [obind]. unfold py_mul. cbn [as_num].
    replace (1 * n)%Z with n by lia. reflexivity. }
  assert (Hcount : forall n len,
             (- 2 ^ 31 <= n < 2 ^ 31)%Z -> (n * Z.of_nat len < 2 ^ 31)%Z ->
             repeat_count n len = Ok (Z.to_nat n)).
  { intros n len Hn Hlen. unfold repeat_count.
    rewrite (proj2 (Z.ltb_ge n (- 2 ^ 63)%Z)) by lia.
    rewrite (proj2 (Z.leb_gt (2 ^ 63)%Z n)) by lia.
    rewrite (proj2 (Z.ltb_ge n (- 2 ^ 31)%Z)) by lia.
    rewrite (proj2 (Z.leb_gt (2 ^ 31)%Z n)) by lia.
    rewrite (proj2 (Z.leb_gt (2 ^ 31)%Z (n * Z.of_nat len))) by lia.
    reflexivity. }
  split; [| split; [| split; [| split]]].
  - intros l rest. cbn [builtin_call]. unfold py_sum. cbn [foldl obind].
    change (py_add (Int 0) (List l)) with (@Raise value TypeError).
    rewrite (foldl_not_ok _ rest _ Hstay) by discriminate. reflexivity.
  - intros t rest. cbn [builtin_call]. unfold py_sum. cbn [foldl obind].
    change (py_add (Int 0) (Symbol t)) with (@Raise value TypeError).
    rewrite (foldl_not_ok _ rest _ Hstay) by discriminate. reflexivity.
  - intros n l Hn Hlen. rewrite Hmul, (Hcount n _ Hn Hlen). reflexivity.
  - intros n l Hn. rewrite Hmul, Hcount by nia.
    replace (Z.to_nat n) with 0 by lia. reflexivity.
  - intros n l Hn. rewrite Hmul. unfold repeat_count.
    destruct Hn as [Hn | Hn].
    + rewrite (proj2 (Z.ltb_lt n (- 2 ^ 63)%Z)) by lia. reflexivity.
    + rewrite (proj2 (Z.leb_le (2 ^ 63)%Z n)) by lia. rewrite orb_true_r.
      reflexivity.
Qed.

Lemma variadic_sum_and_product_witness :
  builtin_call variadic_mul [Int 2; List [Int 1; Int 2]]
    = Ok (List [Int 1; Int 2; Int 1; Int 2]) /\
  builtin_call variadic_mul [Int (-1); List [Int 1; Int 2]] = Ok (List []) /\
  builtin_call variadic_mul [Int (2 ^ 63); List []] = Raise OverflowError.
Proof.
  destruct variadic_sum_and_product as (_ & _ & _ & _ & _ & H1 & H2 & H3).
  split; [| split].
  - apply (H1 2%Z [Int 1; Int 2]); simpl; lia.
  - apply (H2 (-1)%Z [Int 1; Int 2]). lia.
  - apply (H3 (2 ^ 63)%Z []). right. lia.
Defined.

(** X15: the built-in procedures check the number of their arguments:
    those of two arguments ([-], [/], the comparisons, [=], [append],
    [cons], [eq?]) fail with TypeError on any other number of arguments,
    and those of one argument ([abs], [car], [cdr], [length], [list?],
    [not], [null?], [number?], [procedure?], [symbol?]) likewise.  So
    [(- 5)] is an error, not a negation. *)
Theorem wrong_number_of_arguments :
  (forall b args,
      In b binary_builtins -> length args <> 2 ->
      builtin_call b args = Raise TypeError) /\
  (forall b args,
      In b unary_builtins -> length args <> 1 ->
      builtin_call b args = Raise TypeError).
Proof.
  split.
  - intros b args Hb Hlen.
    destruct args as [|x [|y [|z r]]]; [| | cbn [length] in Hlen; lia |];
      cbn [binary_builtins In] in Hb;
      repeat (destruct Hb as [<- | Hb]; [try reflexivity |]);
      try contradiction;
      cbn [builtin_call]; destruct x; try reflexivity; destruct y; reflexivity.
  - intros b args Hb Hlen.
    destruct args as [|x [|y r]]; [| cbn [length] in Hlen; lia |];
      cbn [unary_builtins In] in Hb;
      repeat (destruct Hb as [<- | Hb]; [try reflexivity |]);
      try contradiction;
      cbn [builtin_call]; destruct x; try reflexivity;
      repeat match goal with
             | |- context [match ?v with _ => _ end] => is_var v; destruct v
             end; reflexivity.
Qed.

Lemma wrong_number_of_arguments_witness :
  builtin_call op_sub [Int 5] = Raise TypeError /\
  builtin_call car [List [Int 1]; List [Int 2]] = Raise TypeError.
Proof.
  destruct wrong_number_of_arguments as [H2 H1]. split.
  - apply H2; [cbn; auto | cbn; lia].
  - apply H1; [cbn; auto | cbn; lia].
Defined.

(** X16: ["/"] is the host's true division.  Whatever it returns is a
    float, also for two integers; it returns nothing when the divisor is
    a number equal to zero (the integer 0, the boolean false, a float
    zero of either sign): the call fails, with ZeroDivisionError when the
    dividend is a float or when both are integers. *)
Theorem true_division :
  (forall a b v, py_truediv a b = Ok v -> exists f, v = Float f) /\
  (forall a b y v,
      as_num b = Some y -> truthy b = false -> py_truediv a b <> Ok v) /\
  (forall x, py_truediv (Int x) (Int 0) = Raise ZeroDivisionError) /\
  (forall f b y,
      as_num b = Some y -> truthy b = false ->
      py_truediv (Float f) b = Raise ZeroDivisionError).
Proof.
  assert (Hfz : forall f b y, as_num b = Some y -> truthy b = false ->
                 py_truediv (Float f) b = Raise ZeroDivisionError).
  { intros f b y Hy Hb.
    destruct b as [z| g | | |[|]| | | |]; try discriminate.
    - cbn [truthy] in Hb. apply negb_false_iff, Z.eqb_eq in Hb. subst z.
      reflexivity.
    - destruct g; try discriminate. reflexivity.
    - reflexivity. }
  split; [| split; [| split; [reflexivity | exact Hfz]]].
  - intros a b v. unfold py_truediv.
    destruct (as_num a) as [x|] eqn:Ea, (as_num b) as [y|] eqn:Eb;
      [| destruct a, b; discriminate..].
    unfold truediv. destruct x as [x|f], y as [y|g]; cbn [as_float obind].
    + destruct (y =? 0)%Z; [discriminate |].
      destruct (Host.float_of_ratio _ _ _); try discriminate;
        intros [= <-]; eexists; reflexivity.
    + destruct (to_float x); cbn [obind]; try discriminate.
      destruct (is_zero g); [discriminate |]. intros [= <-]; eexists; reflexivity.
    + destruct (to_float y) as [h| | |]; cbn [obind]; try discriminate.
      destruct (is_zero h); [discriminate |]. intros [= <-]; eexists; reflexivity.
    + destruct (is_zero g); [discriminate |]. intros [= <-]; eexists; reflexivity.
  - clear Hfz. intros a b y v Hy Hb. unfold py_truediv. rewrite Hy.
    destruct (as_num a) as [x|] eqn:Ea; [| destruct a, b; discriminate].
    assert (Hy0 : y = NInt 0 \/ exists sg, y = NFloat (S754_zero sg)).
    { destruct b as [z| g | | |[|]| | | |]; try discriminate.
      - cbn [truthy] in Hb. apply negb_false_iff, Z.eqb_eq in Hb. subst z.
        injection Hy as <-. left. reflexivity.
      - destruct g; try discriminate. injection Hy as <-. right. eexists. reflexivity.
      - injection Hy as <-. left. reflexivity. }
    unfold truediv. destruct Hy0 as [-> | [sg ->]]; destruct x as [x|f];
      cbn [as_float obind]; try discriminate.
    destruct (to_float x); discriminate.
Qed.

Lemma true_division_witness :
  py_truediv (Int 1) (Int 2) = Ok (Float (S754_finite false 4503599627370496 (-53))) /\
  (exists f, Float (S754_finite false 4503599627370496 (-53)) = Float f) /\
  py_truediv (Float five) (Bool false) = Raise ZeroDivisionError.
Proof.
  assert (H : py_truediv (Int 1) (Int 2)
              = Ok (Float (S754_finite false 4503599627370496 (-53))))
    by (vm_compute; reflexivity).
  destruct true_division as (H1 & _ & _ & H4).
  split; [exact H |]. split; [exact (H1 _ _ _ H) |].
  exact (H4 five (Bool false) (NInt 0) eq_refl eq_refl).
Defined.

(** X17: the comparisons on integers are the order of the integers, and
    ["="] is their equality.  Equality never fails on data: a symbol and
    an integer are not equal; but asking for their order is a
    TypeError. *)
Theorem integer_comparisons :
  (forall a b,
      builtin_call op_lt [Int a; Int b] = Ok (Bool (a <? b)%Z) /\
      builtin_call op_gt [Int a; Int b] = Ok (Bool (b <? a)%Z) /\
      builtin_call op_le [Int a; Int b] = Ok (Bool (a <=? b)%Z) /\
      builtin_call op_ge [Int a; Int b] = Ok (Bool (b <=? a)%Z) /\
      builtin_call op_eq [Int a; Int b] = Ok (Bool (a =? b)%Z)) /\
  (forall t z,
      builtin_call op_eq [Symbol t; Int z] = Ok (Bool false) /\
      builtin_call op_eq [Int z; Symbol t] = Ok (Bool false) /\
      builtin_call op_lt [Symbol t; Int z] = Raise TypeError /\
      builtin_call op_lt [Int z; Symbol t] = Raise TypeError) /\
  (forall s t,
      builtin_call op_eq [Symbol s; Symbol t] = Ok (Bool (String.eqb s t))).
Proof.
  split; [| split].
  - intros a b. cbn [builtin_call compare_with py_order as_num num_compare obind
                     py_eq of_option].
    unfold Z.ltb, Z.leb. rewrite (Z.compare_antisym a b).
    destruct (Z.compare_spec a b) as [-> | Hlt | Hgt].
    + rewrite Z.eqb_refl. repeat split; reflexivity.
    + rewrite (proj2 (Z.eqb_neq a b)) by lia. repeat split; reflexivity.
    + rewrite (proj2 (Z.eqb_neq a b)) by lia. repeat split; reflexivity.
  - intros t z. repeat split; reflexivity.
  - intros s t. reflexivity.
Qed.

(** X18: the type predicates on data.  For an expression as the reader
    builds them, exactly one of [number?], [symbol?] and [list?] holds;
    [procedure?] does not, and [null?] holds for the empty list only (not
    for 0 or for an empty symbol, although [if] takes them as false).  A
    boolean counts as a number. *)
Theorem type_predicates :
  (forall F x, parsed_with F x ->
     exists n s l,
       builtin_call is_number [x] = Ok (Bool n) /\
       builtin_call is_symbol [x] = Ok (Bool s) /\
       builtin_call is_list [x] = Ok (Bool l) /\
       In (n, s, l) [(true, false, false); (false, true, false);
                     (false, false, true)] /\
       builtin_call py_callable [x] = Ok (Bool false) /\
       (builtin_call is_null [x] = Ok (Bool true) <-> x = List [])) /\
  builtin_call is_null [Int 0] = Ok (Bool false) /\
  builtin_call is_null [Symbol ""] = Ok (Bool false) /\
  (forall b, builtin_call is_number [Bool b] = Ok (Bool true)).
Proof.
  split; [| repeat split; reflexivity].
  intros F x [z | f Hf | t Hw Ha | l Hl].
  - exists true, false, false. repeat split; try reflexivity;
      [cbn; auto | discriminate | discriminate].
  - exists true, false, false. repeat split; try reflexivity;
      [cbn; auto | discriminate | discriminate].
  - exists false, true, false. repeat split; try reflexivity;
      [cbn; auto | discriminate | discriminate].
  - exists false, false, true. repeat split; try reflexivity; [cbn; auto | |].
    + destruct l; [reflexivity | discriminate].
    + intros [= ->]. reflexivity.
Qed.

Lemma type_predicates_witness :
  parsed_with (fun _ => True) (List [Int 1]) /\
  builtin_call is_list [List [Int 1]] = Ok (Bool true) /\
  builtin_call is_null [List [Int 1]] <> Ok (Bool true).
Proof.
  assert (H : parsed_with (fun _ : spec_float => True) (List [Int 1])).
  { constructor. constructor; [constructor | constructor]. }
  split; [exact H |]. split; [reflexivity |].
  destruct (proj1 type_predicates _ _ H) as (n & s & l & _ & _ & _ & _ & _ & Hn).
  intros E. apply Hn in E. discriminate.
Defined.

(** ** Rendering and reading back, for values *)

Lemma parsed_with_impl (F G : spec_float -> Prop) (x : value) :
  (forall f, F f -> G f) -> parsed_with F x -> parsed_with G x.
Proof.
  intros HFG H. induction H as [z | f Hf | t Hw Ha | l Hall IH] using parsed_with_ind'.
  - constructor.
  - constructor. apply HFG, Hf.
  - constructor; assumption.
  - constructor. exact IH.
Qed.

(** X19: [lispstr] writes and [parse] reads.  An expression built from
    integers of 4300 digits at most (those that the host's [str] and
    [int] convert), binary64 floats (infinities and NaN included),
    symbols that are words which read as no number, and lists of such, is
    rendered to a text that [parse] reads back as the same expression; so
    two different expressions of this kind never have the same text.  In
    particular [atom] reads the text of such an integer as that integer
    and the text of a float as that float. *)
Theorem lispstr_parse_round_trip :
  (forall x,
      parsed_with (fun f => valid_binary Host.prec Host.emax f = true) x ->
      small_integers x = true ->
      exists t, lispstr x = Some t /\ parse t = Ok x) /\
  (forall x y,
      parsed_with (fun f => valid_binary Host.prec Host.emax f = true) x ->
      parsed_with (fun f => valid_binary Host.prec Host.emax f = true) y ->
      small_integers x = true -> small_integers y = true ->
      lispstr x = lispstr y -> x = y) /\
  (forall z, within_digit_limit z = true -> atom (Host.str_int z) = Int z) /\
  (forall f, valid_binary Host.prec Host.emax f = true ->
             atom (Repr.float_str f) = Float f).
Proof.
  assert (Hrt : forall x,
             parsed_with (fun f => valid_binary Host.prec Host.emax f = true) x ->
             exists t, lispstr x = Some t /\ parse t = Ok x).
  { intros x H. apply parse_lispstr.
    eapply parsed_with_impl; [| exact H]. apply float_str_reads_back. }
  split; [intros x Hx _; exact (Hrt x Hx) |]. split; [| split].
  - intros x y Hx Hy _ _ E.
    destruct (Hrt x Hx) as (t & Ht & Hpx). destruct (Hrt y Hy) as (u & Hu & Hpy).
    assert (t = u) by congruence. subst u. congruence.
  - intros z _. apply atom_str_int.
  - intros f Hf. apply float_reads_back_spec, float_str_reads_back, Hf.
Qed.

Lemma lispstr_parse_round_trip_witness :
  small_integers (List [Symbol "a"; Int (-3); Float five; Float S754_nan; List []])
    = true /\
  exists t,
    lispstr (List [Symbol "a"; Int (-3); Float five; Float S754_nan; List []])
      = Some t /\
    parse t = Ok (List [Symbol "a"; Int (-3); Float five; Float S754_nan; List []]).
Proof.
  split; [reflexivity |].
  apply (proj1 lispstr_parse_round_trip); [| reflexivity].
  constructor. repeat (constructor; [| try constructor]).
  - constructor; reflexivity.
  - constructor.
  - constructor. reflexivity.
  - constructor. reflexivity.
  - constructor. constructor.
Defined.

(** ** Names and applications, step by step *)

Lemma eval_application (fuel : nat) (h : value) (rest : list value)
    (env : nat) (s : store) :
  (forall name, h = Symbol name -> form_arity name = None) ->
  eval (S fuel) (List (h :: rest)) env s =
  run proc, s1 <- eval fuel h env s;
  run args, s2 <- eval_each (fun exp => eval fuel exp env) rest s1;
  call fuel proc args s2.
Proof.
  intros Hh. destruct (head_not_special h Hh) as (H1 & H2 & H3 & H4 & H5).
  cbn [eval]. rewrite H1, H2, H3, H4, H5. reflexivity.
Qed.

Lemma eval_local_name (fuel : nat) (name : string) (a : nat) (s : store)
    (fr : Env) (v : value) :
  s !! a = Some fr -> assoc name (vars fr) = Some v ->
  eval (S fuel) (Symbol name) a s = (Ok v, s).
Proof.
  intros Ha Hv. cbn [eval]. unfold Env_find.
  pose proof (lookup_lt_Some _ _ _ Ha) as Hlen.
  destruct (length s) as [|n]; [lia |].
  cbn [find_from]. rewrite Ha. unfold contains. rewrite Hv.
  unfold getitem. rewrite Ha, Hv. reflexivity.
Qed.

Lemma eval_global_name (fuel : nat) (name : string) (a : nat) (s : store)
    (fr g : Env) (v : value) :
  s !! a = Some fr -> a <> 0 -> contains fr name = false ->
  outer fr = Some 0 -> s !! 0 = Some g -> assoc name (vars g) = Some v ->
  eval (S fuel) (Symbol name) a s = (Ok v, s).
Proof.
  intros Ha Hne Hc Ho Hg Hv. cbn [eval]. unfold Env_find.
  pose proof (lookup_lt_Some _ _ _ Ha) as Hlen.
  destruct (length s) as [|[|n]]; [lia | lia |].
  cbn [find_from]. rewrite Ha, Hc, Ho, Hg. unfold contains. rewrite Hv.
  unfold getitem. rewrite Hg, Hv. reflexivity.
Qed.

(** ** Scoping of lambda parameters *)

(** The walk along the outer links from an environment of the store does
    not depend on the bound, once it is above the address. *)
Lemma find_from_bound (s : store) (var : string) :
  wf_store s ->
  forall a k k', a < k -> a < k' -> find_from k var a s = find_from k' var a s.
Proof.
  intros Hwf a. induction a as [a IH] using lt_wf_ind. intros k k' Hk Hk'.
  destruct k as [|k]; [lia |]. destruct k' as [|k']; [lia |].
  cbn [find_from]. destruct (s !! a) as [e|] eqn:Ha; [| reflexivity].
  destruct (contains e var); [reflexivity |].
  destruct (outer e) as [o|] eqn:Ho; [| reflexivity].
  pose proof (Hwf a e o Ha Ho). apply IH; lia.
Qed.

(** A new environment at the end of the store is not on the way of any
    walk that starts from an older one. *)
Lemma find_from_push (s : store) (e : Env) (var : string) :
  wf_store s ->
  forall k a, a < length s ->
    find_from k var a (s ++ [e]) = find_from k var a s.
Proof.
  intros Hwf k. induction k as [|k IH]; intros a Ha; [reflexivity |].
  cbn [find_from]. rewrite lookup_app_l by exact Ha.
  destruct (s !! a) as [e'|] eqn:He; [| reflexivity].
  destruct (contains e' var); [reflexivity |].
  destruct (outer e') as [o|] eqn:Ho; [| reflexivity].
  pose proof (Hwf a e' o He Ho). apply IH. lia.
Qed.

Lemma Env_find_push (s : store) (e : Env) (var : string) (a : nat) :
  wf_store s -> a < length s ->
  Env_find var a (s ++ [e]) = Env_find var a s.
Proof.
  intros Hwf Ha. unfold Env_find. rewrite find_from_push by assumption.
  apply find_from_bound; [exact Hwf | rewrite length_app; simpl; lia | exact Ha].
Qed.

Lemma getitem_push (s : store) (e : Env) (var : string) (a : nat) :
  a < length s -> getitem a var (s ++ [e]) = getitem a var s.
Proof. intros Ha. unfold getitem. rewrite lookup_app_l by exact Ha. reflexivity. Qed.

(** A variable looked up from an environment of the store reads the same
    after a new environment has been added. *)
Lemma eval_name_push (k : nat) (var : string) (a : nat) (s : store) (e : Env) :
  wf_store s -> a < length s ->
  eval k (Symbol var) a (s ++ [e])
  = (fst (eval k (Symbol var) a s), s ++ [e]).
Proof.
  intros Hwf Ha. destruct k as [|k]; [reflexivity |]. cbn [eval].
  rewrite Env_find_push by assumption.
  destruct (Env_find var a s) as [b|] eqn:E; [| reflexivity].
  pose proof (find_from_sound _ _ _ _ _ E) as Hn.
  destruct (nearest_binds _ _ _ _ Hn) as (eb & Hb & _).
  rewrite getitem_push by (eapply lookup_lt_Some; eauto). reflexivity.
Qed.

Lemma same_names_refl (n : nat) (s : store) : same_names n s s.
Proof. intros a e _ Ha. exists e. auto. Qed.

Lemma same_names_trans (n : nat) (s1 s2 s3 : store) :
  same_names n s1 s2 -> same_names n s2 s3 -> same_names n s1 s3.
Proof.
  intros H12 H23 a e Hn Ha.
  destruct (H12 a e Hn Ha) as (e2 & Ha2 & Ho2 & Hc2).
  destruct (H23 a e2 Hn Ha2) as (e3 & Ha3 & Ho3 & Hc3).
  exists e3. split; [exact Ha3 |]. split; [congruence |].
  intros var. rewrite Hc3. apply Hc2.
Qed.

Lemma same_names_push (n : nat) (s : store) (e : Env) : same_names n s (s ++ [e]).
Proof.
  intros a e' _ Ha. exists e'. split; [| auto]. apply lookup_app_l_Some, Ha.
Qed.

(** [define] in an environment at the address [n] or above. *)
Lemma same_names_define (n : nat) (s : store) (name : string) (v : value)
    (env : nat) :
  n <= env -> same_names n s (alter (setitem name v) env s).
Proof.
  intros Hn a e Ha He. exists e.
  rewrite list_lookup_alter_ne by lia. auto.
Qed.

(** [set!]: the environment that is changed binds the name already. *)
Lemma same_names_set (n : nat) (s : store) (name : string) (v : value)
    (env b : nat) :
  Env_find name env s = Some b -> same_names n s (alter (setitem name v) b s).
Proof.
  intros Hf a e _ Ha.
  destruct (nearest_binds _ _ _ _ (find_from_sound _ _ _ _ _ Hf)) as (eb & Hb & Hc).
  destruct (decide (a = b)) as [-> | Hne].
  - exists (setitem name v e). rewrite list_lookup_alter_eq, Ha.
    split; [reflexivity |]. split; [reflexivity |].
    assert (eb = e) by congruence. subst eb.
    intros var. unfold contains, setitem in *. cbn [vars assoc].
    destruct (String.eqb_spec name var) as [<- | _]; [| reflexivity].
    symmetry. exact Hc.
  - exists e. rewrite list_lookup_alter_ne by congruence. auto.
Qed.

Lemma eval_each_names (n : nat) (ev : value -> store -> res value)
    (exps : list value) :
  (forall x s r s', n <= length s -> ev x s = (r, s') ->
     same_names n s s' /\ length s <= length s') ->
  forall s r s', n <= length s -> eval_each ev exps s = (r, s') ->
    same_names n s s' /\ length s <= length s'.
Proof.
  intros Hev. induction exps as [|x exps IH]; intros s r s' Hn; cbn [eval_each].
  - intros [= <- <-]. split; [apply same_names_refl | lia].
  - unfold sbind. destruct (ev x s) as [[v| | |] s1] eqn:E1;
      destruct (Hev _ _ _ _ Hn E1) as [G1 L1]; try (intros [= <- <-]; auto).
    destruct (eval_each ev exps s1) as [[vs| | |] s2] eqn:E2;
      destruct (IH s1 _ _ ltac:(lia) E2) as [G2 L2];
      intros [= <- <-]; (split; [eapply same_names_trans; eauto | lia]).
Qed.

Lemma eval_names (n : nat) (fuel : nat) :
  (forall x env s r s',
      n <= env -> n <= length s -> eval fuel x env s = (r, s') ->
      same_names n s s' /\ length s <= length s') /\
  (forall proc args s r s',
      n <= length s -> call fuel proc args s = (r, s') ->
      same_names n s s' /\ length s <= length s').
Proof.
  assert (Hrefl : forall s : store, same_names n s s /\ length s <= length s).
  { intros s. split; [apply same_names_refl | lia]. }
  induction fuel as [|fuel [IHe IHc]].
  { split; intros; simpl in *;
      match goal with H : (_, _) = (_, _) |- _ => injection H as <- <- end;
      apply Hrefl. }
  split.
  - intros x env s r s' Henv Hlen. cbn [eval].
    destruct x as [z|f|var|l|b| |p b e|b|h];
      try (intros [= <- <-]; apply Hrefl).
    + destruct (Env_find var env s); intros [= <- <-]; apply Hrefl.
    + destruct l as [|h rest]; [intros [= <- <-]; apply Hrefl |].
      destruct (head_is "quote" h).
      { destruct rest as [|exp [|? ?]]; intros [= <- <-]; apply Hrefl. }
      destruct (head_is "if" h).
      { destruct rest as [|test [|conseq [|alt [|? ?]]]];
          try (intros [= <- <-]; apply Hrefl).
        unfold sbind.
        destruct (eval fuel test env s) as [[t| | |] s1] eqn:E1;
          destruct (IHe _ _ _ _ _ Henv Hlen E1) as [G1 L1];
          try (intros [= <- <-]; auto).
        intros E2. destruct (IHe _ _ s1 _ _ Henv ltac:(lia) E2) as [G2 L2].
        split; [eapply same_names_trans; eauto | lia]. }
      destruct (head_is "define" h).
      { destruct rest as [|var [|exp [|? ?]]];
          try (intros [= <- <-]; apply Hrefl).
        unfold sbind.
        destruct (eval fuel exp env s) as [[v| | |] s1] eqn:E1;
          destruct (IHe _ _ _ _ _ Henv Hlen E1) as [G1 L1];
          try (intros [= <- <-]; auto).
        unfold define_var. destruct var; intros [= <- <-]; auto.
        split; [| rewrite length_alter; exact L1].
        eapply same_names_trans; [exact G1 | apply same_names_define, Henv]. }
      destruct (head_is "set!" h).
      { destruct rest as [|var [|exp [|? ?]]];
          try (intros [= <- <-]; apply Hrefl).
        unfold sbind.
        destruct (eval fuel exp env s) as [[v| | |] s1] eqn:E1;
          destruct (IHe _ _ _ _ _ Henv Hlen E1) as [G1 L1];
          try (intros [= <- <-]; auto).
        unfold set_var. destruct var as [| |name| | | | | |];
          try (intros [= <- <-]; auto).
        destruct (Env_find name env s1) as [b|] eqn:Ef; intros [= <- <-]; auto.
        split; [| rewrite length_alter; exact L1].
        eapply same_names_trans; [exact G1 | eapply same_names_set, Ef]. }
      destruct (head_is "lambda" h).
      { destruct rest as [|parms [|body [|? ?]]]; intros [= <- <-];
          apply Hrefl. }
      unfold sbind.
      destruct (eval fuel h env s) as [[proc| | |] s1] eqn:E1;
        destruct (IHe _ _ _ _ _ Henv Hlen E1) as [G1 L1];
        try (intros [= <- <-]; auto).
      destruct (eval_each (fun exp => eval fuel exp env) rest s1)
        as [[args| | |] s2] eqn:E2;
        destruct (eval_each_names n _ rest
                    (fun y s0 r0 s0' H0 => IHe y env s0 r0 s0' Henv H0)
                    s1 _ _ ltac:(lia) E2) as [G2 L2];
        try (intros [= <- <-]; split; [eapply same_names_trans; eauto | lia]).
      intros E3. destruct (IHc _ _ s2 _ _ ltac:(lia) E3) as [G3 L3].
      split; [| lia].
      eapply same_names_trans; [exact G1 |].
      eapply same_names_trans; [exact G2 | exact G3].
  - intros proc args s r s' Hlen. cbn [call].
    destruct proc as [| | | | | |parms body penv|b|h];
      try (intros [= <- <-]; apply Hrefl).
    + destruct (Env_init parms args (Some penv)) as [e| | |];
        try (intros [= <- <-]; apply Hrefl).
      intros E.
      assert (Hlen' : n <= length (s ++ [e])) by (rewrite length_app; simpl; lia).
      destruct (IHe _ _ _ _ _ Hlen Hlen' E) as [G L].
      rewrite length_app in L. simpl in L.
      split; [| lia].
      eapply same_names_trans; [apply same_names_push | exact G].
    + destruct b; try (intros [= <- <-]; apply Hrefl).
      destruct args as [|f [|xs [|? ?]]]; try (intros [= <- <-]; apply Hrefl).
      destruct (callable f); [| intros [= <- <-]; apply Hrefl].
      destruct (iterate xs) as [l| | |]; try (intros [= <- <-]; apply Hrefl).
      apply IHc, Hlen.
Qed.

Lemma Env_init_outer (parms : value) (args : list value) (o : option nat) (e : Env) :
  Env_init parms args o = Ok e -> outer e = o.
Proof.
  unfold Env_init. destruct (iterate parms) as [ps| | |]; try discriminate.
  cbn [obind]. destruct (update [] (zip ps args)) as [d| | |]; try discriminate.
  intros [= <-]. reflexivity.
Qed.

(** C5: lambda parameters are bound in a new environment made for the
    call, and do not leak into the defining environment.

    For every procedure, every list of arguments and every store, the
    call runs the body in an environment that did not exist before, whose
    outer environment is the defining one; making it changes no existing
    environment, and a variable looked up from an existing environment
    reads as before.  Inside the call a parameter reads its argument,
    whatever the defining environment binds.  Whatever the body does, and
    whether the call returns or fails, afterwards every environment that
    existed before the call binds exactly the names that it bound: no
    parameter, and no name defined by the body, is added to the defining
    environment or to any other.

    In a fresh interpreter, after [(define x 10)] and [(define f (lambda
    (x) ( * x 2)))], the call [(f 5)] evaluates to 10: it adds one
    environment, which holds the parameter [x = 5], and [x] looked up in
    the global environment afterwards is still 10; likewise for every
    integer argument and every value of the global [x]. *)
Theorem lambda_parameter_does_not_leak :
  (forall fuel parms body penv args s e,
      Env_init parms args (Some penv) = Ok e ->
      call (S fuel) (Procedure parms body penv) args s
        = eval fuel body (length s) (s ++ [e]) /\
      s !! length s = None /\
      (s ++ [e]) !! length s = Some e /\
      outer e = Some penv /\
      (forall a, a < length s -> (s ++ [e]) !! a = s !! a) /\
      (wf_store s ->
       forall var a k, a < length s ->
         eval k (Symbol var) a (s ++ [e])
         = (fst (eval k (Symbol var) a s), s ++ [e]))) /\
  (forall parms ps args penv e s i p v k,
      iterate parms = Ok (map Symbol ps) -> NoDup ps ->
      Env_init parms args (Some penv) = Ok e ->
      ps !! i = Some p -> args !! i = Some v ->
      eval (S k) (Symbol p) (length s) (s ++ [e]) = (Ok v, s ++ [e])) /\
  (forall fuel proc args s r s',
      call fuel proc args s = (r, s') -> same_names (length s) s s') /\
  (forall math_vars fuel val a,
      eval (4 + fuel) (List [Symbol "f"; Int a]) global_env
           [double_global math_vars val]
        = (Ok (Int (a * 2)), [double_global math_vars val; double_frame a]) /\
      eval (1 + fuel) (Symbol "x") global_env
           [double_global math_vars val; double_frame a]
        = (Ok val, [double_global math_vars val; double_frame a])) /\
  (forall math_vars fuel,
    let g0 := standard_env math_vars in
    let g1 := setitem "x" (Int 10) g0 in
    let f := Procedure (List [Symbol "x"])
                       (List [Symbol "*"; Symbol "x"; Int 2]) global_env in
    let g2 := setitem "f" f g1 in
    let frame := {| vars := [("x", Int 5)]; outer := Some global_env |} in
    lisp_eval (2 + fuel) "(define x 10)" global_env [g0] = (Ok NoneV, [g1]) /\
    lisp_eval (2 + fuel) "(define f (lambda (x) (* x 2)))" global_env [g1]
      = (Ok NoneV, [g2]) /\
    lisp_eval (4 + fuel) "(f 5)" global_env [g2] = (Ok (Int 10), [g2; frame]) /\
    lisp_eval (1 + fuel) "x" global_env [g2; frame] = (Ok (Int 10), [g2; frame]) /\
    assoc "x" (vars g2) = Some (Int 10)).
Proof.
  split; [| split; [| split; [| split]]].
  - intros fuel parms body penv args s e He.
    split; [cbn [call]; rewrite He; reflexivity |].
    split; [apply lookup_ge_None_2; lia |].
    split; [rewrite lookup_app_r by lia; rewrite Nat.sub_diag; reflexivity |].
    split; [apply (Env_init_outer _ _ _ _ He) |].
    split; [intros a Ha; apply lookup_app_l, Ha |].
    intros Hwf var a k Ha. apply eval_name_push; assumption.
  - intros parms ps args penv e s i p v k Hit Hnd He Hp Hv.
    apply (eval_local_name k p (length s) (s ++ [e]) e v).
    + rewrite lookup_app_r by lia. rewrite Nat.sub_diag. reflexivity.
    + unfold Env_init in He. rewrite Hit in He. cbn [obind] in He.
      destruct (update_symbols ps args [] Hnd (fun _ _ => eq_refl))
        as (d & Hu & Hin & _).
      rewrite Hu in He. cbn [obind] in He. injection He as <-.
      cbn [vars]. rewrite (Hin i p Hp). exact Hv.
  - intros fuel proc args s r s' E.
    apply (proj2 (eval_names (length s) fuel) proc args s r s' (le_n _) E).
  - intros math_vars fuel val a.
    set (g := double_global math_vars val). set (frame := double_frame a).
    split.
    + change (4 + fuel) with (S (S (S (S fuel)))). unfold global_env.
      rewrite eval_application by (intros name [= <-]; reflexivity).
      rewrite (eval_local_name _ "f" 0 [g] g double_proc eq_refl eq_refl).
      cbn [sbind eval_each].
      change (eval (S (S (S fuel))) (Int a) 0 [g]) with (Ok (Int a), [g]).
      cbn [sbind].
      change (call (S (S (S fuel))) double_proc [Int a] [g])
        with (eval (S (S fuel)) (List [Symbol "*"; Symbol "x"; Int 2]) 1
                   [g; frame]).
      rewrite eval_application by (intros name [= <-]; reflexivity).
      rewrite (eval_global_name _ "*" 1 [g; frame] frame g (Builtin variadic_mul)
                 eq_refl ltac:(lia) eq_refl eq_refl eq_refl eq_refl).
      cbn [sbind eval_each].
      rewrite (eval_local_name _ "x" 1 [g; frame] frame (Int a) eq_refl eq_refl).
      cbn [sbind].
      change (eval (S fuel) (Int 2) 1 [g; frame]) with (Ok (Int 2), [g; frame]).
      cbn [sbind call builtin_call foldl obind].
      change (py_mul (Int 1) (Int a)) with (Ok (Int (1 * a))).
      cbn [obind].
      change (py_mul (Int (1 * a)) (Int 2)) with (Ok (Int (1 * a * 2))).
      replace (1 * a * 2)%Z with (a * 2)%Z by lia. reflexivity.
    + apply (eval_local_name _ "x" 0 [g; frame] g val); reflexivity.
  - intros math_vars fuel. repeat split; vm_compute; reflexivity.
Qed.

Lemma lambda_parameter_does_not_leak_witness :
  Env_init (List [Symbol "x"]) [Int 5] (Some global_env) = Ok (double_frame 5) /\
  wf_store [double_global [] (Int 10)] /\
  call 3 double_proc [Int 5] [double_global [] (Int 10)]
    = (Ok (Int 10), [double_global [] (Int 10); double_frame 5]) /\
  eval 1 (Symbol "x") 1 [double_global [] (Int 10); double_frame 5]
    = (Ok (Int 5), [double_global [] (Int 10); double_frame 5]) /\
  eval 1 (Symbol "x") 0 [double_global [] (Int 10); double_frame 5]
    = (Ok (Int 10), [double_global [] (Int 10); double_frame 5]) /\
  same_names 1 [double_global [] (Int 10)]
             [double_global [] (Int 10); double_frame 5].
Proof.
  assert (Hi : Env_init (List [Symbol "x"]) [Int 5] (Some global_env)
               = Ok (double_frame 5)) by reflexivity.
  assert (Hwf : wf_store [double_global [] (Int 10)])
    by (apply wf_check_sound; reflexivity).
  assert (Hc : call 3 double_proc [Int 5] [double_global [] (Int 10)]
               = (Ok (Int 10), [double_global [] (Int 10); double_frame 5]))
    by (vm_compute; reflexivity).
  destruct lambda_parameter_does_not_leak as (H1 & H2 & H3 & _).
  destruct (H1 2 (List [Symbol "x"]) (List [Symbol "*"; Symbol "x"; Int 2])
               global_env [Int 5] [double_global [] (Int 10)] (double_frame 5) Hi)
    as (_ & _ & _ & _ & _ & H16).
  split; [exact Hi |]. split; [exact Hwf |]. split; [exact Hc |].
  split; [| split].
  - refine (H2 (List [Symbol "x"]) ["x"] [Int 5] global_env (double_frame 5)
              [double_global [] (Int 10)] 0 "x" (Int 5) 0 eq_refl _ Hi
              eq_refl eq_refl).
    apply NoDup_singleton.
  - exact (H16 Hwf "x" 0 1 ltac:(simpl; lia)).
  - exact (H3 3 double_proc [Int 5] [double_global [] (Int 10)] _ _ Hc).
Defined.

(** ** A recursive program *)

Section Factorial.

Variable math_vars : list (string * value).

Let g : Env := setitem "factorial" factorial_proc (standard_env math_vars).

Lemma factorial_global (fuel : nat) (name : string) (v : value) (k a : nat)
    (s : store) :
  in_call g k a s -> String.eqb "n" name = false ->
  assoc name (vars g) = Some v ->
  eval (S fuel) (Symbol name) a s = (Ok v, s).
Proof.
  intros (Hg & Ha & Hne) Hn Hv.
  eapply eval_global_name; eauto.
  unfold contains, factorial_frame. cbn [vars assoc]. rewrite Hn. reflexivity.
Qed.

Lemma factorial_n (fuel : nat) (k a : nat) (s : store) :
  in_call g k a s -> eval (S fuel) (Symbol "n") a s = (Ok (Int (Z.of_nat k)), s).
Proof.
  intros (_ & Ha & _). eapply eval_local_name; [exact Ha | reflexivity].
Qed.

Lemma factorial_test (fuel : nat) (k a : nat) (s : store) :
  in_call g k a s ->
  eval (S (S fuel)) (List [Symbol "<="; Symbol "n"; Int 1]) a s
  = (Ok (Bool (Z.of_nat k <=? 1)%Z), s).
Proof.
  intros H. rewrite eval_application by (intros name [= <-]; reflexivity).
  rewrite (factorial_global fuel "<=" (Builtin op_le) k a s H eq_refl eq_refl).
  cbn [sbind eval_each]. rewrite (factorial_n fuel k a s H). cbn [sbind].
  change (eval (S fuel) (Int 1) a s) with (Ok (Int 1), s). cbn [sbind].
  reflexivity.
Qed.

Lemma factorial_sub (fuel : nat) (k a : nat) (s : store) :
  in_call g k a s ->
  eval (S (S fuel)) (List [Symbol "-"; Symbol "n"; Int 1]) a s
  = (Ok (Int (Z.of_nat k - 1)), s).
Proof.
  intros H. rewrite eval_application by (intros name [= <-]; reflexivity).
  rewrite (factorial_global fuel "-" (Builtin op_sub) k a s H eq_refl eq_refl).
  cbn [sbind eval_each]. rewrite (factorial_n fuel k a s H). cbn [sbind].
  change (eval (S fuel) (Int 1) a s) with (Ok (Int 1), s). cbn [sbind].
  reflexivity.
Qed.

Lemma factorial_call_step (fuel : nat) (k : nat) (s : store) :
  call (S fuel) factorial_proc [Int (Z.of_nat k)] s
  = eval fuel factorial_body (length s) (s ++ [factorial_frame k]).
Proof. reflexivity. Qed.

Lemma in_call_push (k : nat) (s : store) :
  s !! 0 = Some g -> in_call g k (length s) (s ++ [factorial_frame k]).
Proof.
  intros Hg. pose proof (lookup_lt_Some _ _ _ Hg) as Hlen.
  split; [apply lookup_app_l_Some, Hg |]. split; [| lia].
  rewrite lookup_app_r by lia. rewrite Nat.sub_diag. reflexivity.
Qed.

Lemma factorial_if_step (fuel : nat) (a : nat) (s : store) :
  eval (S fuel) factorial_body a s =
  run t, s1 <- eval fuel (List [Symbol "<="; Symbol "n"; Int 1]) a s;
  eval fuel
    (if truthy t then Int 1
     else List [Symbol "*"; Symbol "n";
                List [Symbol "factorial"; List [Symbol "-"; Symbol "n"; Int 1]]])
    a s1.
Proof. reflexivity. Qed.

Lemma factorial_call (n : nat) :
  forall fuel s,
    4 * n + 6 <= fuel -> s !! 0 = Some g ->
    call fuel factorial_proc [Int (Z.of_nat n)] s
    = (Ok (Int (factorial n)), s ++ factorial_frames n).
Proof.
  induction n as [|m IH]; intros fuel s Hf Hg.
  - destruct fuel as [|[|[|[|f4]]]]; try lia.
    rewrite factorial_call_step, factorial_if_step.
    rewrite (factorial_test _ 0 _ _ (in_call_push 0 s Hg)). reflexivity.
  - destruct m as [|m'].
    + destruct fuel as [|[|[|[|f4]]]]; try lia.
      rewrite factorial_call_step, factorial_if_step.
      rewrite (factorial_test _ 1 _ _ (in_call_push 1 s Hg)). reflexivity.
    + destruct fuel as [|[|[|[|[|[|f6]]]]]]; try lia.
      set (k := S (S m')) in *.
      pose proof (in_call_push k s Hg) as Hin.
      set (a := length s) in *. set (s' := s ++ [factorial_frame k]) in *.
      rewrite factorial_call_step, factorial_if_step.
      fold a s'. rewrite (factorial_test _ k a s' Hin).
      assert (Hk : (Z.of_nat k <=? 1)%Z = false) by (apply Z.leb_gt; lia).
      rewrite Hk. cbn [sbind truthy].
      rewrite eval_application by (intros name [= <-]; reflexivity).
      rewrite (factorial_global _ "*" (Builtin variadic_mul) k a s' Hin eq_refl eq_refl).
      cbn [sbind eval_each]. rewrite (factorial_n _ k a s' Hin). cbn [sbind].
      rewrite eval_application by (intros name [= <-]; reflexivity).
      rewrite (factorial_global _ "factorial" factorial_proc k a s' Hin eq_refl eq_refl).
      cbn [sbind eval_each]. rewrite (factorial_sub _ k a s' Hin). cbn [sbind].
      replace (Z.of_nat k - 1)%Z with (Z.of_nat (S m')) by lia.
      rewrite (IH (S (S f6)) s') by (try lia; apply Hin).
      cbn [sbind]. unfold call at 1. cbn [builtin_call foldl obind].
      change (py_mul (Int 1) (Int (Z.of_nat k))) with (Ok (Int (1 * Z.of_nat k))).
      cbn [obind].
      change (py_mul (Int (1 * Z.of_nat k)) (Int (factorial (S m'))))
        with (Ok (Int (1 * Z.of_nat k * factorial (S m')))).
      replace (1 * Z.of_nat k * factorial (S m'))%Z with (factorial k)
        by (change (factorial k) with (Z.of_nat k * factorial (S m'))%Z; ring).
      subst s'. rewrite <- app_assoc. reflexivity.
Qed.

End Factorial.

(** X20: the factorial program of the demonstration script runs as
    intended, for every argument.  In a fresh standard environment the
    definition binds [factorial] to a procedure that closes over the
    global environment; then, for every natural number [n], the call
    [(factorial n)] returns the integer [n!] exactly.  The recursion
    finds [factorial] itself and the arithmetic procedures through the
    outer link of each call's environment; every call adds one
    environment that binds [n], and the global environment is not
    changed. *)
Theorem factorial_program_correct :
  forall math_vars,
    let g := setitem "factorial" factorial_proc (standard_env math_vars) in
    (forall fuel,
        lisp_eval (2 + fuel) factorial_program global_env
                  (initial_store math_vars)
        = (Ok NoneV, [g])) /\
    (forall n fuel,
        4 * n + 7 <= fuel ->
        lisp_eval fuel ("(factorial " ++ Host.str_int (Z.of_nat n) ++ ")")
                  global_env [g]
        = (Ok (Int (factorial n)), [g] ++ factorial_frames n)).
Proof.
  intros math_vars g. split.
  - intros fuel. vm_compute. reflexivity.
  - intros n fuel Hf.
    set (x := List [Symbol "factorial"; Int (Z.of_nat n)]).
    assert (Hx : parsed x).
    { constructor. constructor; [| constructor; [constructor | constructor]].
      constructor; reflexivity. }
    destruct (parse_lispstr x Hx) as (t & Ht & Hp).
    assert (Et : t = ("(factorial " ++ Host.str_int (Z.of_nat n) ++ ")")%string).
    { assert (E : lispstr x
                  = Some ("(factorial " ++ Host.str_int (Z.of_nat n) ++ ")")%string)
        by reflexivity.
      congruence. }
    subst t. unfold lisp_eval. rewrite Hp. subst x.
    destruct fuel as [|[|f]]; try lia. unfold global_env.
    rewrite eval_application by (intros name [= <-]; reflexivity).
    rewrite (eval_local_name f "factorial" 0 [g] g factorial_proc eq_refl eq_refl).
    cbn [sbind eval_each].
    change (eval (S f) (Int (Z.of_nat n)) 0 [g]) with (Ok (Int (Z.of_nat n)), [g]).
    cbn [sbind]. apply (factorial_call math_vars); [lia | reflexivity].
Qed.

Lemma factorial_program_correct_witness :
  4 * 5 + 7 <= 27 /\
  lisp_eval 27 "(factorial 5)" global_env
    [setitem "factorial" factorial_proc (standard_env [])]
  = (Ok (Int 120),
     [setitem "factorial" factorial_proc (standard_env [])]
       ++ factorial_frames 5).
Proof.
  split; [lia |].
  exact (proj2 (factorial_program_correct []) 5 27 ltac:(lia)).
Defined.

(** ** The depth of the recursion *)

Lemma eval_each_mono (ev ev' : value -> store -> res value) (exps : list value) :
  (forall x s r s', ev x s = (r, s') -> r <> OutOfFuel -> ev' x s = (r, s')) ->
  forall s r s',
    eval_each ev exps s = (r, s') -> r <> OutOfFuel ->
    eval_each ev' exps s = (r, s').
Proof.
  intros Hev. induction exps as [|x exps IH]; intros s r s'; cbn [eval_each].
  - auto.
  - unfold sbind.
    destruct (ev x s) as [[v| e | |] s1] eqn:E1; intros H Hne;
      try (injection H as <- <-); try congruence;
      rewrite (Hev _ _ _ _ E1) by discriminate; [| reflexivity..].
    destruct (eval_each ev exps s1) as [[vs| e | |] s2] eqn:E2;
      injection H as <- <-; try congruence;
      rewrite (IH _ _ _ E2) by discriminate; reflexivity.
Qed.

Lemma eval_mono (fuel : nat) :
  (forall x env s r s',
      eval fuel x env s = (r, s') -> r <> OutOfFuel ->
      eval (S fuel) x env s = (r, s')) /\
  (forall proc args s r s',
      call fuel proc args s = (r, s') -> r <> OutOfFuel ->
      call (S fuel) proc args s = (r, s')).
Proof.
  induction fuel as [|fuel [IHe IHc]].
  { split; intros; simpl in *; congruence. }
  split.
  - intros x env s r s' H Hne. cbn [eval] in H.
    remember (S fuel) as f1 eqn:Ef. cbn [eval].
    destruct x as [z|f|var|l|b| |p b e|b|h]; try exact H.
    destruct l as [|h rest]; [exact H |].
    destruct (head_is "quote" h); [exact H |].
    destruct (head_is "if" h).
    { destruct rest as [|test [|conseq [|alt [|? ?]]]]; try exact H.
      unfold sbind in *.
      destruct (eval fuel test env s) as [[t| e | |] s1] eqn:E1;
        try (injection H as <- <-); try congruence;
        rewrite (IHe _ _ _ _ _ E1) by discriminate; [| reflexivity..].
      apply IHe; assumption. }
    destruct (head_is "define" h).
    { destruct rest as [|var [|exp [|? ?]]]; try exact H.
      unfold sbind in *.
      destruct (eval fuel exp env s) as [[v| e | |] s1] eqn:E1;
        try (injection H as <- <-); try congruence;
        rewrite (IHe _ _ _ _ _ E1) by discriminate; [exact H | reflexivity..]. }
    destruct (head_is "set!" h).
    { destruct rest as [|var [|exp [|? ?]]]; try exact H.
      unfold sbind in *.
      destruct (eval fuel exp env s) as [[v| e | |] s1] eqn:E1;
        try (injection H as <- <-); try congruence;
        rewrite (IHe _ _ _ _ _ E1) by discriminate; [exact H | reflexivity..]. }
    destruct (head_is "lambda" h); [exact H |].
    unfold sbind in *.
    destruct (eval fuel h env s) as [[proc| e | |] s1] eqn:E1;
      try (injection H as <- <-); try congruence;
      rewrite (IHe _ _ _ _ _ E1) by discriminate; [| reflexivity..].
    destruct (eval_each (fun exp => eval fuel exp env) rest s1)
      as [[args| e | |] s2] eqn:E2;
      try (injection H as <- <-); try congruence;
      rewrite (eval_each_mono _ (fun exp => eval f1 exp env) rest
                 (fun y s0 r0 s0' => IHe y env s0 r0 s0') _ _ _ E2)
        by discriminate; [| reflexivity..].
    apply IHc; assumption.
  - intros proc args s r s' H Hne. cbn [call] in H.
    remember (S fuel) as f1 eqn:Ef. cbn [call].
    destruct proc as [| | | | | |parms body penv|b|h]; try exact H.
    + destruct (Env_init parms args (Some penv)) as [e| | |]; try exact H.
      apply IHe; assumption.
    + destruct b; try exact H.
      destruct args as [|f [|xs [|? ?]]]; try exact H.
      destruct (callable f); [| exact H].
      destruct (iterate xs) as [l| | |]; try exact H.
      apply IHc; assumption.
Qed.

(** X21: the outcome of an evaluation does not depend on the limit put on
    the depth of the recursion, once the limit is large enough: an
    evaluation or a call that ends within some limit, with a value or
    with an exception, ends with the same outcome and the same store
    under every larger limit. *)
Theorem outcome_independent_of_depth :
  forall fuel fuel',
    fuel <= fuel' ->
    (forall x env s r s',
        eval fuel x env s = (r, s') -> r <> OutOfFuel ->
        eval fuel' x env s = (r, s')) /\
    (forall proc args s r s',
        call fuel proc args s = (r, s') -> r <> OutOfFuel ->
        call fuel' proc args s = (r, s')).
Proof.
  intros fuel fuel' Hle. induction Hle as [|fuel' Hle [IHe IHc]]; [split; auto |].
  split.
  - intros x env s r s' H Hne. apply eval_mono; auto.
  - intros proc args s r s' H Hne. apply eval_mono; auto.
Qed.

Lemma outcome_independent_of_depth_witness :
  3 <= 10 /\
  eval 10 (List [List [Symbol "lambda"; List [Symbol "x"]; Symbol "x"]; Int 1])
       0 [empty_env]
  = (Ok (Int 1), [empty_env; {| vars := [("x", Int 1)]; outer := Some 0 |}]).
Proof.
  assert (Hle : 3 <= 10) by lia.
  split; [exact Hle |].
  refine (proj1 (outcome_independent_of_depth 3 10 Hle) _ _ _ _ _ _ _);
    [reflexivity | discriminate].
Defined.

(** ** Sequencing, apply and quote *)

(** X22: [(begin e1 ... en)] evaluates its expressions in order, each in
    the store that the one before left, and returns the value of the last
    one; with no expression it fails with IndexError.  ([begin] is an
    ordinary procedure that returns its last argument: the sequencing is
    the left-to-right evaluation of the operands.) *)
Theorem begin_sequences :
  forall fuel env s,
    eval fuel (Symbol "begin") env s = (Ok (Builtin begin_), s) ->
    (forall exps vs v s2,
        eval_each (fun exp => eval fuel exp env) exps s = (Ok (vs ++ [v]), s2) ->
        eval (S fuel) (List (Symbol "begin" :: exps)) env s = (Ok v, s2)) /\
    eval (S fuel) (List [Symbol "begin"]) env s = (Raise IndexError, s).
Proof.
  intros fuel env s Hb.
  assert (Hf : exists f, fuel = S f).
  { destruct fuel; [discriminate | eauto]. }
  destruct Hf as [f ->]. split.
  - intros exps vs v s2 He.
    rewrite eval_application by (intros name [= <-]; reflexivity).
    rewrite Hb. cbn [sbind]. rewrite He. cbn [sbind call builtin_call].
    rewrite last_snoc. reflexivity.
  - rewrite eval_application by (intros name [= <-]; reflexivity).
    rewrite Hb. reflexivity.
Qed.

Lemma begin_sequences_witness :
  lisp_eval 4 "(begin (define x 1) (set! x (+ x 1)) (set! x (* x 2)) x)"
            global_env (initial_store [])
  = (Ok (Int 4),
     [setitem "x" (Int 4)
        (setitem "x" (Int 2) (setitem "x" (Int 1) (standard_env [])))]).
Proof.
  refine (proj1 (begin_sequences 3 global_env (initial_store []) eq_refl)
            [List [Symbol "define"; Symbol "x"; Int 1];
             List [Symbol "set!"; Symbol "x"; List [Symbol "+"; Symbol "x"; Int 1]];
             List [Symbol "set!"; Symbol "x"; List [Symbol "*"; Symbol "x"; Int 2]];
             Symbol "x"]
            [NoneV; NoneV; NoneV] (Int 4) _ _).
  vm_compute. reflexivity.
Defined.

(** X23: [(apply proc args)] calls the procedure on the elements of the
    list [args], so [(apply + l)] is the sum of a list of integers; when
    [proc] is not callable it fails with TypeError, whatever [args]
    is. *)
Theorem apply_spreads_arguments :
  (forall fuel f l s,
      callable f = true ->
      call (S fuel) (Builtin scheme_apply) [f; List l] s = call fuel f l s) /\
  (forall fuel f xs s,
      callable f = false ->
      call (S fuel) (Builtin scheme_apply) [f; xs] s = (Raise TypeError, s)) /\
  (forall fuel zs s,
      call (S (S fuel)) (Builtin scheme_apply)
           [Builtin variadic_add; List (map Int zs)] s
      = (Ok (Int (foldr Z.add 0%Z zs)), s)).
Proof.
  split; [| split].
  - intros fuel f l s Hf. cbn [call]. rewrite Hf. reflexivity.
  - intros fuel f xs s Hf. cbn [call]. rewrite Hf. reflexivity.
  - intros fuel zs s. cbn [call callable iterate].
    rewrite variadic_add_integers. reflexivity.
Qed.

Lemma apply_spreads_arguments_witness :
  callable (Int 3) = false /\
  call 1 (Builtin scheme_apply) [Int 3; List []] [empty_env]
  = (Raise TypeError, [empty_env]).
Proof.
  split; [reflexivity |].
  exact (proj1 (proj2 apply_spreads_arguments) 0 (Int 3) (List []) [empty_env]
           eq_refl).
Defined.

(** X24: quoting.  For a datum [x] (integers of 4300 digits at most,
    binary64 floats, symbols that are words reading as no number, lists
    of such) with the text [t], the program text [(quote t)] evaluates to
    [x] in every environment and store, and changes nothing. *)
Theorem quoted_text_evaluates_to_datum :
  forall fuel x env s,
    parsed_with (fun f => valid_binary Host.prec Host.emax f = true) x ->
    small_integers x = true ->
    exists t,
      lispstr x = Some t /\
      lisp_eval (S fuel) ("(quote " ++ t ++ ")") env s = (Ok x, s).
Proof.
  intros fuel x env s Hx _.
  assert (Hp : parsed x).
  { eapply parsed_with_impl; [| exact Hx]. apply float_str_reads_back. }
  destruct (parse_lispstr x Hp) as (t & Ht & _).
  exists t. split; [exact Ht |].
  assert (Hq : parsed (List [Symbol "quote"; x])).
  { constructor. constructor; [| constructor; [exact Hp | constructor]].
    constructor; reflexivity. }
  destruct (parse_lispstr _ Hq) as (u & Hu & Hpu).
  assert (Eu : u = ("(quote " ++ t ++ ")")%string).
  { rewrite lispstr_list in Hu. cbn [mapM] in Hu. rewrite Ht in Hu.
    cbn [lispstr mbind option_bind mret option_ret] in Hu.
    injection Hu as <-. reflexivity. }
  subst u. unfold lisp_eval. rewrite Hpu. reflexivity.
Qed.

Lemma quoted_text_evaluates_to_datum_witness :
  small_integers (List [Int 1; Symbol "a"; List []]) = true /\
  exists t,
    lispstr (List [Int 1; Symbol "a"; List []]) = Some t /\
    lisp_eval 1 ("(quote " ++ t ++ ")") 0 [empty_env]
    = (Ok (List [Int 1; Symbol "a"; List []]), [empty_env]).
Proof.
  split; [reflexivity |].
  apply quoted_text_evaluates_to_datum; [| reflexivity].
  constructor. constructor; [constructor |].
  constructor; [constructor; reflexivity |].
  constructor; [constructor; constructor | constructor].
Defined.
